(** * SellWizr: HTML table extraction, schema inference, Kafka consumer and
    MySQL sink -- a shallow embedding of the TypeScript sources.

    Layout of the development:
    - Part I   definitions, translated from the sources
      (parser.service.ts, database.service.ts, http.service.ts,
       base.service.ts, base.kafka.ts, kafka.consumer.ts,
       consumer.controller.ts, kafka.producer.ts);
    - Part II  lemmas and the theorems about them.

    JavaScript strings are modelled as lists of code units; the model covers
    the code units below 256 (ASCII and Latin-1), for which white space,
    digits and case mapping are written out exactly as ECMAScript defines
    them.  A row is an object with its prototype and its own properties,
    holding primitive values; the number [parseInt] returns is the double
    nearest to the integer it reads. *)

From Stdlib Require Import Ascii String List ZArith Lia Bool Arith Permutation.
From Stdlib Require Decimal DecimalNat DecimalString.
Import ListNotations.

Set Implicit Arguments.

(* ===================================================================== *)
(** * Part I -- definitions                                               *)
(* ===================================================================== *)

(** ** JavaScript strings *)

Definition jsstring := list ascii.

(** String literals of the sources. *)
Definition str (s : string) : jsstring := list_ascii_of_string s.

Definition code (c : ascii) : nat := nat_of_ascii c.

Definition inRange (lo hi : nat) (c : ascii) : bool :=
  (lo <=? code c) && (code c <=? hi).

(** [\d] *)
Definition isDigit (c : ascii) : bool := inRange 48 57 c.

(** [\s], and the characters removed by [String.prototype.trim]:
    TAB, LF, VT, FF, CR, SP and NBSP. *)
Definition isWhiteSpace (c : ascii) : bool :=
  inRange 9 13 c || (code c =? 32) || (code c =? 160).

(** Characters that [.] does not match. *)
Definition isLineTerminator (c : ascii) : bool :=
  (code c =? 10) || (code c =? 13).

(** [a-z] *)
Definition isLowerAZ (c : ascii) : bool := inRange 97 122 c.

(** [[a-z0-9_]] *)
Definition isIdentChar (c : ascii) : bool :=
  isLowerAZ c || isDigit c || (code c =? 95).

(** Upper-case letters with a lower-case partner 32 code units above:
    A-Z, and in Latin-1 the range U+00C0-U+00DE without the multiplication
    sign U+00D7. *)
Definition isUpper (c : ascii) : bool :=
  inRange 65 90 c || (inRange 192 222 c && negb (code c =? 215)).

Definition toLowerChar (c : ascii) : ascii :=
  if isUpper c then ascii_of_nat (code c + 32) else c.

(** [String.prototype.toLowerCase] *)
Definition toLowerCase (s : jsstring) : jsstring := map toLowerChar s.

(** Canonicalisation of the [/i] flag for the ASCII letters of a pattern. *)
Definition foldCase (c : ascii) : ascii :=
  if inRange 65 90 c then ascii_of_nat (code c + 32) else c.

Definition eqc (a b : ascii) : bool := Ascii.eqb a b.

Fixpoint eqs (a b : jsstring) : bool :=
  match a, b with
  | [], [] => true
  | x :: a', y :: b' => eqc x y && eqs a' b'
  | _, _ => false
  end.

Fixpoint trimStart (s : jsstring) : jsstring :=
  match s with
  | [] => []
  | c :: t => if isWhiteSpace c then trimStart t else s
  end.

Definition trimEnd (s : jsstring) : jsstring := rev (trimStart (rev s)).

(** [String.prototype.trim] *)
Definition trim (s : jsstring) : jsstring := trimEnd (trimStart s).

(** [s.replace(/\s+/g, by)]: [inRun] tells that the previous character
    belonged to the white-space run being replaced. *)
Fixpoint replaceRuns (by_ : jsstring) (inRun : bool) (s : jsstring) : jsstring :=
  match s with
  | [] => []
  | c :: t =>
      if isWhiteSpace c
      then (if inRun then replaceRuns by_ true t else by_ ++ replaceRuns by_ true t)
      else c :: replaceRuns by_ false t
  end.

Definition replaceWhiteSpaceRuns (by_ s : jsstring) : jsstring :=
  replaceRuns by_ false s.

(** [s.replace(/,/g, "")] *)
Definition removeCommas (s : jsstring) : jsstring :=
  filter (fun c => negb (eqc c ","%char)) s.

(** Length of the shortest match of [.*?\]] at the head of [s], if any. *)
Fixpoint closingBracket (s : jsstring) : option nat :=
  match s with
  | [] => None
  | c :: t =>
      if eqc c "]"%char then Some 1
      else if isLineTerminator c then None
      else option_map S (closingBracket t)
  end.

(** [s.replace(/\[.*?\]/g, "")]: [skip] counts the characters of the current
    match that are still to be dropped. *)
Fixpoint removeBracketed (skip : nat) (s : jsstring) : jsstring :=
  match s with
  | [] => []
  | c :: t =>
      match skip with
      | S k => removeBracketed k t
      | O =>
          if eqc c "["%char
          then match closingBracket t with
               | Some n => removeBracketed n t
               | None => c :: removeBracketed 0 t
               end
          else c :: removeBracketed 0 t
      end
  end.

(** ** Regular expressions of the sources

    The patterns are kept as data and matched with derivatives;
    [test_full r] is [/^r$/.test], [test_prefix r] is [/^r/.test]. *)

Inductive regex : Type :=
| Void
| Eps
| Class (p : ascii -> bool)
| Seq (r1 r2 : regex)
| Alt (r1 r2 : regex)
| Star (r : regex).

Definition Chr (c : ascii) : regex := Class (eqc c).
(** a pattern letter under the [/i] flag *)
Definition ChrI (c : ascii) : regex := Class (fun x => eqc (foldCase x) c).
Definition Opt (r : regex) : regex := Alt r Eps.
Definition Plus (r : regex) : regex := Seq r (Star r).
Definition Digit : regex := Class isDigit.
Definition AnyChar : regex := Class (fun _ => true).

Fixpoint Rep (n : nat) (r : regex) : regex :=
  match n with
  | O => Eps
  | S k => Seq r (Rep k r)
  end.

(** [r{lo,lo+extra}] *)
Fixpoint RepUpTo (extra : nat) (r : regex) : regex :=
  match extra with
  | O => Eps
  | S k => Opt (Seq r (RepUpTo k r))
  end.

Definition RepRange (lo extra : nat) (r : regex) : regex :=
  Seq (Rep lo r) (RepUpTo extra r).

Fixpoint Word (i : bool) (w : jsstring) : regex :=
  match w with
  | [] => Eps
  | c :: t => Seq (if i then ChrI c else Chr c) (Word i t)
  end.

Fixpoint nullable (r : regex) : bool :=
  match r with
  | Void => false
  | Eps => true
  | Class _ => false
  | Seq a b => nullable a && nullable b
  | Alt a b => nullable a || nullable b
  | Star _ => true
  end.

Fixpoint deriv (c : ascii) (r : regex) : regex :=
  match r with
  | Void => Void
  | Eps => Void
  | Class p => if p c then Eps else Void
  | Seq a b =>
      if nullable a
      then Alt (Seq (deriv c a) b) (deriv c b)
      else Seq (deriv c a) b
  | Alt a b => Alt (deriv c a) (deriv c b)
  | Star a => Seq (deriv c a) (Star a)
  end.

Fixpoint test_full (r : regex) (s : jsstring) : bool :=
  match s with
  | [] => nullable r
  | c :: t => test_full (deriv c r) t
  end.

Definition test_prefix (r : regex) (s : jsstring) : bool :=
  test_full (Seq r (Star AnyChar)) s.

(** ** Values

    The primitive values a row holds.  A number is an integer-valued double
    ([VInt]), an infinity, NaN or, for a float, the text handed to
    [parseFloat]; the two zeros are one value, as [===] has it. *)
Inductive JsValue : Type :=
| VUndefined
| VNull
| VBool (b : bool)
| VInt (z : Z)
| VInfinity (negative : bool)
| VNaN
| VFloatOf (text : jsstring)
| VString (s : jsstring).

(** The Number value for a mathematical integer: the IEEE 754 double nearest
    to it, a tie going to the even significand.  Up to 2^53 every integer
    is a double; beyond, the 53 leading bits [q] are kept and rounded by
    the bits [r] that are cut off; what rounds to 2^1024 is an infinity. *)
Definition numberOfInteger (z : Z) : JsValue :=
  let a := Z.abs z in
  if (a <? 2 ^ 53)%Z then VInt z
  else
    let e := (Z.log2 a - 52)%Z in
    let q := Z.shiftr a e in
    let r := (a - Z.shiftl q e)%Z in
    let half := Z.shiftl 1 (e - 1) in
    let q' := if (half <? r)%Z || ((r =? half)%Z && Z.odd q) then (q + 1)%Z else q in
    let m := Z.shiftl q' e in
    if (2 ^ 1024 <=? m)%Z then VInfinity (z <? 0)%Z
    else VInt (if (z <? 0)%Z then - m else m)%Z.

(** [num > bound] and [num < bound] for an integer bound; a comparison
    with NaN is false. *)
Definition greaterThan (num : JsValue) (bound : Z) : bool :=
  match num with
  | VInt z => (z >? bound)%Z
  | VInfinity negative => negb negative
  | _ => false
  end.

Definition lessThan (num : JsValue) (bound : Z) : bool :=
  match num with
  | VInt z => (z <? bound)%Z
  | VInfinity negative => negative
  | _ => false
  end.

(** ** [parseInt] (radix argument absent)

    [mathInt] is the mathematical integer the digits denote, [None] when
    there is no digit; [parseInt] returns the Number value for it, and NaN
    when there is none.  For a decimal text of more than twenty significant
    digits ECMAScript leaves the choice of reading the further digits as
    zeros to the implementation; V8, on which the program runs, reads them
    all and rounds to the nearest double, and so does [parseInt] here. *)

Definition digitValue (radix : nat) (c : ascii) : option nat :=
  let v :=
    if isDigit c then Some (code c - 48)
    else if inRange 97 122 c then Some (code c - 87)
    else if inRange 65 90 c then Some (code c - 55)
    else None in
  match v with
  | Some d => if d <? radix then Some d else None
  | None => None
  end.

(** Value of the longest prefix of digits in the radix. *)
Fixpoint parseDigits (radix : nat) (acc : Z) (s : jsstring) : Z :=
  match s with
  | [] => acc
  | c :: t =>
      match digitValue radix c with
      | Some d => parseDigits radix (acc * Z.of_nat radix + Z.of_nat d)%Z t
      | None => acc
      end
  end.

Definition parseRadix (radix : nat) (s : jsstring) : option Z :=
  match s with
  | [] => None
  | c :: _ =>
      match digitValue radix c with
      | Some _ => Some (parseDigits radix 0 s)
      | None => None
      end
  end.

Definition parseUnsigned (s : jsstring) : option Z :=
  match s with
  | z :: x :: t =>
      if eqc z "0"%char && (eqc x "x"%char || eqc x "X"%char)
      then parseRadix 16 t
      else parseRadix 10 s
  | _ => parseRadix 10 s
  end.

Definition mathInt (input : jsstring) : option Z :=
  match trimStart input with
  | c :: t =>
      if eqc c "-"%char then option_map Z.opp (parseUnsigned t)
      else if eqc c "+"%char then parseUnsigned t
      else parseUnsigned (c :: t)
  | [] => None
  end.

Definition parseInt (input : jsstring) : JsValue :=
  match mathInt input with
  | Some z => numberOfInteger z
  | None => VNaN
  end.

(** ** models/schema.model.ts *)

Inductive DataType : Type :=
| INT | BIGINT | FLOAT | VARCHAR | TEXT | DATE | TIMESTAMP | BOOLEAN.

Record ColumnSchema : Type := {
  name : jsstring;
  type : DataType;
  maxLength : option nat       (* [None] is [undefined] *)
}.

Record TableSchema : Type := { columns : list ColumnSchema }.

(** The prototype of a row object.  An object literal and every object that
    [JSON.parse] makes have [Object.prototype]; the assignment
    [row.__proto__ = null] leaves an object without prototype. *)
Inductive Prototype : Type := ObjectPrototype | NullPrototype.

(** [TableRow]: a JavaScript object, as its prototype and the list of its
    own properties in the order [Object.keys] lists them. *)
Record TableRow : Type := {
  prototype : Prototype;
  properties : list (jsstring * JsValue)
}.

(** An object literal [{k1: v1, ...}], and an object read by [JSON.parse]. *)
Definition object (props : list (jsstring * JsValue)) : TableRow :=
  {| prototype := ObjectPrototype; properties := props |}.

(** [Object.keys(o)] *)
Definition keys (o : TableRow) : list jsstring := map fst o.(properties).

(** The own property [k], if there is one. *)
Fixpoint getOwn (props : list (jsstring * JsValue)) (k : jsstring) : option JsValue :=
  match props with
  | [] => None
  | (k', v) :: t => if eqs k' k then Some v else getOwn t k
  end.

(** The names of the properties of [Object.prototype]. *)
Definition objectPrototypeNames : list jsstring :=
  [str "constructor"; str "__defineGetter__"; str "__defineSetter__";
   str "hasOwnProperty"; str "__lookupGetter__"; str "__lookupSetter__";
   str "isPrototypeOf"; str "propertyIsEnumerable"; str "toString";
   str "valueOf"; str "__proto__"; str "toLocaleString"].

(** What a property access evaluates to: a value of the row's own, or what
    the row inherits under a name of [Object.prototype] -- the function
    stored there and, for [__proto__], what its getter returns, which is
    [Object.prototype] itself. *)
Inductive Member : Type :=
| Value (v : JsValue)
| Inherited (name : jsstring).

(** [o[k]] *)
Definition getProp (o : TableRow) (k : jsstring) : Member :=
  match getOwn o.(properties) k with
  | Some v => Value v
  | None =>
      match o.(prototype) with
      | ObjectPrototype =>
          if existsb (eqs k) objectPrototypeNames
          then Inherited k else Value VUndefined
      | NullPrototype => Value VUndefined
      end
  end.

(** An array index: the canonical decimal text of an integer from 0 to
    2^32 - 2. *)
Definition arrayIndex (k : jsstring) : option Z :=
  match k with
  | [] => None
  | d :: t =>
      if forallb isDigit k && (negb (eqc d "0"%char) || (length t =? 0))
      then if (parseDigits 10 0 k <? 2 ^ 32 - 1)%Z
           then Some (parseDigits 10 0 k) else None
      else None
  end.

(** A new property whose key is the array index [n] goes among the array
    indices, which [Object.keys] lists first and in ascending order. *)
Fixpoint insertIndex (n : Z) (k : jsstring) (v : JsValue)
    (props : list (jsstring * JsValue)) : list (jsstring * JsValue) :=
  match props with
  | [] => [(k, v)]
  | (k', v') :: t =>
      match arrayIndex k' with
      | Some n' =>
          if (n' <? n)%Z then (k', v') :: insertIndex n k v t
          else (k, v) :: props
      | None => (k, v) :: props
      end
  end.

(** A new own property; a key that is no array index goes to the end. *)
Definition defineOwn (props : list (jsstring * JsValue)) (k : jsstring) (v : JsValue)
  : list (jsstring * JsValue) :=
  match arrayIndex k with
  | Some n => insertIndex n k v props
  | None => props ++ [(k, v)]
  end.

(** A new value for an own property, which keeps its place. *)
Fixpoint updateOwn (props : list (jsstring * JsValue)) (k : jsstring) (v : JsValue)
  : list (jsstring * JsValue) :=
  match props with
  | [] => []
  | (k', v') :: t =>
      if eqs k' k then (k', v) :: t else (k', v') :: updateOwn t k v
  end.

(** [o[k] = v] for a primitive value [v].  An own property is updated.
    Otherwise the assignment meets the one setter [Object.prototype] has,
    [__proto__], when the object inherits it: the setter takes the prototype
    away for null and ignores every other primitive value, and no property
    is made.  In every other case the property is new. *)
Definition setProp (o : TableRow) (k : jsstring) (v : JsValue) : TableRow :=
  match getOwn o.(properties) k with
  | Some _ =>
      {| prototype := o.(prototype); properties := updateOwn o.(properties) k v |}
  | None =>
      match o.(prototype) with
      | ObjectPrototype =>
          if eqs k (str "__proto__")
          then match v with
               | VNull => {| prototype := NullPrototype; properties := o.(properties) |}
               | _ => o
               end
          else {| prototype := ObjectPrototype;
                  properties := defineOwn o.(properties) k v |}
      | NullPrototype =>
          {| prototype := NullPrototype; properties := defineOwn o.(properties) k v |}
      end
  end.

Record ParsedTable : Type := { schema : TableSchema; rows : list TableRow }.

(** ** services/parser.service.ts *)

Definition re_boolean : regex :=
  Alt (Word true (str "true"))
      (Alt (Word true (str "false"))
           (Alt (Word true (str "yes")) (Word true (str "no")))).

Definition re_integer : regex := Seq (Opt (Chr "-")) (Plus Digit).

Definition re_float : regex :=
  Seq (Opt (Chr "-")) (Seq (Plus Digit) (Seq (Chr ".") (Plus Digit))).

Definition re_iso_date : regex :=
  Seq (Rep 4 Digit) (Seq (Chr "-") (Seq (Rep 2 Digit) (Seq (Chr "-") (Rep 2 Digit)))).

Definition re_timestamp : regex :=
  Seq re_iso_date
      (Seq (Class (fun c => eqc c "T"%char || isWhiteSpace c))
           (Seq (Rep 2 Digit) (Seq (Chr ":") (Seq (Rep 2 Digit)
                (Opt (Seq (Chr ":") (Rep 2 Digit))))))).

Definition re_common_date : regex :=
  let sep := Class (fun c => eqc c "/"%char || eqc c "-"%char) in
  Seq (RepRange 1 1 Digit) (Seq sep (Seq (RepRange 1 1 Digit)
      (Seq sep (RepRange 2 2 Digit)))).

Definition re_true_yes : regex :=
  Alt (Word true (str "true")) (Word true (str "yes")).

(** [!s || s === "" || s === "-" || s === "N/A"] *)
Definition isNullMarker (s : jsstring) : bool :=
  eqs s [] || eqs s (str "") || eqs s (str "-") || eqs s (str "N/A").

Definition INT_MAX : Z := 2147483647.
Definition INT_MIN : Z := (-2147483648)%Z.

Definition inferDataType (value : jsstring) : DataType :=
  let trimmed := trim value in
  if isNullMarker trimmed then VARCHAR
  else if test_full re_boolean trimmed then BOOLEAN
  else if test_full re_integer (removeCommas trimmed) then
    let num := parseInt (removeCommas trimmed) in
    if greaterThan num INT_MAX || lessThan num INT_MIN then BIGINT else INT
  else if test_full re_float (removeCommas trimmed) then FLOAT
  else if test_full re_iso_date trimmed then DATE
  else if test_prefix re_timestamp trimmed then TIMESTAMP
  else if test_full re_common_date trimmed then DATE
  else if 255 <? length trimmed then TEXT
  else VARCHAR.

Definition priority (t : DataType) : nat :=
  match t with
  | TEXT => 8
  | VARCHAR => 7
  | FLOAT => 6
  | BIGINT => 5
  | INT => 4
  | TIMESTAMP => 3
  | DATE => 2
  | BOOLEAN => 1
  end.

Definition DataType_eqb (a b : DataType) : bool :=
  match a, b with
  | INT, INT | BIGINT, BIGINT | FLOAT, FLOAT | VARCHAR, VARCHAR
  | TEXT, TEXT | DATE, DATE | TIMESTAMP, TIMESTAMP | BOOLEAN, BOOLEAN => true
  | _, _ => false
  end.

Definition mergeDataTypes (type1 type2 : DataType) : DataType :=
  if DataType_eqb type1 type2 then type1
  else if priority type2 <? priority type1 then type1 else type2.

Definition sanitizeColumnName (name : jsstring) : jsstring :=
  let s1 := trim name in
  let s2 := toLowerCase s1 in
  let s3 := replaceWhiteSpaceRuns (str "_") s2 in
  let s4 := filter isIdentChar s3 in
  let s5 := match s4 with
            | d :: _ => if isDigit d then str "col_" ++ s4 else s4
            | [] => s4
            end in
  firstn 64 s5.

Definition cleanValue (value : jsstring) : jsstring :=
  trim (removeBracketed 0 (replaceWhiteSpaceRuns (str " ") value)).

Definition convertValue (value : jsstring) (dataType : DataType) : JsValue :=
  let cleaned := cleanValue value in
  if isNullMarker cleaned then VNull
  else match dataType with
       | INT | BIGINT => parseInt (removeCommas cleaned)
       | FLOAT => VFloatOf (removeCommas cleaned)
       | BOOLEAN => VBool (test_full re_true_yes cleaned)
       | DATE | TIMESTAMP | VARCHAR | TEXT => VString cleaned
       end.

(** [row[colIndex]] is truthy: the cell exists and is not the empty string. *)
Definition truthyCell (row : list jsstring) (colIndex : nat) : option jsstring :=
  match nth_error row colIndex with
  | Some (c :: t) => Some (c :: t)
  | _ => None
  end.

(** One turn of the inner [rows.forEach] of [inferSchema]; the state is
    [(inferredType, maxLength)]. *)
Definition scanCell (colIndex : nat) (acc : DataType * nat) (row : list jsstring)
  : DataType * nat :=
  match truthyCell row colIndex with
  | Some cell =>
      let value := cleanValue cell in
      (mergeDataTypes (fst acc) (inferDataType value),
       Nat.max (snd acc) (length value))
  | None => acc
  end.

Definition scanColumn (colIndex : nat) (rows : list (list jsstring)) : DataType * nat :=
  fold_left (scanCell colIndex) rows (VARCHAR, 0).

Definition inferColumn (rows : list (list jsstring)) (colIndex : nat) (header : jsstring)
  : ColumnSchema :=
  let '(inferredType, maxLen) := scanColumn colIndex rows in
  {| name := sanitizeColumnName header;
     type := inferredType;
     maxLength := if DataType_eqb inferredType VARCHAR
                  then Some (Nat.max 255 maxLen) else None |}.

(** [headers.forEach((header, colIndex) => ...)] *)
Fixpoint forEachIndexed {A B : Type} (f : nat -> A -> B) (i : nat) (l : list A) : list B :=
  match l with
  | [] => []
  | x :: t => f i x :: forEachIndexed f (S i) t
  end.

Definition inferSchema (headers : list jsstring) (rows : list (list jsstring))
  : TableSchema :=
  {| columns := forEachIndexed (inferColumn rows) 0 headers |}.

(** [cells.every((cell, idx) =>
      cleanValue(cell).toLowerCase() === headers[idx]?.toLowerCase())] *)
Definition isHeaderRow (headers cells : list jsstring) : bool :=
  forallb (fun b => b)
    (forEachIndexed
       (fun idx cell =>
          match nth_error headers idx with
          | Some h => eqs (toLowerCase (cleanValue cell)) (toLowerCase h)
          | None => false
          end) 0 cells).

(** The test that keeps a [tr] of the table as a data row. *)
Definition keepRow (headers cells : list jsstring) : bool :=
  (0 <? length cells)
  && existsb (fun cell => negb (eqs (trim cell) [])) cells
  && negb (isHeaderRow headers cells).

(** [rowCells[idx] || ""] *)
Definition cellOrEmpty (rowCells : list jsstring) (idx : nat) : jsstring :=
  match truthyCell rowCells idx with
  | Some c => c
  | None => []
  end.

Definition convertRow (s : TableSchema) (rowCells : list jsstring) : TableRow :=
  fold_left
    (fun row '(idx, column) =>
       setProp row column.(name) (convertValue (cellOrEmpty rowCells idx) column.(type)))
    (forEachIndexed (fun idx column => (idx, column)) 0 s.(columns))
    (object []).

(** [parseTable], from the point where the header texts and the cell texts
    of every [tr] have been read off the document. *)
Definition parseTable (headers : list jsstring) (trs : list (list jsstring))
  : ParsedTable :=
  let rawRows := filter (keepRow headers) trs in
  let s := inferSchema headers rawRows in
  {| schema := s; rows := map (convertRow s) rawRows |}.

(** ** services/database.service.ts *)

(** The statement handed to [connection.execute]: the column list, the
    flattened [values] array and the placeholder groups (one per row, each
    with one [?] per column). *)
Record InsertStatement : Type := {
  columnNames : list jsstring;
  values : list Member;
  valuePlaceholders : list nat
}.

(** [m !== undefined] *)
Definition isDefined (m : Member) : bool :=
  match m with
  | Value VUndefined => false
  | _ => true
  end.

(** [row[col] === undefined ? null : row[col]] *)
Definition valueOrNull (row : TableRow) (col : jsstring) : Member :=
  match getProp row col with
  | Value VUndefined => Value VNull
  | m => m
  end.

(** [insertBatch] on an initialised service with an open connection;
    [None]: the call returns without executing a statement. *)
Definition insertBatch (rows : list TableRow) : option InsertStatement :=
  match rows with
  | [] => None
  | row0 :: _ =>
      let cols := filter (fun key => isDefined (getProp row0 key)) (keys row0) in
      Some {| columnNames := cols;
              values := flat_map (fun row => map (valueOrNull row) cols) rows;
              valuePlaceholders := map (fun _ => length cols) rows |}
  end.

(** ** services/http.service.ts *)

(** An [AxiosError]: the status of the response, if one came back, and the
    message. *)
Record AxiosError : Type := {
  response : option nat;
  message : jsstring
}.

Inductive Attempt : Type :=
| Responds (data : jsstring)
| Fails (error : AxiosError).

Definition isRetriableError (error : AxiosError) : bool :=
  match error.(response) with
  | None => true
  | Some status => (500 <=? status) || (status =? 429)
  end.

(** What [fetchHtml] does, in order. *)
Inductive FetchEvent : Type :=
| Get (attempt : nat)
| Sleep (ms : nat).

Inductive FetchResult : Type :=
| Fetched (data : jsstring)
  (** [throw error]: the error of the attempt itself *)
| Rethrown (error : AxiosError)
  (** [throw new Error("Failed to fetch URL after n attempts: " + lastError?.message)] *)
| GaveUp (attempts : nat) (lastMessage : option jsstring).

(** The [for] loop of [fetchHtml] from the given attempt on; [remaining]
    bounds the turns still possible ([maxRetries + 1 - attempt]), the exit
    test [attempt <= maxRetries] is the one of the source. *)
Fixpoint fetchFrom (maxRetries retryDelay : nat) (server : nat -> Attempt)
    (remaining attempt : nat) (lastError : option AxiosError)
  : FetchResult * list FetchEvent :=
  match remaining with
  | O => (GaveUp maxRetries (option_map message lastError), [])
  | S remaining' =>
      if attempt <=? maxRetries then
        match server attempt with
        | Responds data => (Fetched data, [Get attempt])
        | Fails error =>
            if attempt =? maxRetries
            then (GaveUp maxRetries (Some error.(message)), [Get attempt])
            else if negb (isRetriableError error)
            then (Rethrown error, [Get attempt])
            else
              let delay := retryDelay * attempt in
              let '(res, evs) :=
                fetchFrom maxRetries retryDelay server remaining' (S attempt) (Some error) in
              (res, Get attempt :: Sleep delay :: evs)
        end
      else (GaveUp maxRetries (option_map message lastError), [])
  end.

(** [fetchHtml] on an initialised service; [server attempt] is what the
    request of that attempt meets. *)
Definition fetchHtml (maxRetries retryDelay : nat) (server : nat -> Attempt)
  : FetchResult * list FetchEvent :=
  fetchFrom maxRetries retryDelay server maxRetries 1 None.

(** ** Notions used in the statements about the parser, the sink and the fetch *)

(** The strings a regular expression denotes. *)
Inductive Lang : regex -> jsstring -> Prop :=
| Lang_Eps : Lang Eps []
| Lang_Class : forall p c, p c = true -> Lang (Class p) [c]
| Lang_Seq : forall a b s1 s2, Lang a s1 -> Lang b s2 -> Lang (Seq a b) (s1 ++ s2)
| Lang_AltL : forall a b s, Lang a s -> Lang (Alt a b) s
| Lang_AltR : forall a b s, Lang b s -> Lang (Alt a b) s
| Lang_StarNil : forall a, Lang (Star a) []
| Lang_StarCons : forall a c s1 s2,
    Lang a (c :: s1) -> Lang (Star a) s2 -> Lang (Star a) (c :: s1 ++ s2).

Create HintDb regex.
#[local] Hint Constructors Lang : regex.

(** The number a string of decimal digits denotes. *)
Definition decimalValue (ds : jsstring) : Z :=
  fold_left (fun acc c => (acc * 10 + Z.of_nat (code c - 48))%Z) ds 0%Z.

(** Case analysis on the 256 code units. *)
Ltac each_char c :=
  destruct c as [[] [] [] [] [] [] [] []].

(** A sign and digits: what [/^-?\d+$/] accepts. *)
Definition signedDigits (negative : bool) (d : ascii) (ds : jsstring) : jsstring :=
  (if negative then ["-"%char] else []) ++ d :: ds.

(** The number it denotes. *)
Definition signedValue (negative : bool) (d : ascii) (ds : jsstring) : Z :=
  if negative then (- decimalValue (d :: ds))%Z else decimalValue (d :: ds).

(** Some character of [s] is not white space. *)
Definition hasInk (s : jsstring) : bool :=
  existsb (fun c => negb (isWhiteSpace c)) s.

(** Replace every internal white-space run -- one with a character that is
    not white space before it and after it -- by one underscore; leading
    and trailing white space stays as it is.  [seenInk]: such a character
    came before; [inRun]: the previous character was white space. *)
Fixpoint underscoreInternalRuns (seenInk inRun : bool) (s : jsstring) : jsstring :=
  match s with
  | [] => []
  | c :: t =>
      if isWhiteSpace c
      then if seenInk && hasInk t
           then (if inRun then underscoreInternalRuns seenInk true t
                 else "_"%char :: underscoreInternalRuns seenInk true t)
           else c :: underscoreInternalRuns seenInk true t
      else c :: underscoreInternalRuns true false t
  end.

(** [col_] in front of a leading digit. *)
Definition prefixLeadingDigit (s : jsstring) : jsstring :=
  match s with
  | d :: _ => if isDigit d then str "col_" ++ s else s
  | [] => []
  end.

(** The sanitiser in the words of the specification: lower-case, internal
    white-space runs to one underscore, characters outside [a-z0-9_]
    removed, a leading digit prefixed with [col_], cut to 64 characters. *)
Definition sanitized_by_spec (header : jsstring) : jsstring :=
  firstn 64
    (prefixLeadingDigit
       (filter isIdentChar
          (underscoreInternalRuns false false (toLowerCase header)))).

(** [trimEnd] without reversing. *)
Fixpoint stripEnd (s : jsstring) : jsstring :=
  match s with
  | [] => []
  | c :: t => if isWhiteSpace c && negb (hasInk t) then [] else c :: stripEnd t
  end.

Definition startsWithDigit (s : jsstring) : bool :=
  match s with
  | d :: _ => isDigit d
  | [] => false
  end.

(** Attempts [from], [from + 1], ... ([count] of them), each followed by its
    pause of [retryDelay * attempt]. *)
Definition retried (retryDelay from count : nat) : list FetchEvent :=
  flat_map (fun attempt => [Get attempt; Sleep (retryDelay * attempt)]) (seq from count).

(** A 4xx response other than 429. *)
Definition isClientError (error : AxiosError) : bool :=
  match error.(response) with
  | Some status => (400 <=? status) && (status <=? 499) && negb (status =? 429)
  | None => false
  end.

(** The failures the retry policy names: a network error or a timeout, where
    no response came back, and a response with a status from 500 to 599 or
    with status 429. *)
Definition isTransient (error : AxiosError) : bool :=
  match error.(response) with
  | None => true
  | Some status => ((500 <=? status) && (status <=? 599)) || (status =? 429)
  end.

(** The attempt ends in such a failure. *)
Definition failsTransiently (server : nat -> Attempt) (attempt : nat) : Prop :=
  exists error, server attempt = Fails error /\ isTransient error = true.

(** The attempt fails, and [isRetriableError] lets the failure be retried. *)
Definition failsRetriably (server : nat -> Attempt) (attempt : nat) : Prop :=
  exists error, server attempt = Fails error /\ isRetriableError error = true.

(** The number of requests made. *)
Fixpoint countGets (evs : list FetchEvent) : nat :=
  match evs with
  | [] => 0
  | Get _ :: t => S (countGets t)
  | Sleep _ :: t => countGets t
  end.

(** A server that answers 503 twice and 404 at the third attempt. *)
Definition ex_server (attempt : nat) : Attempt :=
  if attempt <? 3
  then Fails {| response := Some 503; message := str "Service Unavailable" |}
  else Fails {| response := Some 404; message := str "Not Found" |}.

(** ** Template literals *)

(** [`${n}`] for a non-negative integer [n]: its decimal digits. *)
Definition decimal (n : nat) : jsstring :=
  str (DecimalString.NilEmpty.string_of_uint (Nat.to_uint n)).

(** ** services/base/base.service.ts, messaging/base/base.kafka.ts

    [BaseService] with [initialize], [destroy], [ensureInitialized] and the
    hooks [onInitialize], [onDestroy]; [BaseKafka] is the same code with
    [connect], [disconnect], [ensureConnected], [onConnect], [onDisconnect]
    and the flag [isConnected]. *)

(** What a call that can throw ends in. *)
Inductive Result (A : Type) : Type :=
| Returns (a : A)
| Throws (errorMessage : jsstring).

Arguments Returns {A} a.
Arguments Throws {A} errorMessage.

(** [ensureInitialized] *)
Definition ensureInitialized (serviceName : jsstring) (isInitialized : bool) : Result unit :=
  if isInitialized then Returns tt
  else Throws (serviceName ++ str " is not initialized. Call initialize() first.").

Module BaseService.

Inductive Hook : Type := OnInitialize | OnDestroy.

(** How the hook of the subclass ends when it is called. *)
Inductive HookOutcome : Type :=
| Resolves
| Rejects (errorMessage : jsstring).

(** The flag [isInitialized] and the hook calls made so far, each with how
    it ended. *)
Record Service : Type := {
  isInitialized : bool;
  hookCalls : list (Hook * HookOutcome)
}.

Definition created : Service := {| isInitialized := false; hookCalls := [] |}.

(** [initialize()], awaited; [onInitialize] tells how the hook ends if it
    is called. *)
Definition initialize (onInitialize : HookOutcome) (s : Service) : Service * Result unit :=
  if s.(isInitialized) then (s, Returns tt)
  else match onInitialize with
       | Resolves =>
           ({| isInitialized := true;
               hookCalls := s.(hookCalls) ++ [(OnInitialize, Resolves)] |},
            Returns tt)
       | Rejects e =>
           ({| isInitialized := false;
               hookCalls := s.(hookCalls) ++ [(OnInitialize, Rejects e)] |},
            Throws e)
       end.

(** [destroy()], awaited. *)
Definition destroy (onDestroy : HookOutcome) (s : Service) : Service * Result unit :=
  if negb s.(isInitialized) then (s, Returns tt)
  else match onDestroy with
       | Resolves =>
           ({| isInitialized := false;
               hookCalls := s.(hookCalls) ++ [(OnDestroy, Resolves)] |},
            Returns tt)
       | Rejects e =>
           ({| isInitialized := true;
               hookCalls := s.(hookCalls) ++ [(OnDestroy, Rejects e)] |},
            Throws e)
       end.

Inductive Call : Type :=
| Initialize (onInitialize : HookOutcome)
| Destroy (onDestroy : HookOutcome).

Definition call (c : Call) (s : Service) : Service * Result unit :=
  match c with
  | Initialize h => initialize h s
  | Destroy h => destroy h s
  end.

(** Calls made one after the other, each awaited, a thrown error caught by
    the caller. *)
Definition calls (cs : list Call) (s : Service) : Service :=
  fold_left (fun s c => fst (call c s)) cs s.

(** The hooks that resolved, in the order of their calls. *)
Definition resolved (s : Service) : list Hook :=
  map fst (filter (fun hc => match snd hc with Resolves => true | Rejects _ => false end)
                  s.(hookCalls)).

(** [OnInitialize], [OnDestroy], [OnInitialize], ...: [next] comes first. *)
Fixpoint alternates (next : Hook) (hs : list Hook) : Prop :=
  match hs with
  | [] => True
  | h :: t =>
      h = next /\
      alternates (match next with
                  | OnInitialize => OnDestroy
                  | OnDestroy => OnInitialize
                  end) t
  end.

End BaseService.

(** ** services/parser.service.ts: the document

    A [table] element, as [parseTable] reads it through cheerio: for every
    [tr] below it, in document order, the texts of the [td] and [th] cells
    below that [tr]. *)
Definition TableElement := list (list jsstring).

(** The texts pushed onto [headers] from the first [tr]. *)
Definition headerTexts (tableElement : TableElement) : list jsstring :=
  filter (fun headerText => negb (eqs headerText []))
         (map trim (hd [] tableElement)).

(** [column_1], [column_2], ... *)
Definition defaultHeaders (cellCount : nat) : list jsstring :=
  map (fun i => str "column_" ++ decimal (i + 1)) (seq 0 cellCount).

(** [headers] of [parseTable], after the defaults are generated. *)
Definition tableHeaders (tableElement : TableElement) : list jsstring :=
  let headers := headerTexts tableElement in
  if length headers =? 0
  then defaultHeaders (length (hd [] tableElement))
  else headers.

(** [parseTable($, tableElement)] *)
Definition parseTableElement (tableElement : TableElement) : ParsedTable :=
  parseTable (tableHeaders tableElement) tableElement.

(** [parseHtml], given the [table] elements of the loaded document.  No
    step of [parseTable] throws, the [catch] around it stays unused. *)
Definition parseHtml (isInitialized : bool) (tables : list TableElement)
  : Result (list ParsedTable) :=
  match ensureInitialized (str "ParserService") isInitialized with
  | Throws e => Throws e
  | Returns _ =>
      Returns (filter (fun parsedTable => 0 <? length parsedTable.(rows))
                      (map parseTableElement tables))
  end.

(** [parseFirstTable]; [None] is [null]. *)
Definition parseFirstTable (isInitialized : bool) (tables : list TableElement)
  : Result (option ParsedTable) :=
  match parseHtml isInitialized tables with
  | Throws e => Throws e
  | Returns parsed =>
      Returns (match parsed with
               | first :: _ => Some first
               | [] => None
               end)
  end.

(** The table has no [tr] that [parseTable] keeps as a data row. *)
Definition noDataRows (tableElement : TableElement) : Prop :=
  filter (keepRow (tableHeaders tableElement)) tableElement = [].

(** ** services/database.service.ts: the table *)

(** [maxLength || 255] *)
Definition lengthOrDefault (maxLength : option nat) : nat :=
  match maxLength with
  | Some (S n) => S n
  | _ => 255
  end.

Definition mapTypeToSQL (dataType : DataType) (maxLength : option nat) : jsstring :=
  match dataType with
  | INT => str "INT"
  | BIGINT => str "BIGINT"
  | FLOAT => str "FLOAT"
  | DATE => str "DATE"
  | TIMESTAMP => str "DATETIME"
  | BOOLEAN => str "BOOLEAN"
  | TEXT => str "TEXT"
  | VARCHAR => str "VARCHAR(" ++ decimal (lengthOrDefault maxLength) ++ str ")"
  end.

(** One element of [columns] in [createTable]: the quoted name and the SQL
    type. *)
Definition columnDefinition (col : ColumnSchema) : jsstring :=
  str "`" ++ col.(name) ++ str "` " ++ mapTypeToSQL col.(type) col.(maxLength).

(** What [createTable] hands to [connection.execute].  The statements act on
    the configured table; [CreateTable] lists the definitions between the
    [id] and the [created_at] column, which every table gets. *)
Inductive TableStatement : Type :=
| DropTableIfExists
| CreateTable (columnDefinitions : list jsstring).

(** [createTable]; [connected]: [this.connection] is not null. *)
Definition createTable (isInitialized connected : bool) (s : TableSchema)
  : Result (list TableStatement) :=
  match ensureInitialized (str "DatabaseService") isInitialized with
  | Throws e => Throws e
  | Returns _ =>
      if connected
      then Returns [DropTableIfExists; CreateTable (map columnDefinition s.(columns))]
      else Throws (str "Database connection not established")
  end.

(** ** Notions used in the statements about rows, cells and brackets *)

(** [cell] is a cell that the scan of column [colIndex] looks at. *)
Definition scannedCell (rs : list (list jsstring)) (colIndex : nat) (cell : jsstring) : Prop :=
  exists r, In r rs /\ truthyCell r colIndex = Some cell.

(** The value [convertValue] stores for a column that is VARCHAR or TEXT. *)
Definition textOrNull (cell : jsstring) : JsValue :=
  if isNullMarker (cleanValue cell) then VNull else VString (cleanValue cell).

(** A value that is null or a string. *)
Definition nullOrString (v : JsValue) : Prop := v = VNull \/ exists s, v = VString s.

(** The body of the [schema.columns.forEach] of [parseTable]. *)
Definition setColumn (cells : list jsstring) (row : TableRow) (ic : nat * ColumnSchema)
  : TableRow :=
  setProp row (name (snd ic)) (convertValue (cellOrEmpty cells (fst ic)) (type (snd ic))).

(** What the columns of a schema store for the cells of a table row, when
    every column is VARCHAR or TEXT: the name of each column with null or
    the cleaned text of its cell. *)
Definition cellEntries (s : TableSchema) (cells : list jsstring)
  : list (jsstring * JsValue) :=
  forEachIndexed (fun i c => (name c, textOrNull (cellOrEmpty cells i))) 0 (columns s).

(** [k === "__proto__"] *)
Definition isProto (k : jsstring) : bool := eqs k (str "__proto__").

(** [v === null] *)
Definition isNull (v : JsValue) : bool :=
  match v with
  | VNull => true
  | _ => false
  end.

(** The row object these make when no two columns share a name: an own
    property for every column but one named [__proto__]; such a column
    leaves the row without prototype when its cell is a null marker, and as
    it is otherwise. *)
Definition rowObject (s : TableSchema) (cells : list jsstring) : TableRow :=
  {| prototype :=
       if existsb (fun kv => isProto (fst kv) && isNull (snd kv)) (cellEntries s cells)
       then NullPrototype else ObjectPrototype;
     properties := filter (fun kv => negb (isProto (fst kv))) (cellEntries s cells) |}.

(** The object [JSON.parse] makes of the JSON text of a row whose values
    are null or strings: the own properties of the row, under
    [Object.prototype]. *)
Definition parsed (row : TableRow) : TableRow := object row.(properties).

(** Every column of the schema is VARCHAR or TEXT. *)
Definition wideSchema (s : TableSchema) : Prop :=
  Forall (fun c => type c = VARCHAR \/ type c = TEXT) (columns s).

(** The table of two columns, one data row and one empty row. *)
Definition ex_table : list (list jsstring) :=
  [[str "Name"; str "Age"]; [str "John"; str "30"]; [str ""; str ""]].

(** An opening bracket with a closing bracket somewhere after it. *)
Fixpoint hasBracketGroup (s : jsstring) : bool :=
  match s with
  | [] => false
  | c :: t => (eqc c "["%char && existsb (fun x => eqc x "]"%char) t) || hasBracketGroup t
  end.

(** ** Notions used in the statements about the outcome of a fetch *)

(** The time [fetchHtml] spends in [sleep]. *)
Fixpoint totalSleep (evs : list FetchEvent) : nat :=
  match evs with
  | [] => 0
  | Get _ :: t => totalSleep t
  | Sleep ms :: t => ms + totalSleep t
  end.

(** How the fetch ends at attempt [k], the first attempt that does not fail
    retriably before the last one. *)
Definition endsAt (maxRetries : nat) (server : nat -> Attempt) (k : nat)
    (result : FetchResult) : Prop :=
  match server k with
  | Responds data => result = Fetched data
  | Fails error =>
      if k =? maxRetries
      then result = GaveUp maxRetries (Some error.(message))
      else isRetriableError error = false /\ result = Rethrown error
  end.

(** A server that is down for the first [failures] attempts and answers
    after that. *)
Definition ex_recovering (failures : nat) (attempt : nat) : Attempt :=
  if attempt <=? failures
  then Fails {| response := None; message := str "ECONNREFUSED" |}
  else Responds (str "<table></table>").

(** ** messaging/kafka.consumer.ts, controllers/consumer.controller.ts

    The consumer process after [ConsumerController.start()]: the handler of
    [setupBatchProcessing] is installed and both [setInterval] timers run.
    An [async] function runs until its next [await]; what is suspended there
    is a [Task], and the event loop picks which task continues.  Every
    [await] of [flushBuffer] and of the handler is such a point, also the
    [await] of a handler call that returned without input or output (where
    JavaScript lets only other continuations run, not timers): the runs of
    the model include all runs of the program.  Storage and broker calls are
    assumed to succeed; the calls of [createTable] and [insertBatch] are
    recorded with their arguments at the moment they are made.  The array
    behind [this.messageBuffer] is an object: a flush iterates the object it
    started on, sees what is pushed onto it meanwhile, and
    [this.messageBuffer = []] makes a new one. *)

Module Consumer.

Record KafkaMessage : Type := {
  schema : option TableSchema;    (* [None]: the parsed JSON has no schema *)
  row : TableRow;
  timestamp : Z;
  sourceUrl : jsstring
}.

Record World : Type := {
  (* KafkaConsumerService *)
  heap : list (list TableRow);    (* the array objects allocated so far *)
  messageBuffer : nat;            (* the array [this.messageBuffer] refers to *)
  currentSchema : option TableSchema;
  messageHandler : bool;          (* [true]: the batch handler is set *)
  batchSize : nat;
  isConnected : bool;
  (* ConsumerController and the closure of setupBatchProcessing *)
  tableInitialized : bool;
  ctl_messageBuffer : list TableRow;
  batchCount : nat;
  (* DatabaseService, as seen from its callers *)
  createTableCalls : list TableSchema;
  insertBatchCalls : list (list TableRow);
  (* process.exit(0) was reached *)
  exited : bool
}.

Definition set_heap (x : list (list TableRow)) (w : World) : World :=
  {| heap := x; messageBuffer := w.(messageBuffer);
     currentSchema := w.(currentSchema); messageHandler := w.(messageHandler);
     batchSize := w.(batchSize); isConnected := w.(isConnected);
     tableInitialized := w.(tableInitialized);
     ctl_messageBuffer := w.(ctl_messageBuffer); batchCount := w.(batchCount);
     createTableCalls := w.(createTableCalls);
     insertBatchCalls := w.(insertBatchCalls); exited := w.(exited) |}.

Definition set_messageBuffer (x : nat) (w : World) : World :=
  {| heap := w.(heap); messageBuffer := x;
     currentSchema := w.(currentSchema); messageHandler := w.(messageHandler);
     batchSize := w.(batchSize); isConnected := w.(isConnected);
     tableInitialized := w.(tableInitialized);
     ctl_messageBuffer := w.(ctl_messageBuffer); batchCount := w.(batchCount);
     createTableCalls := w.(createTableCalls);
     insertBatchCalls := w.(insertBatchCalls); exited := w.(exited) |}.

Definition set_currentSchema (x : option TableSchema) (w : World) : World :=
  {| heap := w.(heap); messageBuffer := w.(messageBuffer);
     currentSchema := x; messageHandler := w.(messageHandler);
     batchSize := w.(batchSize); isConnected := w.(isConnected);
     tableInitialized := w.(tableInitialized);
     ctl_messageBuffer := w.(ctl_messageBuffer); batchCount := w.(batchCount);
     createTableCalls := w.(createTableCalls);
     insertBatchCalls := w.(insertBatchCalls); exited := w.(exited) |}.

Definition set_isConnected (x : bool) (w : World) : World :=
  {| heap := w.(heap); messageBuffer := w.(messageBuffer);
     currentSchema := w.(currentSchema); messageHandler := w.(messageHandler);
     batchSize := w.(batchSize); isConnected := x;
     tableInitialized := w.(tableInitialized);
     ctl_messageBuffer := w.(ctl_messageBuffer); batchCount := w.(batchCount);
     createTableCalls := w.(createTableCalls);
     insertBatchCalls := w.(insertBatchCalls); exited := w.(exited) |}.

Definition set_tableInitialized (x : bool) (w : World) : World :=
  {| heap := w.(heap); messageBuffer := w.(messageBuffer);
     currentSchema := w.(currentSchema); messageHandler := w.(messageHandler);
     batchSize := w.(batchSize); isConnected := w.(isConnected);
     tableInitialized := x;
     ctl_messageBuffer := w.(ctl_messageBuffer); batchCount := w.(batchCount);
     createTableCalls := w.(createTableCalls);
     insertBatchCalls := w.(insertBatchCalls); exited := w.(exited) |}.

Definition set_ctl_messageBuffer (x : list TableRow) (w : World) : World :=
  {| heap := w.(heap); messageBuffer := w.(messageBuffer);
     currentSchema := w.(currentSchema); messageHandler := w.(messageHandler);
     batchSize := w.(batchSize); isConnected := w.(isConnected);
     tableInitialized := w.(tableInitialized);
     ctl_messageBuffer := x; batchCount := w.(batchCount);
     createTableCalls := w.(createTableCalls);
     insertBatchCalls := w.(insertBatchCalls); exited := w.(exited) |}.

Definition set_batchCount (x : nat) (w : World) : World :=
  {| heap := w.(heap); messageBuffer := w.(messageBuffer);
     currentSchema := w.(currentSchema); messageHandler := w.(messageHandler);
     batchSize := w.(batchSize); isConnected := w.(isConnected);
     tableInitialized := w.(tableInitialized);
     ctl_messageBuffer := w.(ctl_messageBuffer); batchCount := x;
     createTableCalls := w.(createTableCalls);
     insertBatchCalls := w.(insertBatchCalls); exited := w.(exited) |}.

Definition set_createTableCalls (x : list TableSchema) (w : World) : World :=
  {| heap := w.(heap); messageBuffer := w.(messageBuffer);
     currentSchema := w.(currentSchema); messageHandler := w.(messageHandler);
     batchSize := w.(batchSize); isConnected := w.(isConnected);
     tableInitialized := w.(tableInitialized);
     ctl_messageBuffer := w.(ctl_messageBuffer); batchCount := w.(batchCount);
     createTableCalls := x;
     insertBatchCalls := w.(insertBatchCalls); exited := w.(exited) |}.

Definition set_insertBatchCalls (x : list (list TableRow)) (w : World) : World :=
  {| heap := w.(heap); messageBuffer := w.(messageBuffer);
     currentSchema := w.(currentSchema); messageHandler := w.(messageHandler);
     batchSize := w.(batchSize); isConnected := w.(isConnected);
     tableInitialized := w.(tableInitialized);
     ctl_messageBuffer := w.(ctl_messageBuffer); batchCount := w.(batchCount);
     createTableCalls := w.(createTableCalls);
     insertBatchCalls := x; exited := w.(exited) |}.

Definition set_exited (x : bool) (w : World) : World :=
  {| heap := w.(heap); messageBuffer := w.(messageBuffer);
     currentSchema := w.(currentSchema); messageHandler := w.(messageHandler);
     batchSize := w.(batchSize); isConnected := w.(isConnected);
     tableInitialized := w.(tableInitialized);
     ctl_messageBuffer := w.(ctl_messageBuffer); batchCount := w.(batchCount);
     createTableCalls := w.(createTableCalls);
     insertBatchCalls := w.(insertBatchCalls); exited := x |}.

(** The state [start()] leaves behind. *)
Definition init (configuredBatchSize : nat) : World :=
  {| heap := [[]]; messageBuffer := 0;
     currentSchema := None; messageHandler := true;
     batchSize := configuredBatchSize; isConnected := true;
     tableInitialized := false;
     ctl_messageBuffer := []; batchCount := 0;
     createTableCalls := []; insertBatchCalls := []; exited := false |}.

(** *** The array objects *)

Definition arrayAt (w : World) (ref : nat) : list TableRow := nth ref w.(heap) [].

(** The contents of [this.messageBuffer]. *)
Definition buffered (w : World) : list TableRow := arrayAt w w.(messageBuffer).

Fixpoint pushAt (ref : nat) (r : TableRow) (h : list (list TableRow))
  : list (list TableRow) :=
  match h, ref with
  | [], _ => []
  | a :: h', O => (a ++ [r]) :: h'
  | a :: h', S k => a :: pushAt k r h'
  end.

(** [this.messageBuffer.push(r)] *)
Definition push (r : TableRow) (w : World) : World :=
  set_heap (pushAt w.(messageBuffer) r w.(heap)) w.

(** [this.messageBuffer = []] *)
Definition freshBuffer (w : World) : World :=
  set_messageBuffer (length w.(heap)) (set_heap (w.(heap) ++ [[]]) w).

(** *** Suspended [async] functions *)

(** Who called [flushBuffer]. *)
Inductive Caller : Type :=
| FromHandleMessage      (* kafka.consumer.ts, handleMessage *)
| FromTimer              (* kafka.consumer.ts, the setInterval of startConsuming *)
| FromDisconnect.        (* kafka.consumer.ts, onDisconnect *)

(** Where the handler called by [flushBuffer] stands. *)
Inductive HandlerPoint : Type :=
| AwaitCreateTable (r : TableRow)   (* [await this.databaseService.createTable(schema)] *)
| AwaitInsertBatch                  (* [await this.databaseService.insertBatch(...)] *)
| Settled.                          (* returned; [await this.messageHandler(...)] resumes next *)

Inductive Task : Type :=
  (** [flushBuffer], iterating the array object [buffer], at element [index] *)
| Flushing (caller : Caller) (buffer index : nat) (point : HandlerPoint)
  (** the timer of setupBatchProcessing, at [await insertBatch] *)
| TimerInsert
  (** [onDisconnect] at [await this.consumer.disconnect()] *)
| AwaitConsumerDisconnect
  (** [DatabaseService.onDestroy] at [await this.connection.end()] *)
| AwaitConnectionEnd.

Definition logCreateTable (s : TableSchema) (w : World) : World :=
  set_createTableCalls (w.(createTableCalls) ++ [s]) w.

Definition logInsertBatch (rs : list TableRow) (w : World) : World :=
  set_insertBatchCalls (w.(insertBatchCalls) ++ [rs]) w.

(** *** consumer.controller.ts, the handler of setupBatchProcessing *)

(** From [messageBuffer.push(row)] to the end of the handler. *)
Definition handlerBody (r : TableRow) (w : World) : World * HandlerPoint :=
  let w1 := set_ctl_messageBuffer (w.(ctl_messageBuffer) ++ [r]) w in
  let w2 := set_batchCount (S w1.(batchCount)) w1 in
  if 100 <=? length w2.(ctl_messageBuffer)
  then (logInsertBatch w2.(ctl_messageBuffer) w2, AwaitInsertBatch)
  else (w2, Settled).

Definition callHandler (s : option TableSchema) (r : TableRow) (w : World)
  : World * HandlerPoint :=
  match w.(tableInitialized), s with
  | false, Some sch => (logCreateTable sch w, AwaitCreateTable r)
  | _, _ => handlerBody r w
  end.

(** The timer of setupBatchProcessing. *)
Definition controllerTimer (w : World) : World * option Task :=
  if 0 <? length w.(ctl_messageBuffer)
  then (logInsertBatch w.(ctl_messageBuffer) w, Some TimerInsert)
  else (w, None).

(** *** kafka.consumer.ts *)

(** What follows the return of [flushBuffer] in its caller. *)
Definition afterFlush (c : Caller) (w : World) : World * option Task :=
  match c with
  | FromHandleMessage => (w, None)
  | FromTimer => (w, None)
  | FromDisconnect => (w, Some AwaitConsumerDisconnect)
  end.

(** The [for (const row of this.messageBuffer)] loop on the array object
    [buffer], about to fetch element [index]. *)
Definition iterate (c : Caller) (buffer index : nat) (w : World)
  : World * option Task :=
  match nth_error (arrayAt w buffer) index with
  | Some r =>
      let '(w', p) := callHandler w.(currentSchema) r w in
      (w', Some (Flushing c buffer index p))
  | None => afterFlush c (freshBuffer w)
  end.

Definition isSome {A : Type} (o : option A) : bool :=
  match o with
  | Some _ => true
  | None => false
  end.

Definition flushBuffer (c : Caller) (w : World) : World * option Task :=
  if (length (buffered w) =? 0) || negb w.(messageHandler) || negb (isSome w.(currentSchema))
  then afterFlush c w
  else iterate c w.(messageBuffer) 0 w.

Definition handleMessage (m : KafkaMessage) (w : World) : World * option Task :=
  let w1 := if negb (isSome w.(currentSchema)) && isSome m.(schema)
            then set_currentSchema m.(schema) w else w in
  let w2 := push m.(row) w1 in
  if (w2.(batchSize) <=? length (buffered w2)) && w2.(messageHandler)
  then flushBuffer FromHandleMessage w2
  else (w2, None).

(** The timer of startConsuming. *)
Definition kafkaTimer (w : World) : World * option Task :=
  if (0 <? length (buffered w)) && w.(messageHandler)
  then flushBuffer FromTimer w
  else (w, None).

(** [ConsumerController.destroy()] up to its first suspension:
    [BaseKafka.disconnect], [onDisconnect], then [DatabaseService.destroy]. *)
Definition destroy (w : World) : World * option Task :=
  if w.(isConnected)
  then if (0 <? length (buffered w)) && w.(messageHandler) && isSome w.(currentSchema)
       then flushBuffer FromDisconnect w
       else (w, Some AwaitConsumerDisconnect)
  else (w, Some AwaitConnectionEnd).

(** A suspended task continues until its next [await]. *)
Definition resume (t : Task) (w : World) : World * option Task :=
  match t with
  | Flushing c b i (AwaitCreateTable r) =>
      let '(w', p) := handlerBody r (set_tableInitialized true w) in
      (w', Some (Flushing c b i p))
  | Flushing c b i AwaitInsertBatch =>
      (set_ctl_messageBuffer [] w, Some (Flushing c b i Settled))
  | Flushing c b i Settled => iterate c b (S i) w
  | TimerInsert => (set_ctl_messageBuffer [] w, None)
  | AwaitConsumerDisconnect => (set_isConnected false w, Some AwaitConnectionEnd)
  | AwaitConnectionEnd => (set_exited true w, None)
  end.

(** *** The event loop *)

Inductive Event : Type :=
| Deliver (m : KafkaMessage)   (* kafkajs calls eachMessage *)
| KafkaTimer                   (* the timer of startConsuming fires *)
| ControllerTimer              (* the timer of setupBatchProcessing fires *)
| Resume (n : nat)             (* the n-th suspended task continues *)
| Shutdown.                    (* SIGINT or SIGTERM: controller.destroy() *)

Definition Config : Type := World * list Task.

Definition toList {A : Type} (o : option A) : list A :=
  match o with
  | Some x => [x]
  | None => []
  end.

(** kafkajs awaits [eachMessage] before it delivers the next message. *)
Definition handlingMessage (t : Task) : bool :=
  match t with
  | Flushing FromHandleMessage _ _ _ => true
  | _ => false
  end.

Definition spawn (ts : list Task) (r : World * option Task) : option Config :=
  Some (fst r, ts ++ toList (snd r)).

Definition step (e : Event) (cfg : Config) : option Config :=
  let '(w, ts) := cfg in
  if w.(exited) then None
  else match e with
       | Deliver m =>
           if w.(isConnected) && negb (existsb handlingMessage ts)
           then spawn ts (handleMessage m w)
           else None
       | KafkaTimer => spawn ts (kafkaTimer w)
       | ControllerTimer => spawn ts (controllerTimer w)
       | Shutdown => spawn ts (destroy w)
       | Resume n =>
           match nth_error ts n with
           | Some t =>
               let '(w', t') := resume t w in
               Some (w', firstn n ts ++ toList t' ++ skipn (S n) ts)
           | None => None
           end
       end.

(** A run of the event loop; [None] when an event cannot happen. *)
Fixpoint run (es : list Event) (cfg : Config) : option Config :=
  match es with
  | [] => Some cfg
  | e :: es' =>
      match step e cfg with
      | Some cfg' => run es' cfg'
      | None => None
      end
  end.

(** The configurations the consumer can be in. *)
Inductive reachable (configuredBatchSize : nat) : Config -> Prop :=
| reachable_init : reachable configuredBatchSize (init configuredBatchSize, [])
| reachable_step : forall cfg e cfg',
    reachable configuredBatchSize cfg ->
    step e cfg = Some cfg' ->
    reachable configuredBatchSize cfg'.

(** The only suspended task runs to its end, nothing else happening in
    between. *)
Inductive settles : Config -> World -> Prop :=
| settles_done : forall w, settles (w, []) w
| settles_resume : forall w t cfg' w',
    step (Resume 0) (w, [t]) = Some cfg' ->
    settles cfg' w' ->
    settles (w, [t]) w'.

(** *** Notions used in the statements about the consumer *)

(** No [insertBatch] call so far was given zero rows. *)
Definition nonEmptyBatches (w : World) : Prop :=
  Forall (fun rs : list TableRow => rs <> []) w.(insertBatchCalls).

(** The schema of the first delivered message that carries one. *)
Fixpoint sessionSchema (es : list Event) : option TableSchema :=
  match es with
  | [] => None
  | Deliver m :: es' =>
      match m.(schema) with
      | Some s => Some s
      | None => sessionSchema es'
      end
  | _ :: es' => sessionSchema es'
  end.

Definition isDeliver (e : Event) : bool :=
  match e with
  | Deliver _ => true
  | _ => false
  end.

(** The message [m] with another schema in it. *)
Definition withSchema (s : option TableSchema) (m : KafkaMessage) : KafkaMessage :=
  {| schema := s; row := m.(row); timestamp := m.(timestamp);
     sourceUrl := m.(sourceUrl) |}.

(** [this.messageBuffer] refers to an allocated array. *)
Definition wellFormed (w : World) : Prop := w.(messageBuffer) < length w.(heap).

(** Every table was created from the schema that is current. *)
Definition createdFromCurrent (w : World) : Prop :=
  Forall (fun s => w.(currentSchema) = Some s) w.(createTableCalls).

(** An event other than the continuation of a task. *)
Definition isTrigger (e : Event) : bool :=
  match e with
  | Resume _ => false
  | _ => true
  end.

(** The row an event brings in. *)
Definition deliveredBy (e : Event) : list TableRow :=
  match e with
  | Deliver m => [m.(row)]
  | _ => []
  end.

(** Runs in which every trigger finds nothing suspended and what it starts
    runs to its end before the next trigger; the index lists the rows
    delivered so far. *)
Inductive quiet (bs : nat) : list TableRow -> World -> Prop :=
| quiet_init : quiet bs [] (init bs)
| quiet_next : forall ds w e cfg w',
    quiet bs ds w ->
    isTrigger e = true ->
    step e (w, []) = Some cfg ->
    settles cfg w' ->
    quiet bs (ds ++ deliveredBy e) w'.

(** Where the rows are: written, in the batch buffer of the controller, or
    in the message buffer of the consumer. *)
Definition accounted (w : World) : list TableRow :=
  concat w.(insertBatchCalls) ++ w.(ctl_messageBuffer) ++ buffered w.

(** What [accounted] will be when the task has run to its end. *)
Definition owed (w : World) (t : Task) : list TableRow :=
  match t with
  | Flushing _ b i (AwaitCreateTable r) =>
      concat w.(insertBatchCalls) ++ w.(ctl_messageBuffer) ++ [r]
        ++ skipn (S i) (arrayAt w b)
  | Flushing _ b i AwaitInsertBatch =>
      concat w.(insertBatchCalls) ++ skipn (S i) (arrayAt w b)
  | Flushing _ b i Settled =>
      concat w.(insertBatchCalls) ++ w.(ctl_messageBuffer)
        ++ skipn (S i) (arrayAt w b)
  | TimerInsert => concat w.(insertBatchCalls) ++ buffered w
  | AwaitConsumerDisconnect => accounted w
  | AwaitConnectionEnd => accounted w
  end.

(** The same for the result of a function that may suspend. *)
Definition owedAfter (r : World * option Task) : list TableRow :=
  match snd r with
  | Some t => owed (fst r) t
  | None => accounted (fst r)
  end.

(** A flush that runs alone iterates the current buffer. *)
Definition onCurrent (w : World) (t : Task) : Prop :=
  match t with
  | Flushing _ b _ _ => b = w.(messageBuffer)
  | _ => True
  end.

(** The same for the result of a function that may suspend. *)
Definition onCurrentAfter (r : World * option Task) : Prop :=
  wellFormed (fst r) /\
  match snd r with
  | Some t => onCurrent (fst r) t
  | None => True
  end.

(** A bound on the continuations a task still needs. *)
Definition size (w : World) (t : Task) : nat :=
  match t with
  | Flushing _ b i p =>
      3 + 3 * (S (length (arrayAt w b)) - i)
      + match p with
        | AwaitCreateTable _ => 2
        | AwaitInsertBatch => 1
        | Settled => 0
        end
  | TimerInsert => 0
  | AwaitConsumerDisconnect => 1
  | AwaitConnectionEnd => 0
  end.

(** What is suspended needs fewer continuations than [bound], and the
    process has not exited meanwhile. *)
Definition smallerAfter (bound : nat) (w : World) (r : World * option Task) : Prop :=
  match snd r with
  | Some t => size (fst r) t < bound /\ (fst r).(exited) = w.(exited)
  | None => True
  end.


(** The process is on its way out. *)
Definition exiting (cfg : Config) : Prop :=
  match snd cfg with
  | [] => (fst cfg).(exited) = true
  | [Flushing FromDisconnect _ _ _] => (fst cfg).(exited) = false
  | [AwaitConsumerDisconnect] => (fst cfg).(exited) = false
  | [AwaitConnectionEnd] => (fst cfg).(exited) = false
  | _ => False
  end.

(** The batches written since the log was [log] have 100 rows or more. *)
Definition fullBatchesSince (log : list (list TableRow)) (w : World) : Prop :=
  exists new,
    w.(insertBatchCalls) = log ++ new /\
    Forall (fun b : list TableRow => 100 <= length b) new.

(** Triggers, each with the number of continuations that follow it before
    the next one; [None] unless each trigger finds nothing suspended and
    leaves nothing suspended. *)
Fixpoint quietRun (l : list (Event * nat)) (w : World) : option World :=
  match l with
  | [] => Some w
  | (e, n) :: l' =>
      if isTrigger e
      then match run (e :: repeat (Resume 0) n) (w, []) with
           | Some (w', []) => quietRun l' w'
           | _ => None
           end
      else None
  end.

(** *** Concrete runs *)

Definition ex_schema : TableSchema :=
  {| columns := [ {| name := str "id"; type := VARCHAR; maxLength := Some 255 |} ] |}.


Definition ex_row (n : nat) : TableRow := object [(str "id", VInt (Z.of_nat n))].

Definition ex_message (n : nat) : KafkaMessage :=
  {| schema := Some ex_schema; row := ex_row n; timestamp := 0;
     sourceUrl := str "https://example.org/table" |}.

(** Messages 0, 1, ..., [count - 1], one after the other. *)
Definition ex_deliveries (count : nat) : list Event :=
  map (fun n => Deliver (ex_message n)) (seq 0 count).

Definition ex_rows (count : nat) : list TableRow := map ex_row (seq 0 count).

(** The configuration a run ends in. *)
Definition configAfter (bs : nat) (es : list Event) : Config :=
  match run es (init bs, []) with
  | Some cfg => cfg
  | None => (init bs, [])
  end.

(** One message with batch size 1: the size trigger flushes it. *)
Definition ex_single_flush : list Event :=
  [Deliver (ex_message 0); Resume 0; Resume 0].

(** ... and the timer of the controller writes it. *)
Definition ex_single_write : list Event :=
  ex_single_flush ++ [ControllerTimer; Resume 0].







(** 37 messages, then the shutdown and nothing else until the process
    exits. *)
Definition ex_shutdown : list Event :=
  ex_deliveries 37 ++ Shutdown :: repeat (Resume 0) 40.

(** The same with the 37 rows already handed to the controller by the
    timer's flush. *)
Definition ex_shutdown_after_flush : list Event :=
  ex_deliveries 37 ++ KafkaTimer :: repeat (Resume 0) 38
    ++ Shutdown :: repeat (Resume 0) 2.

(** *** Notions used in the statements about rows and sessions *)

(** The row a suspended task carries along. *)
Definition heldBy (t : Task) : list TableRow :=
  match t with
  | Flushing _ _ _ (AwaitCreateTable r) => [r]
  | _ => []
  end.

(** Every row there is in a configuration: in an array of the consumer, in
    the batch buffer of the controller, in a batch given to [insertBatch],
    or carried by a suspended task. *)
Definition rowsOf (cfg : Config) : list TableRow :=
  concat (fst cfg).(heap) ++ (fst cfg).(ctl_messageBuffer)
    ++ concat (fst cfg).(insertBatchCalls) ++ flat_map heldBy (snd cfg).

(** The rows the events of a run deliver, in order. *)
Definition delivered (es : list Event) : list TableRow := flat_map deliveredBy es.

(** A timer's flush that hands rows to the controller while the insert of
    the controller's timer is awaited: the messages [first] are flushed and
    given to [insertBatch] by the timer of the controller; before that
    insert completes, the messages [second] arrive and are flushed. *)
Definition lateRows (first second : list KafkaMessage) : list Event :=
  map Deliver first
    ++ KafkaTimer :: repeat (Resume 0) (S (length first))
    ++ ControllerTimer :: map Deliver second
    ++ KafkaTimer :: repeat (Resume 1) (length second)
    ++ [Resume 0].

(** A task of the shutdown that is past every flush. *)
Definition closing (t : Task) : Prop :=
  t = AwaitConsumerDisconnect \/ t = AwaitConnectionEnd.

(** What a suspended task takes for granted: a flush runs only with a
    schema, and a flush that awaits [createTable] has called it. *)
Definition grounded (w : World) (t : Task) : Prop :=
  match t with
  | Flushing _ _ _ p =>
      isSome w.(currentSchema) = true /\
      match p with
      | AwaitCreateTable _ => w.(createTableCalls) <> []
      | _ => w.(tableInitialized) = true
      end
  | _ => True
  end.

(** Rows are handed on and written only once the table is initialised, and
    the table is initialised only after [createTable] was called. *)
Definition tableFirst (cfg : Config) : Prop :=
  Forall (grounded (fst cfg)) (snd cfg) /\
  ((fst cfg).(ctl_messageBuffer) <> [] -> (fst cfg).(tableInitialized) = true) /\
  ((fst cfg).(insertBatchCalls) <> [] -> (fst cfg).(tableInitialized) = true) /\
  ((fst cfg).(tableInitialized) = true -> (fst cfg).(createTableCalls) <> []).

End Consumer.

(** ** messaging/kafka.producer.ts *)

Module Producer.

(** An element of [messages] in [sendBatch]: the key, and the message object
    whose JSON text is the value. *)
Record ProducerMessage : Type := {
  key : jsstring;
  value : Consumer.KafkaMessage
}.

(** The callback of [rows.map]; [now index] is what [Date.now()] returns
    for the row at [index]. *)
Definition messageAt (now : nat -> nat) (schema : TableSchema) (sourceUrl : jsstring)
    (index : nat) (row : TableRow) : ProducerMessage :=
  let message :=
    {| Consumer.schema := Some schema;
       Consumer.row := row;
       Consumer.timestamp := Z.of_nat (now index);
       Consumer.sourceUrl := sourceUrl |} in
  {| key := str "row_" ++ decimal (now index) ++ str "_" ++ decimal index;
     value := message |}.

(** [sendBatch]: the [messages] of its one [producer.send] call. *)
Definition sendBatch (isConnected : bool) (now : nat -> nat)
    (schema : TableSchema) (rows : list TableRow) (sourceUrl : jsstring)
  : Result (list ProducerMessage) :=
  if isConnected
  then Returns (forEachIndexed (messageAt now schema sourceUrl) 0 rows)
  else Throws (str "KafkaProducer is not connected. Call connect() first.").

End Producer.

(** *** The wire

    The producer sends [JSON.stringify(message)] and the consumer reads
    [JSON.parse] of that text.  For a message whose row holds nulls and
    strings this is the message with the row as [JSON.parse] makes it: the
    same own properties, under [Object.prototype]. *)
Definition received (m : Producer.ProducerMessage) : Consumer.KafkaMessage :=
  {| Consumer.schema := Consumer.schema (Producer.value m);
     Consumer.row := parsed (Consumer.row (Producer.value m));
     Consumer.timestamp := Consumer.timestamp (Producer.value m);
     Consumer.sourceUrl := Consumer.sourceUrl (Producer.value m) |}.

(** *** A run of the whole pipeline *)

Definition ex_tableSchema : TableSchema :=
  schema (parseTable [str "Name"; str "Age"] ex_table).

Definition ex_tableRows : list TableRow :=
  rows (parseTable [str "Name"; str "Age"] ex_table).

(** The messages the producer makes of the table. *)
Definition ex_sent : list Producer.ProducerMessage :=
  match Producer.sendBatch true (fun _ => 0) ex_tableSchema ex_tableRows
          (str "https://example.org/table") with
  | Returns messages => messages
  | Throws _ => []
  end.

(** With batch size 1: each message is delivered and flushed, then the timer
    of the controller writes. *)
Definition ex_pipeline : list Consumer.Event :=
  flat_map (fun m => [Consumer.Deliver (received m);
                      Consumer.Resume 0; Consumer.Resume 0]) ex_sent
    ++ [Consumer.ControllerTimer; Consumer.Resume 0].

(* ===================================================================== *)
(** * Part II -- lemmas and theorems                                      *)
(* ===================================================================== *)


(** ** The merge of data types *)

Lemma mergeDataTypes_comm : forall a b, mergeDataTypes a b = mergeDataTypes b a.
Proof. intros [] []; reflexivity. Qed.

Lemma mergeDataTypes_assoc : forall a b c,
  mergeDataTypes (mergeDataTypes a b) c = mergeDataTypes a (mergeDataTypes b c).
Proof. intros [] [] []; reflexivity. Qed.

Lemma mergeDataTypes_idem : forall a, mergeDataTypes a a = a.
Proof. intros []; reflexivity. Qed.

(** The merge is the maximum for [priority]. *)
Lemma mergeDataTypes_priority : forall a b,
  priority (mergeDataTypes a b) = Nat.max (priority a) (priority b).
Proof. intros [] []; reflexivity. Qed.

Lemma scanCell_swap : forall colIndex acc r1 r2,
  scanCell colIndex (scanCell colIndex acc r1) r2 =
  scanCell colIndex (scanCell colIndex acc r2) r1.
Proof.
  intros colIndex [ty len] r1 r2. unfold scanCell.
  destruct (truthyCell r1 colIndex) as [c1|], (truthyCell r2 colIndex) as [c2|];
    cbn [fst snd]; try reflexivity.
  f_equal.
  - rewrite !mergeDataTypes_assoc.
    f_equal. apply mergeDataTypes_comm.
  - lia.
Qed.

Lemma fold_scanCell_perm : forall colIndex rows rows',
  Permutation rows rows' ->
  forall acc, fold_left (scanCell colIndex) rows acc =
              fold_left (scanCell colIndex) rows' acc.
Proof.
  intros colIndex rows rows' P.
  induction P as [| r l l' _ IH | r1 r2 l | l1 l2 l3 _ IH1 _ IH2]; intros acc; cbn.
  - reflexivity.
  - apply IH.
  - now rewrite scanCell_swap.
  - now rewrite IH1.
Qed.

Lemma scanColumn_perm : forall colIndex rows rows',
  Permutation rows rows' -> scanColumn colIndex rows = scanColumn colIndex rows'.
Proof. intros. unfold scanColumn. now apply fold_scanCell_perm. Qed.

Lemma forEachIndexed_ext : forall (A B : Type) (f g : nat -> A -> B) l i,
  (forall j x, f j x = g j x) -> forEachIndexed f i l = forEachIndexed g i l.
Proof.
  intros A B f g l. induction l as [|x t IH]; intros i E; cbn.
  - reflexivity.
  - now rewrite E, (IH (S i) E).
Qed.

Lemma inferSchema_perm : forall headers rows rows',
  Permutation rows rows' -> inferSchema headers rows = inferSchema headers rows'.
Proof.
  intros headers rows rows' P. unfold inferSchema. f_equal.
  apply forEachIndexed_ext. intros j h. unfold inferColumn.
  now rewrite (scanColumn_perm j P).
Qed.

(** C4.  [mergeDataTypes] is commutative, associative and idempotent, and
    the type a column ends with -- the fold of the merge over the types of
    its cells in [inferSchema] -- is the same for every order in which the
    rows are scanned; so is the whole inferred schema. *)
Theorem C4_merge_order_independent :
  (forall a b, mergeDataTypes a b = mergeDataTypes b a) /\
  (forall a b c,
     mergeDataTypes (mergeDataTypes a b) c = mergeDataTypes a (mergeDataTypes b c)) /\
  (forall a, mergeDataTypes a a = a) /\
  (forall colIndex rows rows',
     Permutation rows rows' ->
     fst (scanColumn colIndex rows) = fst (scanColumn colIndex rows')) /\
  (forall headers rows rows',
     Permutation rows rows' ->
     inferSchema headers rows = inferSchema headers rows').
Proof.
  repeat split.
  - apply mergeDataTypes_comm.
  - apply mergeDataTypes_assoc.
  - apply mergeDataTypes_idem.
  - intros c rows rows' P. now rewrite (scanColumn_perm c P).
  - apply inferSchema_perm.
Qed.

Lemma C4_merge_order_independent_witness :
  Permutation [[str "abc"; str "1"]; [str "2020-01-01"; str "2.5"]]
              [[str "2020-01-01"; str "2.5"]; [str "abc"; str "1"]] /\
  inferSchema [str "When"; str "Amount"]
              [[str "abc"; str "1"]; [str "2020-01-01"; str "2.5"]] =
  inferSchema [str "When"; str "Amount"]
              [[str "2020-01-01"; str "2.5"]; [str "abc"; str "1"]].
Proof.
  split.
  - apply perm_swap.
  - apply (proj2 (proj2 (proj2 (proj2 C4_merge_order_independent)))).
    apply perm_swap.
Defined.

(** ** Regular expressions: the derivative matcher decides the language *)

Lemma nullable_Lang : forall r, nullable r = true <-> Lang r [].
Proof.
  induction r as [| | p | a IHa b IHb | a IHa b IHb | a IHa]; cbn; split; intros H;
    try discriminate; auto with regex.
  - inversion H.
  - inversion H.
  - apply andb_true_iff in H as [Ha Hb].
    change (@nil ascii) with (@nil ascii ++ []). constructor; tauto.
  - inversion H as [| |a' b' s1 s2 H1 H2 E1 E| | | |]; subst.
    apply app_eq_nil in E as [-> ->].
    apply andb_true_iff; tauto.
  - apply orb_true_iff in H as [H|H]; [apply Lang_AltL | apply Lang_AltR]; tauto.
  - apply orb_true_iff. inversion H; subst; tauto.
Qed.

Lemma Lang_Star_app : forall a s1 s2,
  Lang a s1 -> Lang (Star a) s2 -> Lang (Star a) (s1 ++ s2).
Proof.
  intros a [|c s1] s2 H1 H2; cbn; auto with regex.
Qed.

Lemma deriv_Lang : forall r c s, Lang (deriv c r) s <-> Lang r (c :: s).
Proof.
  induction r as [| | p | a IHa b IHb | a IHa b IHb | a IHa]; intros c s; cbn.
  - split; intros H; inversion H.
  - split; intros H; inversion H.
  - destruct (p c) eqn:E; split; intros H; inversion H; subst.
    + now constructor.
    + constructor.
    + congruence.
  - assert (L : Lang (Seq (deriv c a) b) s -> Lang (Seq a b) (c :: s)).
    { intros H. inversion H as [| |a' b' s1 s2 H1 H2| | | |]; subst.
      change (c :: s1 ++ s2) with ((c :: s1) ++ s2).
      constructor; [now apply IHa | assumption]. }
    assert (R : Lang (Seq a b) (c :: s) ->
                Lang (Seq (deriv c a) b) s \/ (Lang a [] /\ Lang (deriv c b) s)).
    { intros H. inversion H as [| |a' b' s1 s2 H1 H2 E1 E| | | |].
      destruct s1 as [|c1 s1]; cbn in E.
      - subst s2. right. split; [assumption | now apply IHb].
      - injection E as -> <-. left. constructor; [now apply IHa | assumption]. }
    destruct (nullable a) eqn:N; split; intros H.
    + inversion H; subst; [now apply L |].
      change (c :: s) with ([] ++ c :: s).
      constructor; [now apply nullable_Lang | now apply IHb].
    + destruct (R H) as [H1 | [_ H1]]; [now apply Lang_AltL | now apply Lang_AltR].
    + now apply L.
    + destruct (R H) as [H1 | [H0 _]]; [assumption |].
      apply nullable_Lang in H0. congruence.
  - split; intros H; inversion H; subst.
    + apply Lang_AltL. now apply IHa.
    + apply Lang_AltR. now apply IHb.
    + apply Lang_AltL. now apply IHa.
    + apply Lang_AltR. now apply IHb.
  - split; intros H.
    + inversion H as [| |a' b' s1 s2 H1 H2| | | |]; subst.
      constructor; [now apply IHa | assumption].
    + inversion H as [| | | | | |a' c' s1 s2 H1 H2]; subst.
      constructor; [now apply IHa | assumption].
Qed.

Lemma test_full_Lang : forall s r, test_full r s = true <-> Lang r s.
Proof.
  induction s as [|c s IH]; intros r; cbn.
  - apply nullable_Lang.
  - rewrite IH. apply deriv_Lang.
Qed.

Lemma test_full_false : forall r s, ~ Lang r s -> test_full r s = false.
Proof.
  intros r s H. destruct (test_full r s) eqn:E; [|reflexivity].
  apply test_full_Lang in E. contradiction.
Qed.

Lemma Lang_Star_all : forall p s, forallb p s = true -> Lang (Star (Class p)) s.
Proof.
  induction s as [|c s IH]; cbn; intros H.
  - constructor.
  - apply andb_true_iff in H as [Hc Hs].
    change (c :: s) with (c :: [] ++ s).
    constructor; [now constructor | now apply IH].
Qed.

Lemma Lang_Plus_all : forall p c s,
  p c = true -> forallb p s = true -> Lang (Plus (Class p)) (c :: s).
Proof.
  intros p c s Hc Hs. change (c :: s) with ([c] ++ s).
  constructor; [now constructor | now apply Lang_Star_all].
Qed.

(** A word under the [/i] flag matches exactly the strings that fold to it. *)
Lemma Lang_WordI : forall w s, Lang (Word true w) s -> map foldCase s = w.
Proof.
  induction w as [|c w IH]; cbn; intros s H.
  - now inversion H.
  - inversion H as [| |a' b' s1 s2 H1 H2| | | |]; subst.
    inversion H1 as [|p c1 Hp| | | | |]; subst. cbn.
    unfold eqc in Hp. apply Ascii.eqb_eq in Hp. rewrite Hp.
    f_equal. now apply IH.
Qed.

(** ** Classification of integer-shaped values *)

Lemma isDigit_facts : forall c, isDigit c = true ->
  isWhiteSpace c = false /\ eqc c ","%char = false /\ eqc c "-"%char = false /\
  eqc c "+"%char = false /\ eqc c "x"%char = false /\ eqc c "X"%char = false /\
  eqc c "N"%char = false /\ digitValue 10 c = Some (code c - 48) /\
  foldCase c = c /\ isLowerAZ c = false.
Proof.
  intros c H. each_char c; try discriminate H; repeat split; reflexivity.
Qed.

Lemma trimStart_head : forall c t, isWhiteSpace c = false -> trimStart (c :: t) = c :: t.
Proof. intros c t H. cbn. now rewrite H. Qed.

Lemma trim_no_space : forall s,
  forallb (fun c => negb (isWhiteSpace c)) s = true -> trim s = s.
Proof.
  intros s H.
  assert (T : forall u, forallb (fun c => negb (isWhiteSpace c)) u = true -> trimStart u = u).
  { intros [|c u] Hu; [reflexivity|]. cbn in Hu. apply andb_true_iff in Hu as [Hc _].
    apply trimStart_head. now apply negb_true_iff. }
  unfold trim, trimEnd. rewrite (T s H), T.
  - apply rev_involutive.
  - rewrite forallb_forall in *. intros x Hx. apply H. now apply in_rev.
Qed.

Lemma filter_all : forall (A : Type) (p : A -> bool) l,
  forallb p l = true -> filter p l = l.
Proof.
  induction l as [|x l IH]; cbn; intros H; [reflexivity|].
  apply andb_true_iff in H as [Hx Hl]. rewrite Hx. now rewrite IH.
Qed.

Lemma forallb_impl : forall (A : Type) (p q : A -> bool) l,
  (forall x, p x = true -> q x = true) -> forallb p l = true -> forallb q l = true.
Proof.
  intros A p q l I H. rewrite forallb_forall in *. auto.
Qed.

Lemma parseDigits_decimal : forall ds acc,
  forallb isDigit ds = true ->
  parseDigits 10 acc ds =
  fold_left (fun a c => (a * 10 + Z.of_nat (code c - 48))%Z) ds acc.
Proof.
  induction ds as [|c ds IH]; intros acc H; cbn -[Z.mul Z.add Z.of_nat]; [reflexivity|].
  cbn in H. apply andb_true_iff in H as [Hc Hds].
  destruct (isDigit_facts c Hc) as (_ & _ & _ & _ & _ & _ & _ & Dv & _).
  rewrite Dv. now rewrite IH.
Qed.

Lemma parseUnsigned_digits : forall d ds,
  isDigit d = true -> forallb isDigit ds = true ->
  parseUnsigned (d :: ds) = Some (decimalValue (d :: ds)).
Proof.
  intros d ds Hd Hds.
  assert (R : parseRadix 10 (d :: ds) = Some (decimalValue (d :: ds))).
  { unfold parseRadix.
    destruct (isDigit_facts d Hd) as (_ & _ & _ & _ & _ & _ & _ & Dv & _).
    rewrite Dv. f_equal. unfold decimalValue. apply parseDigits_decimal.
    cbn. now rewrite Hd. }
  unfold parseUnsigned. destruct ds as [|x t]; [exact R|].
  cbn in Hds. apply andb_true_iff in Hds as [Hx _].
  destruct (isDigit_facts x Hx) as (_ & _ & _ & _ & Ex & EX & _).
  rewrite Ex, EX. cbn [orb]. rewrite andb_false_r. exact R.
Qed.

Lemma mathInt_signedDigits : forall negative d ds,
  isDigit d = true -> forallb isDigit ds = true ->
  mathInt (signedDigits negative d ds) = Some (signedValue negative d ds).
Proof.
  intros negative d ds Hd Hds. unfold mathInt, signedDigits, signedValue.
  pose proof (parseUnsigned_digits d ds Hd Hds) as U.
  destruct (isDigit_facts d Hd) as (Ws & _ & Em & Ep & _).
  destruct negative; cbn [app].
  - rewrite trimStart_head by reflexivity.
    change (eqc "-" "-") with true. cbn iota. now rewrite U.
  - rewrite trimStart_head by exact Ws. now rewrite Em, Ep.
Qed.

Lemma parseInt_signedDigits : forall negative d ds,
  isDigit d = true -> forallb isDigit ds = true ->
  parseInt (signedDigits negative d ds) = numberOfInteger (signedValue negative d ds).
Proof.
  intros negative d ds Hd Hds. unfold parseInt.
  now rewrite mathInt_signedDigits.
Qed.

(** Up to 2^53 the Number value of an integer is the integer. *)
Lemma numberOfInteger_safe : forall z,
  (Z.abs z < 2 ^ 53)%Z -> numberOfInteger z = VInt z.
Proof.
  intros z H. unfold numberOfInteger.
  apply Z.ltb_lt in H. now rewrite H.
Qed.

(** Beyond, it is an integer [m] of the sign of [z] that differs from [z] by
    at most half a unit of the 53rd bit, or the infinity of that sign when
    [m] reaches 2^1024. *)
Lemma numberOfInteger_beyond : forall z,
  (2 ^ 53 <= Z.abs z)%Z ->
  exists m,
    (2 ^ 53 <= m)%Z /\
    (2 * Z.abs (m - Z.abs z) <= 2 ^ (Z.log2 (Z.abs z) - 52))%Z /\
    (numberOfInteger z = VInt (if (z <? 0)%Z then - m else m)%Z /\ (m < 2 ^ 1024)%Z \/
     numberOfInteger z = VInfinity (z <? 0)%Z /\ (2 ^ 1024 <= m)%Z).
Proof.
  intros z H. unfold numberOfInteger.
  assert (L : (Z.abs z <? 2 ^ 53)%Z = false) by now apply Z.ltb_ge.
  rewrite L. cbv zeta.
  set (a := Z.abs z) in *.
  set (e := (Z.log2 a - 52)%Z).
  set (q := Z.shiftr a e).
  set (r := (a - Z.shiftl q e)%Z).
  set (half := Z.shiftl 1 (e - 1)).
  match goal with
  | |- context [if ?c then (q + 1)%Z else q] =>
      set (q' := if c then (q + 1)%Z else q)
  end.
  exists (Z.shiftl q' e).
  assert (Pa : (0 < a)%Z) by (change (2 ^ 53)%Z with 9007199254740992%Z in H; lia).
  pose proof (Z.log2_spec a Pa) as [Lo _].
  assert (Le : (53 <= Z.log2 a)%Z).
  { apply Z.log2_le_pow2; [exact Pa | exact H]. }
  assert (E1 : (1 <= e)%Z) by (subst e; lia).
  assert (Ep : (2 ^ Z.log2 a = 2 ^ 52 * 2 ^ e)%Z).
  { subst e. rewrite <- Z.pow_add_r by lia. f_equal. lia. }
  assert (Eh : (2 ^ e = 2 * half)%Z).
  { subst half. rewrite Z.shiftl_mul_pow2, Z.mul_1_l by lia.
    rewrite <- Z.pow_succ_r by lia. f_equal. lia. }
  assert (Ph : (1 <= half)%Z).
  { subst half. rewrite Z.shiftl_mul_pow2, Z.mul_1_l by lia.
    change 1%Z with (2 ^ 0)%Z at 1. apply Z.pow_le_mono_r; lia. }
  assert (Eq : (q = a / 2 ^ e)%Z) by (subst q; apply Z.shiftr_div_pow2; lia).
  assert (Er : (r = a mod 2 ^ e)%Z).
  { subst r. rewrite Z.shiftl_mul_pow2, Eq by lia. rewrite Z.mod_eq by lia. lia. }
  assert (Br : (0 <= r < 2 ^ e)%Z) by (rewrite Er; apply Z.mod_pos_bound; lia).
  assert (Ea : (a = q * 2 ^ e + r)%Z).
  { subst r. rewrite Z.shiftl_mul_pow2 by lia. lia. }
  assert (Q : (2 ^ 52 <= q)%Z).
  { rewrite Eq. apply Z.div_le_lower_bound; [lia|]. rewrite Z.mul_comm, <- Ep. exact Lo. }
  assert (Q' : (q' = q /\ r <= half \/ q' = q + 1 /\ half <= r)%Z).
  { subst q'. destruct (Z.ltb_spec half r); cbn [orb]; [right; lia|].
    destruct (Z.eqb_spec r half); cbn [andb]; [|left; lia].
    destruct (Z.odd q); [right | left]; lia. }
  clearbody q' half r q. 
  rewrite Z.shiftl_mul_pow2 by lia.
  change (2 ^ 53)%Z with (2 * 2 ^ 52)%Z.
  generalize dependent (2 ^ e)%Z. intros T. intros.
  generalize dependent (2 ^ 52)%Z. intros U. intros.
  split; [nia|]. split; [nia|].
  destruct (Z.leb_spec (2 ^ 1024) (q' * T)); [right | left]; split; (reflexivity || assumption).
Qed.

(** Rounding does not change how the number compares with an integer within
    2^53. *)
Lemma compare_numberOfInteger : forall z bound,
  (Z.abs bound < 2 ^ 53)%Z ->
  greaterThan (numberOfInteger z) bound = (z >? bound)%Z /\
  lessThan (numberOfInteger z) bound = (z <? bound)%Z.
Proof.
  intros z bound B.
  destruct (Z.lt_ge_cases (Z.abs z) (2 ^ 53)) as [S | G].
  - rewrite (numberOfInteger_safe z S). now split.
  - destruct (numberOfInteger_beyond z G) as (m & M & _ & [[-> _] | [-> _]]);
      cbn [greaterThan lessThan]; rewrite ?Z.gtb_ltb;
      change (2 ^ 53)%Z with 9007199254740992%Z in *;
      destruct (Z.ltb_spec z 0); cbn [negb];
      split;
      repeat match goal with
             | |- context [(?a <? ?b)%Z] => destruct (Z.ltb_spec a b)
             end;
      try reflexivity; lia.
Qed.

Lemma signedDigits_plain : forall negative d ds,
  isDigit d = true -> forallb isDigit ds = true ->
  trim (signedDigits negative d ds) = signedDigits negative d ds /\
  removeCommas (signedDigits negative d ds) = signedDigits negative d ds.
Proof.
  intros negative d ds Hd Hds.
  assert (A : forallb isDigit (d :: ds) = true) by (cbn; now rewrite Hd).
  split.
  - apply trim_no_space. unfold signedDigits. rewrite forallb_app.
    apply andb_true_iff. split.
    + now destruct negative.
    + revert A. apply forallb_impl. intros x Hx.
      now rewrite (proj1 (isDigit_facts x Hx)).
  - apply filter_all. unfold signedDigits. rewrite forallb_app.
    apply andb_true_iff. split.
    + now destruct negative.
    + revert A. apply forallb_impl. intros x Hx.
      destruct (isDigit_facts x Hx) as (_ & C & _). now rewrite C.
Qed.

Lemma signedDigits_not_marker : forall negative d ds,
  isDigit d = true -> isNullMarker (signedDigits negative d ds) = false.
Proof.
  intros negative d ds Hd.
  destruct (isDigit_facts d Hd) as (_ & _ & Em & _ & _ & _ & EN & _).
  unfold isNullMarker, signedDigits.
  destruct negative; cbn -[eqc].
  - reflexivity.
  - now rewrite Em, EN.
Qed.

Lemma signedDigits_not_boolean : forall negative d ds,
  isDigit d = true -> test_full re_boolean (signedDigits negative d ds) = false.
Proof.
  intros negative d ds Hd. apply test_full_false. intros L.
  assert (W : exists w, In w [str "true"; str "false"; str "yes"; str "no"] /\
                        map foldCase (signedDigits negative d ds) = w).
  { unfold re_boolean in L.
    inversion L as [| | |? ? ? L1|? ? ? L1| |]; subst;
      [ exists (str "true"); split; [cbn; tauto | now apply Lang_WordI] |].
    inversion L1 as [| | |? ? ? L2|? ? ? L2| |]; subst;
      [ exists (str "false"); split; [cbn; tauto | now apply Lang_WordI] |].
    inversion L2 as [| | |? ? ? L3|? ? ? L3| |]; subst;
      [ exists (str "yes") | exists (str "no") ];
      (split; [cbn; tauto | now apply Lang_WordI]). }
  destruct W as (w & Hw & E).
  destruct (isDigit_facts d Hd) as (_ & _ & _ & _ & _ & _ & _ & _ & Fc & Lz).
  assert (F : exists c t, w = c :: t /\ isLowerAZ c = false).
  { unfold signedDigits in E. destruct negative; cbn in E.
    - exists "-"%char. eexists. split; [symmetry; exact E | reflexivity].
    - exists (foldCase d). eexists. split; [symmetry; exact E | now rewrite Fc]. }
  destruct F as (c & t & -> & Hc).
  cbn in Hw. destruct Hw as [H|[H|[H|[H|[]]]]]; injection H as <- _; discriminate Hc.
Qed.

Lemma signedDigits_integer : forall negative d ds,
  isDigit d = true -> forallb isDigit ds = true ->
  test_full re_integer (signedDigits negative d ds) = true.
Proof.
  intros negative d ds Hd Hds. apply test_full_Lang.
  unfold re_integer, signedDigits. constructor.
  - destruct negative.
    + apply Lang_AltL. now constructor.
    + apply Lang_AltR. constructor.
  - now apply Lang_Plus_all.
Qed.

(** Per-value classification of [inferDataType]: a string of digits with an
    optional leading minus is INT when its value lies in the signed 32-bit
    range and BIGINT otherwise. *)
Lemma inferDataType_signedDigits : forall negative d ds,
  isDigit d = true -> forallb isDigit ds = true ->
  inferDataType (signedDigits negative d ds) =
  if ((INT_MIN <=? signedValue negative d ds) &&
      (signedValue negative d ds <=? INT_MAX))%Z
  then INT else BIGINT.
Proof.
  intros negative d ds Hd Hds. unfold inferDataType.
  destruct (signedDigits_plain negative d ds Hd Hds) as [T C].
  rewrite T, C, (signedDigits_not_marker negative d ds Hd),
    (signedDigits_not_boolean negative d ds Hd),
    (signedDigits_integer negative d ds Hd Hds),
    (parseInt_signedDigits negative d ds Hd Hds).
  cbv zeta. generalize (signedValue negative d ds). intros v.
  destruct (compare_numberOfInteger v INT_MAX) as [-> _]; [reflexivity|].
  destruct (compare_numberOfInteger v INT_MIN) as [_ ->]; [reflexivity|].
  unfold INT_MIN, INT_MAX.
  destruct (Z.gtb_spec v 2147483647), (Z.ltb_spec v (-2147483648)),
    (Z.leb_spec (-2147483648) v), (Z.leb_spec v 2147483647);
    cbn; try reflexivity; lia.
Qed.

(** ** What [inferSchema] infers *)

(** The fold of [inferSchema] starts from VARCHAR, the second highest
    priority, and the merge only moves up: a column ends as VARCHAR or
    TEXT whatever its cells hold. *)
Lemma scanCell_priority : forall colIndex acc row,
  priority (fst acc) <= priority (fst (scanCell colIndex acc row)).
Proof.
  intros colIndex acc row. unfold scanCell.
  destruct (truthyCell row colIndex); cbn [fst]; [|lia].
  rewrite mergeDataTypes_priority. lia.
Qed.

Lemma fold_scanCell_priority : forall colIndex rows acc,
  priority (fst acc) <= priority (fst (fold_left (scanCell colIndex) rows acc)).
Proof.
  intros colIndex rs. induction rs as [|r rs IH]; intros acc; cbn; [lia|].
  pose proof (scanCell_priority colIndex acc r).
  pose proof (IH (scanCell colIndex acc r)). lia.
Qed.

Lemma scanColumn_varchar_or_text : forall colIndex rows,
  fst (scanColumn colIndex rows) = VARCHAR \/ fst (scanColumn colIndex rows) = TEXT.
Proof.
  intros colIndex rows. unfold scanColumn.
  pose proof (fold_scanCell_priority colIndex rows (VARCHAR, 0)) as P.
  cbn [fst priority] in P.
  destruct (fst (fold_left (scanCell colIndex) rows (VARCHAR, 0)));
    cbn in P; try lia; tauto.
Qed.

(** C1.  On headers [Name, Age] and rows [[John, 30], ["", ""]] the code
    drops the empty row and yields one row, and the value "30" by itself
    classifies as INT; but the inferred type of [age] is VARCHAR(255), not
    INT, and the row carries the string "30", not the number 30. *)
Theorem C1_name_age_scenario :
  keepRow [str "Name"; str "Age"] [str ""; str ""] = false /\
  inferDataType (str "30") = INT /\
  convertValue (str "30") INT = VInt 30 /\
  parseTable [str "Name"; str "Age"] [[str "John"; str "30"]; [str ""; str ""]] =
  {| schema :=
       {| columns :=
            [ {| name := str "name"; type := VARCHAR; maxLength := Some 255 |};
              {| name := str "age"; type := VARCHAR; maxLength := Some 255 |} ] |};
     rows :=
       [ object [ (str "name", VString (str "John"));
                  (str "age", VString (str "30")) ] ] |}.
Proof. repeat split; vm_compute; reflexivity. Qed.

(** C5.  Each of "30" and "40" classifies as INT and "2147483648" as BIGINT,
    yet the column holding the three infers VARCHAR(255): no column ever
    infers BIGINT. *)
Theorem C5_bigint_column_scenario :
  map inferDataType [str "30"; str "40"; str "2147483648"] = [INT; INT; BIGINT] /\
  inferSchema [str "n"] [[str "30"]; [str "40"]; [str "2147483648"]] =
  {| columns := [ {| name := str "n"; type := VARCHAR; maxLength := Some 255 |} ] |} /\
  (forall colIndex rows, fst (scanColumn colIndex rows) <> BIGINT).
Proof.
  split; [vm_compute; reflexivity|].
  split; [vm_compute; reflexivity|].
  intros colIndex rows E.
  destruct (scanColumn_varchar_or_text colIndex rows) as [H|H];
    rewrite H in E; discriminate E.
Qed.

(** ** Column names: the sanitiser as the specification words it *)

Lemma toLowerChar_space : forall c, isWhiteSpace (toLowerChar c) = isWhiteSpace c.
Proof. intros c. each_char c; reflexivity. Qed.

Lemma isIdentChar_not_space : forall c, isWhiteSpace c = true -> isIdentChar c = false.
Proof. intros c H. each_char c; try discriminate H; reflexivity. Qed.

Lemma hasInk_cons : forall c t, hasInk (c :: t) = negb (isWhiteSpace c) || hasInk t.
Proof. reflexivity. Qed.

Lemma hasInk_blank : forall c t,
  hasInk (c :: t) = false -> isWhiteSpace c = true /\ hasInk t = false.
Proof.
  intros c t H. rewrite hasInk_cons in H.
  apply orb_false_iff in H as [Hc Ht]. apply negb_false_iff in Hc. tauto.
Qed.

Lemma hasInk_app : forall a b, hasInk (a ++ b) = hasInk a || hasInk b.
Proof. intros. unfold hasInk. apply existsb_app. Qed.

Lemma hasInk_rev : forall s, hasInk (rev s) = hasInk s.
Proof.
  induction s as [|c s IH]; [reflexivity|].
  cbn [rev]. rewrite hasInk_app, IH, !hasInk_cons. cbn [hasInk existsb].
  rewrite orb_false_r. apply orb_comm.
Qed.

Lemma trimStart_snoc : forall l c,
  trimStart (l ++ [c]) =
  if hasInk l then trimStart l ++ [c]
  else if isWhiteSpace c then [] else [c].
Proof.
  induction l as [|x l IH]; intros c; cbn.
  - now destruct (isWhiteSpace c).
  - destruct (isWhiteSpace x); cbn; [apply IH | reflexivity].
Qed.

Lemma stripEnd_blank : forall s, hasInk s = false -> stripEnd s = [].
Proof.
  intros [|c t] H; [reflexivity|].
  apply hasInk_blank in H as [Hc Ht]. cbn [stripEnd].
  now rewrite Hc, Ht.
Qed.

Lemma trimEnd_stripEnd : forall s, trimEnd s = stripEnd s.
Proof.
  unfold trimEnd. induction s as [|c t IH]; [reflexivity|].
  cbn [rev stripEnd]. rewrite trimStart_snoc, hasInk_rev.
  destruct (hasInk t) eqn:Ht.
  - rewrite rev_app_distr, IH. cbn. now rewrite andb_false_r.
  - rewrite (stripEnd_blank t Ht), andb_true_r.
    now destruct (isWhiteSpace c).
Qed.

Lemma toLowerCase_trimStart : forall s,
  toLowerCase (trimStart s) = trimStart (toLowerCase s).
Proof.
  induction s as [|c t IH]; [reflexivity|].
  cbn. rewrite toLowerChar_space. now destruct (isWhiteSpace c).
Qed.

Lemma toLowerCase_trim : forall s, toLowerCase (trim s) = trim (toLowerCase s).
Proof.
  intros s. unfold trim, trimEnd, toLowerCase.
  rewrite map_rev. f_equal.
  fold (toLowerCase (trimStart (rev (trimStart s)))).
  rewrite toLowerCase_trimStart. f_equal. unfold toLowerCase.
  rewrite map_rev. f_equal. apply toLowerCase_trimStart.
Qed.

Lemma filter_blank : forall s, hasInk s = false -> filter isIdentChar s = [].
Proof.
  induction s as [|c t IH]; [reflexivity|]. intros H.
  apply hasInk_blank in H as [Hc Ht]. cbn [filter].
  now rewrite (isIdentChar_not_space c Hc), IH.
Qed.

Lemma underscoreInternalRuns_blank : forall s seenInk inRun,
  hasInk s = false -> underscoreInternalRuns seenInk inRun s = s.
Proof.
  induction s as [|c t IH]; intros seenInk inRun H; [reflexivity|].
  apply hasInk_blank in H as [Hc Ht]. cbn [underscoreInternalRuns].
  now rewrite Hc, Ht, andb_false_r, IH.
Qed.

(** After the first character that is not white space. *)
Lemma underscoreInternalRuns_inner : forall s inRun,
  filter isIdentChar (underscoreInternalRuns true inRun s) =
  filter isIdentChar (replaceRuns (str "_") inRun (stripEnd s)).
Proof.
  induction s as [|c t IH]; intros inRun; [reflexivity|].
  cbn [underscoreInternalRuns stripEnd andb].
  destruct (isWhiteSpace c) eqn:Hc; cbn [andb].
  - destruct (hasInk t) eqn:Ht; cbn [negb].
    + cbn [replaceRuns]. rewrite Hc.
      destruct inRun; cbn [str list_ascii_of_string app filter]; now rewrite IH.
    + cbn [filter replaceRuns].
      rewrite (isIdentChar_not_space c Hc),
        (underscoreInternalRuns_blank t true true Ht).
      now apply filter_blank.
  - cbn [replaceRuns filter]. rewrite Hc. cbn [filter]. now rewrite IH.
Qed.

(** Before it. *)
Lemma underscoreInternalRuns_leading : forall s inRun,
  filter isIdentChar (underscoreInternalRuns false inRun s) =
  filter isIdentChar (replaceRuns (str "_") false (stripEnd (trimStart s))).
Proof.
  induction s as [|c t IH]; intros inRun; [reflexivity|].
  cbn [underscoreInternalRuns trimStart andb].
  destruct (isWhiteSpace c) eqn:Hc.
  - cbn [filter]. now rewrite (isIdentChar_not_space c Hc), IH.
  - cbn [stripEnd]. rewrite Hc. cbn [andb replaceRuns]. rewrite Hc.
    cbn [filter]. now rewrite underscoreInternalRuns_inner.
Qed.

Lemma sanitizeColumnName_by_spec : forall header,
  sanitizeColumnName header = sanitized_by_spec header.
Proof.
  intros header. unfold sanitizeColumnName, sanitized_by_spec.
  rewrite toLowerCase_trim, underscoreInternalRuns_leading.
  unfold trim. rewrite trimEnd_stripEnd.
  unfold replaceWhiteSpaceRuns, prefixLeadingDigit.
  now destruct (filter isIdentChar _).
Qed.

Lemma forallb_firstn : forall (A : Type) (p : A -> bool) n l,
  forallb p l = true -> forallb p (firstn n l) = true.
Proof.
  intros A p n. induction n as [|n IH]; intros [|x l] H; try reflexivity.
  cbn in *. apply andb_true_iff in H as [Hx Hl].
  now rewrite Hx, IH.
Qed.

Lemma forallb_filter_self : forall (A : Type) (p : A -> bool) l,
  forallb p (filter p l) = true.
Proof.
  intros A p l. apply forallb_forall. intros x Hx.
  now apply filter_In in Hx.
Qed.

Lemma prefixLeadingDigit_ident : forall s,
  forallb isIdentChar s = true -> forallb isIdentChar (prefixLeadingDigit s) = true.
Proof.
  intros [|d t] H; [reflexivity|]. unfold prefixLeadingDigit.
  destruct (isDigit d); [|exact H].
  rewrite forallb_app. now rewrite H.
Qed.

Lemma prefixLeadingDigit_start : forall s, startsWithDigit (prefixLeadingDigit s) = false.
Proof.
  intros [|d t]; [reflexivity|]. unfold prefixLeadingDigit.
  destruct (isDigit d) eqn:Hd; [reflexivity | exact Hd].
Qed.

Lemma startsWithDigit_firstn : forall n s,
  startsWithDigit s = false -> startsWithDigit (firstn n s) = false.
Proof. intros [|n] [|d t] H; try reflexivity. exact H. Qed.

(** C8.  For every header the sanitised column name is the one the
    specification describes (lower-cased, internal white-space runs turned
    into one underscore, characters outside [a-z0-9_] removed, a leading
    digit prefixed with col_, cut to 64 characters); it consists of
    characters in [a-z0-9_] only, does not start with a digit and is at most
    64 characters long. *)
Theorem C8_sanitizeColumnName :
  forall header : jsstring,
    sanitizeColumnName header = sanitized_by_spec header /\
    forallb isIdentChar (sanitizeColumnName header) = true /\
    startsWithDigit (sanitizeColumnName header) = false /\
    length (sanitizeColumnName header) <= 64.
Proof.
  intros header. split; [apply sanitizeColumnName_by_spec|].
  rewrite sanitizeColumnName_by_spec. unfold sanitized_by_spec.
  split; [|split].
  - apply forallb_firstn, prefixLeadingDigit_ident, forallb_filter_self.
  - apply startsWithDigit_firstn, prefixLeadingDigit_start.
  - apply firstn_le_length.
Qed.

(** ** Row objects *)

Lemma eqs_spec : forall a b, eqs a b = true <-> a = b.
Proof.
  induction a as [|x a IH]; intros [|y b]; cbn; split; intros H;
    try reflexivity; try discriminate.
  - apply andb_true_iff in H as [H1 H2]. apply Ascii.eqb_eq in H1.
    apply IH in H2. congruence.
  - injection H as -> ->. apply andb_true_iff. split.
    + apply Ascii.eqb_refl.
    + now apply IH.
Qed.

Lemma eqs_false : forall a b, eqs a b = false <-> a <> b.
Proof.
  intros a b. destruct (eqs a b) eqn:E.
  - apply eqs_spec in E. split; [discriminate | contradiction].
  - split; [|reflexivity]. intros _ H. apply eqs_spec in H. congruence.
Qed.

Lemma eqs_refl : forall a, eqs a a = true.
Proof. intros a. now apply eqs_spec. Qed.

Lemma getOwn_In : forall props k,
  In k (map fst props) <-> exists v, getOwn props k = Some v.
Proof.
  induction props as [|[k' v'] props IH]; intros k; cbn.
  - split; [contradiction | intros [v H]; discriminate H].
  - destruct (eqs k' k) eqn:E.
    + apply eqs_spec in E. split; [now exists v' | now left].
    + apply eqs_false in E. rewrite <- IH. tauto.
Qed.

Lemma getOwn_None : forall props k,
  getOwn props k = None <-> ~ In k (map fst props).
Proof.
  intros props k. rewrite getOwn_In. destruct (getOwn props k) as [v|].
  - split; [discriminate | intros H; exfalso; apply H; now exists v].
  - split; [intros _ [v H]; discriminate H | reflexivity].
Qed.

Lemma getOwn_NoDup : forall props k v,
  NoDup (map fst props) -> In (k, v) props -> getOwn props k = Some v.
Proof.
  induction props as [|[k' v'] props IH]; intros k v N I; [contradiction|].
  cbn in N. inversion N as [|? ? Nk Np]; subst. cbn. destruct I as [E | I].
  - injection E as -> ->. now rewrite eqs_refl.
  - destruct (eqs k' k) eqn:E; [|now apply IH].
    apply eqs_spec in E. subst k'. exfalso. apply Nk.
    apply in_map_iff. now exists (k, v).
Qed.

Lemma arrayIndex_digit : forall k n,
  arrayIndex k = Some n -> exists d t, k = d :: t /\ isDigit d = true.
Proof.
  intros [|d t] n H; cbn [arrayIndex] in H; [discriminate|].
  destruct (forallb isDigit (d :: t)) eqn:F; cbn [andb] in H; [|discriminate].
  cbn in F. apply andb_true_iff in F as [Hd _]. now exists d, t.
Qed.

Lemma insertIndex_perm : forall n k v props,
  Permutation (insertIndex n k v props) ((k, v) :: props).
Proof.
  intros n k v. induction props as [|[k' v'] props IH]; cbn; [reflexivity|].
  destruct (arrayIndex k') as [n'|]; [|reflexivity].
  destruct (n' <? n)%Z; [|reflexivity].
  rewrite IH. apply perm_swap.
Qed.

Lemma defineOwn_perm : forall props k v,
  Permutation (defineOwn props k v) ((k, v) :: props).
Proof.
  intros props k v. unfold defineOwn. destruct (arrayIndex k) as [n|].
  - apply insertIndex_perm.
  - symmetry. apply Permutation_cons_append.
Qed.

Lemma getOwn_insertIndex : forall n k v props k',
  getOwn props k = None ->
  getOwn (insertIndex n k v props) k' = if eqs k k' then Some v else getOwn props k'.
Proof.
  intros n k v. induction props as [|[k0 v0] props IH]; intros k' H; cbn in *;
    [reflexivity|].
  destruct (eqs k0 k) eqn:E0; [discriminate H|].
  assert (R : getOwn ((k, v) :: (k0, v0) :: props) k' =
              if eqs k k' then Some v else getOwn ((k0, v0) :: props) k')
    by reflexivity.
  destruct (arrayIndex k0) as [n'|]; [|exact R].
  destruct (n' <? n)%Z; [|exact R].
  cbn [getOwn]. rewrite (IH k' H).
  destruct (eqs k0 k') eqn:E1; [|reflexivity].
  apply eqs_spec in E1. subst k'. apply eqs_false in E0.
  now rewrite (proj2 (eqs_false k k0)) by congruence.
Qed.

Lemma getOwn_app : forall props k v k',
  getOwn props k = None ->
  getOwn (props ++ [(k, v)]) k' = if eqs k k' then Some v else getOwn props k'.
Proof.
  induction props as [|[k0 v0] props IH]; intros k v k' H; cbn in *.
  - now destruct (eqs k k').
  - destruct (eqs k0 k) eqn:E0; [discriminate H|].
    rewrite (IH k v k' H).
    destruct (eqs k0 k') eqn:E1; [|reflexivity].
    apply eqs_spec in E1. subst k'. apply eqs_false in E0.
    now rewrite (proj2 (eqs_false k k0)) by congruence.
Qed.

Lemma getOwn_defineOwn : forall props k v k',
  getOwn props k = None ->
  getOwn (defineOwn props k v) k' = if eqs k k' then Some v else getOwn props k'.
Proof.
  intros props k v k' H. unfold defineOwn. destruct (arrayIndex k) as [n|].
  - now apply getOwn_insertIndex.
  - now apply getOwn_app.
Qed.

Lemma getOwn_updateOwn : forall props k v k' u,
  getOwn props k = Some u ->
  getOwn (updateOwn props k v) k' = if eqs k k' then Some v else getOwn props k'.
Proof.
  induction props as [|[k0 v0] props IH]; intros k v k' u H; cbn in *; [discriminate|].
  destruct (eqs k0 k) eqn:E0.
  - apply eqs_spec in E0. subst k0. cbn. now destruct (eqs k k').
  - cbn. rewrite (IH k v k' u H).
    destruct (eqs k0 k') eqn:E1; [|reflexivity].
    apply eqs_spec in E1. subst k'. apply eqs_false in E0.
    now rewrite (proj2 (eqs_false k k0)) by congruence.
Qed.

Lemma keys_updateOwn : forall props k v, map fst (updateOwn props k v) = map fst props.
Proof.
  induction props as [|[k0 v0] props IH]; intros k v; cbn; [reflexivity|].
  destruct (eqs k0 k); cbn; [reflexivity|]. now rewrite IH.
Qed.

Lemma values_updateOwn : forall (Q : JsValue -> Prop) props k v,
  Forall (fun kv => Q (snd kv)) props -> Q v ->
  Forall (fun kv => Q (snd kv)) (updateOwn props k v).
Proof.
  induction props as [|[k0 v0] props IH]; intros k v F Hv; cbn; [constructor|].
  inversion F; subst. destruct (eqs k0 k); constructor; auto.
Qed.

(** The four ways an assignment ends. *)
Lemma setProp_cases : forall o k v,
  (exists u, getOwn o.(properties) k = Some u /\
     setProp o k v =
       {| prototype := o.(prototype); properties := updateOwn o.(properties) k v |}) \/
  (getOwn o.(properties) k = None /\ o.(prototype) = ObjectPrototype /\
   isProto k = true /\
   setProp o k v =
     {| prototype := if isNull v then NullPrototype else ObjectPrototype;
        properties := o.(properties) |}) \/
  (getOwn o.(properties) k = None /\
   (o.(prototype) = NullPrototype \/ isProto k = false) /\
   setProp o k v =
     {| prototype := o.(prototype); properties := defineOwn o.(properties) k v |}).
Proof.
  intros [p props] k v. unfold setProp, isProto. cbn [prototype properties].
  destruct (getOwn props k) as [u|] eqn:G; [left; now exists u|]. right.
  destruct p.
  - destruct (eqs k (str "__proto__")) eqn:E.
    + left. repeat split. now destruct v.
    + right. repeat split. now right.
  - right. repeat split. now left.
Qed.

(** What an assignment does to the own properties: it leaves them as they
    are, for [__proto__] on an object that inherits the setter, or the
    property assigned is there afterwards, the others unchanged. *)
Lemma getOwn_setProp : forall o k v k',
  getOwn (setProp o k v).(properties) k' = getOwn o.(properties) k' \/
  getOwn (setProp o k v).(properties) k' =
    if eqs k k' then Some v else getOwn o.(properties) k'.
Proof.
  intros o k v k'.
  destruct (setProp_cases o k v) as [(u & G & ->) | [(G & _ & _ & ->) | (G & _ & ->)]];
    cbn [properties].
  - right. eapply getOwn_updateOwn; eauto.
  - now left.
  - right. now apply getOwn_defineOwn.
Qed.

Lemma getOwn_setProp_plain : forall o k v k',
  isProto k = false ->
  getOwn (setProp o k v).(properties) k' =
    if eqs k k' then Some v else getOwn o.(properties) k'.
Proof.
  intros o k v k' P.
  destruct (setProp_cases o k v) as [(u & G & ->) | [(G & _ & P' & _) | (G & _ & ->)]];
    cbn [properties].
  - eapply getOwn_updateOwn; eauto.
  - congruence.
  - now apply getOwn_defineOwn.
Qed.

Lemma getOwn_setProp_other : forall o k v k',
  k <> k' -> getOwn (setProp o k v).(properties) k' = getOwn o.(properties) k'.
Proof.
  intros o k v k' N. apply eqs_false in N.
  destruct (getOwn_setProp o k v k') as [E | E]; rewrite E; [reflexivity|].
  now rewrite N.
Qed.

Lemma keys_setProp : forall o k v,
  NoDup (keys o) ->
  NoDup (keys (setProp o k v)) /\
  (forall x, In x (keys (setProp o k v)) -> In x (keys o) \/ x = k) /\
  (forall x, In x (keys o) -> In x (keys (setProp o k v))) /\
  (isProto k = false -> In k (keys (setProp o k v))).
Proof.
  intros o k v N. unfold keys in *.
  destruct (setProp_cases o k v) as [(u & G & ->) | [(G & _ & P & ->) | (G & _ & ->)]];
    cbn [properties].
  - rewrite keys_updateOwn. repeat split; auto.
    intros _. apply getOwn_In. now exists u.
  - repeat split; auto. congruence.
  - pose proof (Permutation_map fst (defineOwn_perm (properties o) k v)) as Pm.
    cbn [map fst] in Pm. apply getOwn_None in G. repeat split.
    + apply (Permutation_NoDup (Permutation_sym Pm)). now constructor.
    + intros x I. apply (Permutation_in _ Pm) in I. destruct I as [<- | I]; auto.
    + intros x I. apply (Permutation_in _ (Permutation_sym Pm)). now right.
    + intros _. apply (Permutation_in _ (Permutation_sym Pm)). now left.
Qed.

Lemma values_setProp : forall (Q : JsValue -> Prop) o k v,
  Forall (fun kv => Q (snd kv)) o.(properties) -> Q v ->
  Forall (fun kv => Q (snd kv)) (setProp o k v).(properties).
Proof.
  intros Q o k v F Hv.
  destruct (setProp_cases o k v) as [(u & G & ->) | [(G & _ & P & ->) | (G & _ & ->)]];
    cbn [properties].
  - now apply values_updateOwn.
  - exact F.
  - rewrite Forall_forall in *. intros kv I.
    apply (Permutation_in _ (defineOwn_perm (properties o) k v)) in I.
    destruct I as [<- | I]; auto.
Qed.

(** A name that does not start with a digit is no array index, and a new
    property under it goes to the end. *)
Lemma setProp_fresh : forall o k v,
  ~ In k (keys o) -> isProto k = false -> arrayIndex k = None ->
  setProp o k v =
    {| prototype := o.(prototype); properties := o.(properties) ++ [(k, v)] |}.
Proof.
  intros o k v N P A.
  destruct (setProp_cases o k v) as [(u & G & _) | [(_ & _ & P' & _) | (_ & _ & ->)]].
  - exfalso. apply N. apply getOwn_In. now exists u.
  - congruence.
  - unfold defineOwn. now rewrite A.
Qed.

Lemma setProp_proto : forall o k v,
  ~ In k (keys o) -> isProto k = true -> o.(prototype) = ObjectPrototype ->
  setProp o k v =
    {| prototype := if isNull v then NullPrototype else ObjectPrototype;
       properties := o.(properties) |}.
Proof.
  intros o k v N P O.
  destruct (setProp_cases o k v) as [(u & G & _) | [(_ & _ & _ & ->) | (_ & [O' | P'] & _)]].
  - exfalso. apply N. apply getOwn_In. now exists u.
  - reflexivity.
  - congruence.
  - congruence.
Qed.

(** ** The batch insert *)

Lemma isDefined_spec : forall m, isDefined m = true <-> m <> Value VUndefined.
Proof. intros [[]|]; cbn; split; congruence. Qed.

(** What [insertBatch] binds for a row and a column. *)
Lemma valueOrNull_spec : forall row col,
  (forall v, getOwn row.(properties) col = Some v -> v <> VUndefined ->
             valueOrNull row col = Value v) /\
  (getOwn row.(properties) col = Some VUndefined -> valueOrNull row col = Value VNull) /\
  (getOwn row.(properties) col = None ->
   row.(prototype) = ObjectPrototype -> In col objectPrototypeNames ->
   valueOrNull row col = Inherited col) /\
  (getOwn row.(properties) col = None ->
   row.(prototype) = NullPrototype \/ ~ In col objectPrototypeNames ->
   valueOrNull row col = Value VNull).
Proof.
  intros row col. unfold valueOrNull, getProp.
  destruct (existsb (eqs col) objectPrototypeNames) eqn:X.
  - apply existsb_exists in X as (name & I & E). apply eqs_spec in E. subst name.
    repeat split.
    + intros v -> N. now destruct v.
    + now intros ->.
    + intros -> ->. reflexivity.
    + intros -> [-> | N]; [reflexivity | contradiction].
  - assert (N : ~ In col objectPrototypeNames).
    { intros I. assert (T : existsb (eqs col) objectPrototypeNames = true).
      { apply existsb_exists. exists col. split; [exact I | apply eqs_refl]. }
      congruence. }
    repeat split.
    + intros v -> D. now destruct v.
    + now intros ->.
    + intros _ _ I. contradiction.
    + intros -> _. now destruct (prototype row).
Qed.


(** C6, as the code has it.  For every non-empty batch [insertBatch] issues
    one statement with one placeholder group and one tuple of values per
    row, the tuple of a row holding what the row gives for each column in
    turn.  The column set is taken from the first row of the batch alone:
    the keys of the first row whose value is not undefined, and no other
    key.  For a row and a column, the value bound is the own value of the
    row under that key; null when that value is undefined; and when the row
    has no such key, what the row inherits under that name from
    [Object.prototype] if there is such a thing, and null otherwise. *)
Theorem C6_insertBatch_columns_of_first_row :
  forall (row0 : TableRow) (rest : list TableRow),
  exists st,
    insertBatch (row0 :: rest) = Some st /\
    length st.(valuePlaceholders) = length (row0 :: rest) /\
    Forall (fun group => group = length st.(columnNames)) st.(valuePlaceholders) /\
    st.(values) =
      flat_map (fun row => map (valueOrNull row) st.(columnNames)) (row0 :: rest) /\
    (forall key,
       In key st.(columnNames) <->
       In key (keys row0) /\
       exists v, getOwn row0.(properties) key = Some v /\ v <> VUndefined) /\
    (forall row col,
       (forall v, getOwn row.(properties) col = Some v -> v <> VUndefined ->
                  valueOrNull row col = Value v) /\
       (getOwn row.(properties) col = Some VUndefined ->
        valueOrNull row col = Value VNull) /\
       (getOwn row.(properties) col = None ->
        row.(prototype) = ObjectPrototype -> In col objectPrototypeNames ->
        valueOrNull row col = Inherited col) /\
       (getOwn row.(properties) col = None ->
        row.(prototype) = NullPrototype \/ ~ In col objectPrototypeNames ->
        valueOrNull row col = Value VNull)).
Proof.
  intros row0 rest. eexists. split; [reflexivity|]. cbn -[flat_map filter].
  split; [now rewrite length_map|].
  split; [constructor; [reflexivity|]; apply Forall_forall; intros n I;
          apply in_map_iff in I as (r & <- & _); reflexivity|].
  split; [reflexivity|]. split; [|apply valueOrNull_spec].
  intros key. rewrite filter_In, isDefined_spec. unfold getProp, keys.
  split.
  - intros [I D]. split; [exact I|].
    apply getOwn_In in I as [v G]. rewrite G in D. exists v. split; congruence.
  - intros [I (v & G & D)]. split; [exact I|]. rewrite G. congruence.
Qed.

(** A batch whose second row has a key the first row lacks: the key is
    present in a row of the batch and absent from the written columns. *)
Lemma C6_later_key_not_written :
  exists st,
    insertBatch [ object [(str "a", VInt 1)];
                  object [(str "a", VInt 2); (str "b", VInt 3)] ] = Some st /\
    In (str "b") (keys (object [(str "a", VInt 2); (str "b", VInt 3)])) /\
    ~ In (str "b") st.(columnNames) /\
    st.(values) = [Value (VInt 1); Value (VInt 2)].
Proof.
  eexists. split; [reflexivity|]. cbn. repeat split.
  - tauto.
  - intros [H|[]]. discriminate H.
Qed.

(** ** The fetch with retries *)

Section Fetch.

Variables (maxRetries retryDelay : nat) (server : nat -> Attempt).

Let loop := fetchFrom maxRetries retryDelay server.

Lemma isClientError_not_retriable : forall error,
  isClientError error = true -> isRetriableError error = false.
Proof.
  intros [[status|] msg]; unfold isClientError, isRetriableError;
    cbn [response]; [|discriminate]. intros H.
  apply andb_true_iff in H as [H N]. apply andb_true_iff in H as [L U].
  apply Nat.leb_le in U. apply negb_true_iff in N. rewrite N, orb_false_r.
  apply Nat.leb_gt. lia.
Qed.

Lemma fetchFrom_retry : forall remaining attempt lastError error,
  attempt < maxRetries ->
  server attempt = Fails error -> isRetriableError error = true ->
  loop (S remaining) attempt lastError =
  (fst (loop remaining (S attempt) (Some error)),
   Get attempt :: Sleep (retryDelay * attempt)
     :: snd (loop remaining (S attempt) (Some error))).
Proof.
  intros remaining attempt lastError error Lt Sv Rt. unfold loop. cbn [fetchFrom].
  assert (L : (attempt <=? maxRetries) = true) by (apply Nat.leb_le; lia).
  assert (E : (attempt =? maxRetries) = false) by (apply Nat.eqb_neq; lia).
  rewrite L, Sv, E, Rt. cbn [negb].
  now destruct (fetchFrom maxRetries retryDelay server remaining (S attempt) (Some error)).
Qed.

(** [count] retriable failures in a row, none of them at the last attempt:
    each is followed by its pause and the next attempt. *)
Lemma fetchFrom_retries : forall count remaining attempt lastError,
  attempt + count <= maxRetries ->
  (forall j, attempt <= j < attempt + count -> failsRetriably server j) ->
  exists lastError',
    loop (count + remaining) attempt lastError =
    (fst (loop remaining (attempt + count) lastError'),
     retried retryDelay attempt count
       ++ snd (loop remaining (attempt + count) lastError')).
Proof.
  induction count as [|count IH]; intros remaining attempt lastError Le All.
  - exists lastError. rewrite Nat.add_0_r. cbn. now destruct (loop remaining attempt lastError).
  - destruct (All attempt) as (error & Sv & Rt); [lia|].
    destruct (IH remaining (S attempt) (Some error)) as (last' & E).
    { lia. } { intros j Hj. apply All. lia. }
    exists last'. cbn [Nat.add].
    rewrite (fetchFrom_retry (count + remaining) lastError) with (error := error);
      [|lia|assumption|assumption].
    rewrite E. cbn [fst snd]. replace (attempt + S count) with (S attempt + count) by lia.
    reflexivity.
Qed.

Lemma fetchFrom_countGets : forall remaining attempt lastError,
  countGets (snd (loop remaining attempt lastError)) <= remaining.
Proof.
  induction remaining as [|remaining IH]; intros attempt lastError; unfold loop in *;
    cbn [fetchFrom]; [cbn; lia|].
  destruct (attempt <=? maxRetries); [|cbn; lia].
  destruct (server attempt) as [data|error]; [cbn; lia|].
  destruct (attempt =? maxRetries); [cbn; lia|].
  destruct (isRetriableError error); cbn [negb]; [|cbn; lia].
  specialize (IH (S attempt) (Some error)).
  destruct (fetchFrom maxRetries retryDelay server remaining (S attempt) (Some error)).
  cbn in *. lia.
Qed.

(** The attempt after [count] retried ones, when it fails. *)
Lemma fetchFrom_failure : forall remaining attempt lastError error,
  attempt <= maxRetries ->
  server attempt = Fails error ->
  attempt = maxRetries \/ isRetriableError error = false ->
  loop (S remaining) attempt lastError =
  ((if attempt =? maxRetries then GaveUp maxRetries (Some error.(message))
    else Rethrown error),
   [Get attempt]).
Proof.
  intros remaining attempt lastError error Le Sv C. unfold loop. cbn [fetchFrom].
  assert (L : (attempt <=? maxRetries) = true) by (apply Nat.leb_le; lia).
  rewrite L, Sv. destruct (attempt =? maxRetries) eqn:E; [reflexivity|].
  destruct C as [C|C]; [apply Nat.eqb_neq in E; contradiction|].
  now rewrite C.
Qed.

End Fetch.

(** A network error, a timeout, a 5xx and a 429 are failures that
    [isRetriableError] lets be retried. *)
Lemma isTransient_retriable : forall error,
  isTransient error = true -> isRetriableError error = true.
Proof.
  intros [[status|] msg]; unfold isTransient, isRetriableError;
    cbn [response]; [|reflexivity]. intros H.
  apply orb_true_iff in H as [H | H]; [|now rewrite H, orb_true_r].
  apply andb_true_iff in H as [L _]. now rewrite L.
Qed.

Lemma failsTransiently_retriably : forall server attempt,
  failsTransiently server attempt -> failsRetriably server attempt.
Proof.
  intros server attempt (error & E & T). exists error.
  split; [exact E | now apply isTransient_retriable].
Qed.

(** C7.  [fetchHtml] makes at most [maxRetries] requests.  A network error,
    a timeout and a 5xx or 429 response are retriable for
    [isRetriableError], a 4xx response other than 429 is not.  After a
    network error, a timeout or a 5xx/429 response at an attempt before the
    last, [fetchHtml] pauses [retryDelay * attempt] and tries again.  A 4xx
    response other than 429 ends the fetch in failure at that very attempt,
    with no pause and no further request.  When every attempt fails in a
    way that is retried, the fetch ends with the terminal error that
    carries the message of the last failure. *)
Theorem C7_fetch_retry_policy :
  forall (maxRetries retryDelay : nat) (server : nat -> Attempt),
    countGets (snd (fetchHtml maxRetries retryDelay server)) <= maxRetries /\
    (forall error, isTransient error = true -> isRetriableError error = true) /\
    (forall error, isClientError error = true -> isRetriableError error = false) /\
    (forall k,
       k < maxRetries ->
       (forall j, 1 <= j <= k -> failsTransiently server j) ->
       exists rest,
         snd (fetchHtml maxRetries retryDelay server) =
         retried retryDelay 1 k ++ Get (S k) :: rest) /\
    (forall k error,
       1 <= k <= maxRetries ->
       (forall j, 1 <= j < k -> failsTransiently server j) ->
       server k = Fails error -> isClientError error = true ->
       fetchHtml maxRetries retryDelay server =
       ((if k =? maxRetries then GaveUp maxRetries (Some error.(message))
         else Rethrown error),
        retried retryDelay 1 (k - 1) ++ [Get k])) /\
    (forall error,
       1 <= maxRetries ->
       (forall j, 1 <= j < maxRetries -> failsTransiently server j) ->
       server maxRetries = Fails error ->
       fetchHtml maxRetries retryDelay server =
       (GaveUp maxRetries (Some error.(message)),
        retried retryDelay 1 (maxRetries - 1) ++ [Get maxRetries])).
Proof.
  intros maxRetries retryDelay server. unfold fetchHtml.
  split; [apply (@fetchFrom_countGets maxRetries retryDelay server)|].
  split; [exact isTransient_retriable|].
  split; [exact isClientError_not_retriable|].
  assert (Tr : forall lo hi,
             (forall j, lo <= j < hi -> failsTransiently server j) ->
             forall j, lo <= j < hi -> failsRetriably server j).
  { intros lo hi All j Hj. now apply failsTransiently_retriably, All. }
  split; [|split].
  - intros k Lt All0.
    assert (All : forall j, 1 <= j <= k -> failsRetriably server j).
    { intros j Hj. apply (Tr 1 (S k)); [|lia]. intros i Hi. apply All0. lia. }
    destruct (@fetchFrom_retries maxRetries retryDelay server k
                (maxRetries - k) 1 None) as (last' & E).
    { lia. } { intros j Hj. apply All. lia. }
    replace (k + (maxRetries - k)) with maxRetries in E by lia.
    rewrite E. cbn [snd].
    destruct (maxRetries - k) as [|remaining] eqn:R; [lia|].
    cbn [Nat.add fetchFrom].
    assert (L : (S k <=? maxRetries) = true) by (apply Nat.leb_le; lia).
    rewrite L.
    destruct (server (S k)) as [data|error]; [now eexists|].
    destruct (S k =? maxRetries); [now eexists|].
    destruct (isRetriableError error); cbn [negb]; [|now eexists].
    destruct (fetchFrom maxRetries retryDelay server remaining (S (S k)) (Some error)).
    now eexists.
  - intros k error Hk All0 Sv Ce. pose proof (Tr 1 k All0) as All.
    destruct (@fetchFrom_retries maxRetries retryDelay server (k - 1)
                (maxRetries - (k - 1)) 1 None) as (last' & E).
    { lia. } { intros j Hj. apply All. lia. }
    replace (k - 1 + (maxRetries - (k - 1))) with maxRetries in E by lia.
    rewrite E. replace (1 + (k - 1)) with k by lia.
    destruct (maxRetries - (k - 1)) as [|remaining] eqn:R; [lia|].
    rewrite (@fetchFrom_failure maxRetries retryDelay server remaining k last' error);
      [reflexivity| lia | assumption |].
    right. now apply isClientError_not_retriable.
  - intros error Hm All0 Sv. pose proof (Tr 1 maxRetries All0) as All.
    destruct (@fetchFrom_retries maxRetries retryDelay server (maxRetries - 1)
                1 1 None) as (last' & E).
    { lia. } { intros j Hj. apply All. lia. }
    replace (maxRetries - 1 + 1) with maxRetries in E by lia.
    rewrite E. replace (1 + (maxRetries - 1)) with maxRetries by lia.
    rewrite (@fetchFrom_failure maxRetries retryDelay server 0 maxRetries last' error);
      [|lia|assumption|now left].
    now rewrite Nat.eqb_refl.
Qed.

Lemma C7_fetch_retry_policy_witness :
  fetchHtml 5 1000 ex_server =
  (Rethrown {| response := Some 404; message := str "Not Found" |},
   [Get 1; Sleep 1000; Get 2; Sleep 2000; Get 3]).
Proof.
  refine (proj1 (proj2 (proj2 (proj2 (proj2 (C7_fetch_retry_policy 5 1000 ex_server)))))
            3 {| response := Some 404; message := str "Not Found" |} _ _ _ _).
  - lia.
  - intros j Hj. unfold failsTransiently.
    assert (J : j = 1 \/ j = 2) by lia.
    destruct J as [-> | ->]; eexists; split; reflexivity.
  - reflexivity.
  - reflexivity.
Defined.

(** ** Column names, schemas and rows *)

Lemma isIdentChar_facts : forall c, isIdentChar c = true ->
  isWhiteSpace c = false /\ toLowerChar c = c.
Proof. intros c H. each_char c; try discriminate H; split; reflexivity. Qed.

Lemma replaceRuns_no_space : forall by_ s inRun,
  forallb (fun c => negb (isWhiteSpace c)) s = true -> replaceRuns by_ inRun s = s.
Proof.
  induction s as [|c t IH]; intros inRun H; [reflexivity|].
  cbn in H. apply andb_true_iff in H as [Hc Ht]. apply negb_true_iff in Hc.
  cbn. rewrite Hc. now rewrite IH.
Qed.

Lemma map_id_on : forall (A : Type) (f : A -> A) l,
  (forall x, In x l -> f x = x) -> map f l = l.
Proof.
  induction l as [|x l IH]; intros H; [reflexivity|].
  cbn. rewrite H by now left. rewrite IH; [reflexivity|]. intros y Hy. apply H. now right.
Qed.

(** A string of [a-z0-9_] that does not start with a digit is only cut. *)
Lemma sanitizeColumnName_ident : forall s,
  forallb isIdentChar s = true -> startsWithDigit s = false ->
  sanitizeColumnName s = firstn 64 s.
Proof.
  intros s I D. unfold sanitizeColumnName.
  assert (NS : forallb (fun c => negb (isWhiteSpace c)) s = true).
  { revert I. apply forallb_impl. intros x Hx.
    now rewrite (proj1 (isIdentChar_facts x Hx)). }
  assert (LC : toLowerCase s = s).
  { apply map_id_on. intros x Hx. rewrite forallb_forall in I.
    now apply isIdentChar_facts, I. }
  rewrite (trim_no_space s NS), LC. unfold replaceWhiteSpaceRuns.
  rewrite (replaceRuns_no_space _ s false NS), (filter_all _ s I).
  destruct s as [|d t]; [reflexivity|].
  cbn [startsWithDigit] in D. now rewrite D.
Qed.

(** A string that already is a column name is left as it is. *)
Lemma sanitizeColumnName_fixed : forall s,
  forallb isIdentChar s = true -> startsWithDigit s = false -> length s <= 64 ->
  sanitizeColumnName s = s.
Proof.
  intros s I D L. rewrite (sanitizeColumnName_ident s I D). now apply firstn_all2.
Qed.

(** X1.  Sanitising is idempotent: a sanitised column name is a fixed point
    of [sanitizeColumnName]. *)
Theorem X1_sanitizeColumnName_idempotent : forall header,
  sanitizeColumnName (sanitizeColumnName header) = sanitizeColumnName header.
Proof.
  intros header. apply sanitizeColumnName_fixed;
    rewrite sanitizeColumnName_by_spec; unfold sanitized_by_spec.
  - apply forallb_firstn, prefixLeadingDigit_ident, forallb_filter_self.
  - apply startsWithDigit_firstn, prefixLeadingDigit_start.
  - apply firstn_le_length.
Qed.

Lemma nth_error_forEachIndexed : forall (A B : Type) (f : nat -> A -> B) l i0 i,
  nth_error (forEachIndexed f i0 l) i = option_map (f (i0 + i)) (nth_error l i).
Proof.
  induction l as [|x l IH]; intros i0 [|i]; cbn; try reflexivity.
  - now rewrite Nat.add_0_r.
  - rewrite IH. now rewrite Nat.add_succ_r.
Qed.

Lemma map_forEachIndexed : forall (A B C : Type) (g : B -> C) (f : nat -> A -> B) l i0,
  map g (forEachIndexed f i0 l) = forEachIndexed (fun i x => g (f i x)) i0 l.
Proof.
  induction l as [|x l IH]; intros i0; cbn; [reflexivity|]. now rewrite IH.
Qed.

Lemma forEachIndexed_const : forall (A B : Type) (g : A -> B) l i0,
  forEachIndexed (fun _ x => g x) i0 l = map g l.
Proof.
  induction l as [|x l IH]; intros i0; cbn; [reflexivity|]. now rewrite IH.
Qed.

Lemma name_inferColumn : forall rs i h, name (inferColumn rs i h) = sanitizeColumnName h.
Proof. intros rs i h. unfold inferColumn. now destruct (scanColumn i rs). Qed.

(** The merge with what a cell says, from VARCHAR or TEXT. *)
Lemma merge_wide : forall a t,
  a = VARCHAR \/ a = TEXT ->
  (mergeDataTypes a t = TEXT /\ (a = TEXT \/ t = TEXT)) \/
  (mergeDataTypes a t = VARCHAR /\ a = VARCHAR /\ t <> TEXT).
Proof. intros a t [-> | ->]; destruct t; cbn; intuition congruence. Qed.

(** The cells of column [colIndex] that [inferSchema] looks at. *)

Lemma fold_scanCell_spec : forall colIndex rs acc,
  fst acc = VARCHAR \/ fst acc = TEXT ->
  let res := fold_left (scanCell colIndex) rs acc in
  (fst res = TEXT <->
   fst acc = TEXT \/
   exists cell, scannedCell rs colIndex cell /\ inferDataType (cleanValue cell) = TEXT) /\
  (fst res = VARCHAR \/ fst res = TEXT) /\
  snd acc <= snd res /\
  (forall cell, scannedCell rs colIndex cell -> length (cleanValue cell) <= snd res) /\
  (snd res = snd acc \/
   exists cell, scannedCell rs colIndex cell /\ length (cleanValue cell) = snd res).
Proof.
  intros colIndex rs. induction rs as [|r rs IH]; intros acc W; cbn zeta.
  - cbn. split; [|split; [|split; [|split]]]; try tauto; try lia.
    + split; [tauto|]. intros [H | (cell & (r & [] & _) & _)]. exact H.
    + intros cell (r & [] & _).
  - cbn [fold_left].
    assert (S1 : (fst (scanCell colIndex acc r) = VARCHAR \/
                  fst (scanCell colIndex acc r) = TEXT) /\
                 snd acc <= snd (scanCell colIndex acc r) /\
                 (fst (scanCell colIndex acc r) = TEXT <->
                  fst acc = TEXT \/
                  exists cell, truthyCell r colIndex = Some cell /\
                               inferDataType (cleanValue cell) = TEXT) /\
                 (forall cell, truthyCell r colIndex = Some cell ->
                               length (cleanValue cell) <= snd (scanCell colIndex acc r)) /\
                 (snd (scanCell colIndex acc r) = snd acc \/
                  exists cell, truthyCell r colIndex = Some cell /\
                               length (cleanValue cell) = snd (scanCell colIndex acc r))).
    { unfold scanCell. destruct (truthyCell r colIndex) as [cell|]; cbn [fst snd].
      - assert (A1 : Nat.max (snd acc) (length (cleanValue cell)) = snd acc \/
                     exists cell0, Some cell = Some cell0 /\
                       length (cleanValue cell0) =
                       Nat.max (snd acc) (length (cleanValue cell))).
        { destruct (Nat.max_spec (snd acc) (length (cleanValue cell))) as [[_ E]|[_ E]].
          - right. exists cell. split; [reflexivity | now rewrite E].
          - now left. }
        destruct (merge_wide (inferDataType (cleanValue cell)) W)
          as [(M & H) | (M & A & T)]; rewrite M.
        + repeat split; try tauto; try lia.
          * intros _. destruct H as [H|H]; [now left|]. right. now exists cell.
          * intros c E. injection E as <-. lia.
        + repeat split; try tauto; try lia.
          * discriminate.
          * intros [H | (c & E & H)]; [congruence|]. injection E as <-. contradiction.
          * intros c E. injection E as <-. lia.
      - repeat split; try tauto; try lia.
        + intros [H | (c & E & _)]; [exact H | discriminate E].
        + intros c E. discriminate E. }
    destruct S1 as (W1 & L1 & T1 & C1 & A1).
    destruct (IH (scanCell colIndex acc r) W1) as (T2 & W2 & L2 & C2 & A2).
    split; [|split; [|split; [|split]]]; try assumption; try lia; [split| |].
    + intros H. apply T2 in H. destruct H as [H | (cell & (r' & I & E) & H)].
      * apply T1 in H. destruct H as [H | (cell & E & H)]; [now left|].
        right. exists cell. split; [|exact H]. exists r. split; [now left | exact E].
      * right. exists cell. split; [|exact H]. exists r'. split; [now right | exact E].
    + intros [H | (cell & (r' & [<- | I] & E) & H)]; apply T2.
      * left. apply T1. now left.
      * left. apply T1. right. now exists cell.
      * right. exists cell. split; [|exact H]. now exists r'.
    + intros cell (r' & [<- | I] & E).
      * specialize (C1 cell E). lia.
      * apply C2. now exists r'.
    + destruct A2 as [A2 | (cell & (r' & I & E) & A2)].
      * destruct A1 as [A1 | (cell & E & A1)]; [left; congruence|].
        right. exists cell. split; [|congruence]. exists r. split; [now left | exact E].
      * right. exists cell. split; [|exact A2]. exists r'. split; [now right | exact E].
Qed.

(** X2.  [inferSchema] yields one column per header, in header order, named
    by the sanitised header.  A column is TEXT exactly when one of its
    non-empty cells classifies as TEXT, and VARCHAR otherwise; a TEXT column
    carries no length, a VARCHAR column carries the larger of 255 and the
    length of its longest cleaned cell. *)
Theorem X2_inferSchema_columns : forall headers rs,
  map name (columns (inferSchema headers rs)) = map sanitizeColumnName headers /\
  forall i c,
    nth_error (columns (inferSchema headers rs)) i = Some c ->
    (type c = TEXT <->
     exists cell, scannedCell rs i cell /\ inferDataType (cleanValue cell) = TEXT) /\
    ((type c = TEXT /\ maxLength c = None) \/
     (type c = VARCHAR /\
      exists n, maxLength c = Some n /\ 255 <= n /\
                (forall cell, scannedCell rs i cell -> length (cleanValue cell) <= n) /\
                (n = 255 \/
                 exists cell, scannedCell rs i cell /\ length (cleanValue cell) = n))).
Proof.
  intros headers rs. split.
  - unfold inferSchema. cbn [columns].
    rewrite map_forEachIndexed.
    rewrite (forEachIndexed_ext _ (fun _ h => sanitizeColumnName h));
      [apply forEachIndexed_const | intros; apply name_inferColumn].
  - intros i c H. unfold inferSchema in H. cbn [columns] in H.
    rewrite nth_error_forEachIndexed in H. cbn [Nat.add] in H.
    destruct (nth_error headers i) as [h|]; [|discriminate]. cbn [option_map] in H.
    injection H as <-. unfold inferColumn, scanColumn.
    pose proof (fold_scanCell_spec i rs (VARCHAR, 0) (or_introl eq_refl)) as Sp.
    cbn zeta in Sp. destruct Sp as (T & W & _ & C & A).
    destruct (fold_left (scanCell i) rs (VARCHAR, 0)) as [ty len].
    cbn [fst snd type maxLength] in *. split.
    + rewrite T. split; [intros [H|H]; [discriminate | exact H] | now right].
    + destruct W as [-> | ->]; cbn [DataType_eqb].
      * right. split; [reflexivity|]. exists (Nat.max 255 len).
        split; [reflexivity|]. split; [lia|]. split.
        -- intros cell Hc. specialize (C cell Hc). lia.
        -- destruct (Nat.max_spec 255 len) as [[Lt E]|[Le E]]; rewrite E; [|now left].
           destruct A as [A | A]; [lia | now right].
      * now left.
Qed.

Lemma X2_inferSchema_columns_witness :
  exists c,
    nth_error (columns (inferSchema [str "Name"; str "Age"] [[str "John"; str "30"]])) 1
      = Some c /\
    (type c = TEXT <->
     exists cell, scannedCell [[str "John"; str "30"]] 1 cell /\
                  inferDataType (cleanValue cell) = TEXT).
Proof.
  eexists. split; [vm_compute; reflexivity|].
  exact (proj1 (proj2 (X2_inferSchema_columns [str "Name"; str "Age"]
                         [[str "John"; str "30"]]) 1 _ eq_refl)).
Defined.


Lemma filter_keep_all : forall (A : Type) (p : A -> bool) l,
  (forall x, In x l -> p x = true) -> filter p l = l.
Proof.
  intros A p l H. apply filter_all. now apply forallb_forall.
Qed.

Lemma convertValue_wide : forall cell t,
  t = VARCHAR \/ t = TEXT -> convertValue cell t = textOrNull cell.
Proof. intros cell t [-> | ->]; reflexivity. Qed.

Lemma textOrNull_nullOrString : forall cell, nullOrString (textOrNull cell).
Proof.
  intros cell. unfold textOrNull, nullOrString.
  destruct (isNullMarker _); [now left | right; now eexists].
Qed.

(** The columns of an inferred schema are VARCHAR or TEXT. *)
Lemma inferColumn_wide : forall rs i h,
  type (inferColumn rs i h) = VARCHAR \/ type (inferColumn rs i h) = TEXT.
Proof.
  intros rs i h. unfold inferColumn.
  pose proof (scanColumn_varchar_or_text i rs) as W.
  destruct (scanColumn i rs). exact W.
Qed.

Lemma inferSchema_wide : forall headers rs, wideSchema (inferSchema headers rs).
Proof.
  intros headers rs. unfold wideSchema, inferSchema. cbn [columns].
  generalize 0. induction headers as [|h hs IH]; intros i0; cbn; constructor.
  - apply inferColumn_wide.
  - apply IH.
Qed.

Lemma names_inferSchema : forall headers rs,
  map name (columns (inferSchema headers rs)) = map sanitizeColumnName headers.
Proof.
  intros headers rs. unfold inferSchema. cbn [columns]. rewrite map_forEachIndexed.
  rewrite (forEachIndexed_ext _ (fun _ h => sanitizeColumnName h));
    [apply forEachIndexed_const | intros; apply name_inferColumn].
Qed.

(** A sanitised name does not start with a digit: it is no array index. *)
Lemma sanitizeColumnName_no_index : forall header,
  arrayIndex (sanitizeColumnName header) = None.
Proof.
  intros header. destruct (arrayIndex (sanitizeColumnName header)) as [n|] eqn:A;
    [|reflexivity].
  apply arrayIndex_digit in A as (d & t & E & Hd).
  assert (D : startsWithDigit (sanitizeColumnName header) = false).
  { rewrite sanitizeColumnName_by_spec. unfold sanitized_by_spec.
    apply startsWithDigit_firstn, prefixLeadingDigit_start. }
  rewrite E in D. cbn in D. congruence.
Qed.

Lemma convertRow_fold : forall s cells,
  convertRow s cells =
  fold_left (setColumn cells)
            (forEachIndexed (fun idx column => (idx, column)) 0 (columns s)) (object []).
Proof.
  intros s cells. unfold convertRow. generalize (object []).
  generalize (forEachIndexed (fun idx column => (idx, column)) 0 (columns s)).
  induction l as [|[i c] l IH]; intros acc; cbn; [reflexivity|]. apply IH.
Qed.

Lemma fold_setColumn_keys : forall cells l acc,
  NoDup (keys acc) ->
  NoDup (keys (fold_left (setColumn cells) l acc)) /\
  (forall x, In x (keys (fold_left (setColumn cells) l acc)) ->
             In x (keys acc) \/ In x (map (fun ic => name (snd ic)) l)) /\
  (forall x, In x (keys acc) -> In x (keys (fold_left (setColumn cells) l acc))) /\
  (forall x, In x (map (fun ic => name (snd ic)) l) -> isProto x = false ->
             In x (keys (fold_left (setColumn cells) l acc))).
Proof.
  intros cells. induction l as [|ic l IH]; intros acc N; cbn [fold_left map].
  - repeat split; auto. intros x [].
  - destruct (keys_setProp acc (name (snd ic))
                (convertValue (cellOrEmpty cells (fst ic)) (type (snd ic))) N)
      as (N1 & K1 & K2 & K3).
    destruct (IH (setColumn cells acc ic) N1) as (N2 & L1 & L2 & L3).
    split; [exact N2|]. split; [|split].
    + intros x I. apply L1 in I as [I | I]; [|right; now right].
      apply K1 in I as [I | ->]; [now left | right; now left].
    + intros x I. now apply L2, K2.
    + intros x [<- | I] P; [now apply L2, K3 | now apply L3].
Qed.

Lemma fold_setColumn_values : forall (Q : JsValue -> Prop) cells l acc,
  Forall (fun kv => Q (snd kv)) acc.(properties) ->
  Forall (fun ic => Q (convertValue (cellOrEmpty cells (fst ic)) (type (snd ic)))) l ->
  Forall (fun kv => Q (snd kv)) (fold_left (setColumn cells) l acc).(properties).
Proof.
  intros Q cells. induction l as [|ic l IH]; intros acc F G; cbn [fold_left]; [exact F|].
  inversion G; subst. apply IH; [|assumption].
  unfold setColumn. now apply values_setProp.
Qed.

(** Columns under new names, none of them [__proto__] or an array index:
    each makes a property at the end. *)
Lemma fold_setColumn_plain : forall cells l acc,
  NoDup (keys acc ++ map (fun ic => name (snd ic)) l) ->
  Forall (fun ic => isProto (name (snd ic)) = false /\
                    arrayIndex (name (snd ic)) = None) l ->
  fold_left (setColumn cells) l acc =
  {| prototype := acc.(prototype);
     properties :=
       acc.(properties)
         ++ map (fun ic => (name (snd ic),
                            convertValue (cellOrEmpty cells (fst ic)) (type (snd ic)))) l |}.
Proof.
  intros cells. induction l as [|ic l IH]; intros acc N F; cbn [fold_left map].
  - rewrite app_nil_r. now destruct acc.
  - inversion F as [|? ? [P A] F']; subst.
    assert (Fr : ~ In (name (snd ic)) (keys acc)).
    { intros I. apply NoDup_remove_2 in N. apply N. apply in_or_app. now left. }
    unfold setColumn at 2. rewrite (@setProp_fresh _ _ _ Fr P A), IH.
    + cbn [prototype properties]. now rewrite <- app_assoc.
    + unfold keys. cbn [properties]. rewrite map_app. cbn. rewrite <- app_assoc. exact N.
    + exact F'.
Qed.

(** Columns under new names, none of them an array index, for a row that
    inherits from [Object.prototype]: a column named [__proto__] makes no
    property. *)
Lemma fold_setColumn_fresh : forall cells l acc,
  NoDup (keys acc ++ map (fun ic => name (snd ic)) l) ->
  Forall (fun ic => arrayIndex (name (snd ic)) = None) l ->
  acc.(prototype) = ObjectPrototype ->
  let entries :=
    map (fun ic => (name (snd ic),
                    convertValue (cellOrEmpty cells (fst ic)) (type (snd ic)))) l in
  fold_left (setColumn cells) l acc =
  {| prototype :=
       if existsb (fun kv => isProto (fst kv) && isNull (snd kv)) entries
       then NullPrototype else ObjectPrototype;
     properties :=
       acc.(properties) ++ filter (fun kv => negb (isProto (fst kv))) entries |}.
Proof.
  intros cells. induction l as [|ic l IH]; intros acc N F O; cbn zeta;
    cbn [fold_left map existsb filter fst snd].
  - rewrite app_nil_r. destruct acc. cbn in O. now subst.
  - inversion F as [|? ? A F']; subst.
    assert (Fr : ~ In (name (snd ic)) (keys acc)).
    { intros I. apply NoDup_remove_2 in N. apply N. apply in_or_app. now left. }
    assert (N' : forall p, NoDup (keys {| prototype := p; properties := properties acc |}
                                  ++ map (fun ic => name (snd ic)) l)).
    { intros p. unfold keys. cbn [properties]. now apply NoDup_remove_1 in N. }
    destruct (isProto (name (snd ic))) eqn:P; cbn [negb andb orb].
    + unfold setColumn at 2. rewrite (@setProp_proto _ _ _ Fr P O).
      assert (Pl : Forall (fun ic' => isProto (name (snd ic')) = false /\
                                      arrayIndex (name (snd ic')) = None) l).
      { rewrite Forall_forall in *. intros ic' I. split; [|now apply F'].
        destruct (isProto (name (snd ic'))) eqn:P'; [|reflexivity]. exfalso.
        unfold isProto in P, P'. apply eqs_spec in P, P'.
        apply NoDup_remove_2 in N. apply N. apply in_or_app. right.
        rewrite P, <- P'. apply in_map_iff. now exists ic'. }
      rewrite (@fold_setColumn_plain cells _ _ (N' _) Pl). cbn [prototype properties].
      assert (E1 : filter (fun kv : jsstring * JsValue => negb (isProto (fst kv)))
                     (map (fun ic => (name (snd ic),
                            convertValue (cellOrEmpty cells (fst ic)) (type (snd ic)))) l)
                   = map (fun ic => (name (snd ic),
                            convertValue (cellOrEmpty cells (fst ic)) (type (snd ic)))) l).
      { apply filter_keep_all. intros kv I. apply in_map_iff in I as (ic' & <- & I).
        rewrite Forall_forall in Pl. cbn [fst]. now rewrite (proj1 (Pl ic' I)). }
      assert (E2 : existsb (fun kv : jsstring * JsValue => isProto (fst kv) && isNull (snd kv))
                     (map (fun ic => (name (snd ic),
                            convertValue (cellOrEmpty cells (fst ic)) (type (snd ic)))) l)
                   = false).
      { apply not_true_is_false. intros X. apply existsb_exists in X as (kv & I & X).
        apply in_map_iff in I as (ic' & <- & I). rewrite Forall_forall in Pl.
        cbn [fst] in X. now rewrite (proj1 (Pl ic' I)) in X. }
      rewrite E1, E2, orb_false_r. reflexivity.
    + unfold setColumn at 2. rewrite (@setProp_fresh _ _ _ Fr P A).
      rewrite IH; cbn [prototype properties].
      * now rewrite <- app_assoc.
      * unfold keys. cbn [properties]. rewrite map_app. cbn. rewrite <- app_assoc. exact N.
      * exact F'.
      * exact O.
Qed.

Lemma names_indexed : forall (l : list ColumnSchema) i0,
  map (fun ic : nat * ColumnSchema => name (snd ic))
      (forEachIndexed (fun idx column => (idx, column)) i0 l) = map name l.
Proof.
  induction l as [|c l IH]; intros i0; cbn; [reflexivity|]. now rewrite IH.
Qed.

Lemma Forall_indexed : forall (Q : nat -> ColumnSchema -> Prop) (l : list ColumnSchema) i0,
  (forall i c, In c l -> Q i c) ->
  Forall (fun ic => Q (fst ic) (snd ic)) (forEachIndexed (fun idx column => (idx, column)) i0 l).
Proof.
  induction l as [|c l IH]; intros i0 H; cbn; constructor.
  - apply H. now left.
  - apply IH. intros i c' Hc. apply H. now right.
Qed.

Lemma map_indexed_wide : forall cells (l : list ColumnSchema) i0,
  Forall (fun c => type c = VARCHAR \/ type c = TEXT) l ->
  map (fun ic : nat * ColumnSchema =>
         (name (snd ic), convertValue (cellOrEmpty cells (fst ic)) (type (snd ic))))
      (forEachIndexed (fun idx column => (idx, column)) i0 l) =
  forEachIndexed (fun i c => (name c, textOrNull (cellOrEmpty cells i))) i0 l.
Proof.
  intros cells l. induction l as [|c l IH]; intros i0 W; cbn; [reflexivity|].
  inversion W; subst. rewrite IH by assumption.
  now rewrite convertValue_wide.
Qed.

Lemma inferred_no_index : forall headers rs,
  Forall (fun c => arrayIndex (name c) = None) (columns (inferSchema headers rs)).
Proof.
  intros headers rs. apply Forall_forall. intros c I.
  assert (J : In (name c) (map name (columns (inferSchema headers rs))))
    by now apply in_map.
  rewrite names_inferSchema in J. apply in_map_iff in J as (h & <- & _).
  apply sanitizeColumnName_no_index.
Qed.

(** X3.  [parseTable] yields as many rows as there are table rows it keeps.
    The keys of every row are column names of the schema, each once, and
    every column name other than [__proto__] is a key of every row; every
    value is null or a string, never a number or a boolean. *)
Theorem X3_parseTable_rows : forall headers trs,
  length (rows (parseTable headers trs)) = length (filter (keepRow headers) trs) /\
  forall row,
    In row (rows (parseTable headers trs)) ->
    NoDup (keys row) /\
    (forall k, In k (keys row) -> In k (map sanitizeColumnName headers)) /\
    (forall k, In k (map sanitizeColumnName headers) -> k <> str "__proto__" ->
               In k (keys row)) /\
    (forall k v, In (k, v) row.(properties) -> v = VNull \/ exists s, v = VString s).
Proof.
  intros headers trs. unfold parseTable. cbn [rows]. split; [apply length_map|].
  intros row H. apply in_map_iff in H as (cells & <- & _).
  set (s := inferSchema headers (filter (keepRow headers) trs)).
  rewrite convertRow_fold.
  destruct (@fold_setColumn_keys cells
              (forEachIndexed (fun idx column => (idx, column)) 0 (columns s))
              (object []) (NoDup_nil _)) as (N & K1 & _ & K3).
  assert (E : map name (columns s) = map sanitizeColumnName headers)
    by apply names_inferSchema.
  rewrite names_indexed, E in K1, K3.
  split; [exact N|]. split; [|split].
  - intros k I. apply K1 in I as [[] | I]. exact I.
  - intros k I P. apply K3; [exact I|]. now apply eqs_false.
  - intros k v I.
    assert (F : Forall (fun kv : jsstring * JsValue => nullOrString (snd kv))
                  (fold_left (setColumn cells)
                     (forEachIndexed (fun idx column => (idx, column)) 0 (columns s))
                     (object [])).(properties)).
    { apply fold_setColumn_values; [constructor|].
      apply (Forall_indexed
               (fun i c => nullOrString (convertValue (cellOrEmpty cells i) (type c)))).
      intros i c Hc. rewrite convertValue_wide; [apply textOrNull_nullOrString|].
      pose proof (inferSchema_wide headers (filter (keepRow headers) trs)) as W.
      unfold wideSchema in W. rewrite Forall_forall in W. now apply W. }
    rewrite Forall_forall in F. exact (F (k, v) I).
Qed.

Lemma X3_parseTable_rows_witness :
  In (object [(str "name", VString (str "John")); (str "age", VString (str "30"))])
     (rows (parseTable [str "Name"; str "Age"] [[str "John"; str "30"]; [str ""; str ""]])) /\
  NoDup (keys (object [(str "name", VString (str "John"));
                       (str "age", VString (str "30"))])).
Proof.
  assert (I : In (object [(str "name", VString (str "John"));
                          (str "age", VString (str "30"))])
     (rows (parseTable [str "Name"; str "Age"] [[str "John"; str "30"]; [str ""; str ""]])))
    by (vm_compute; now left).
  split; [exact I|].
  exact (proj1 (proj2 (X3_parseTable_rows [str "Name"; str "Age"]
                         [[str "John"; str "30"]; [str ""; str ""]]) _ I)).
Defined.

Lemma rows_parseTable_entries : forall headers trs,
  NoDup (map sanitizeColumnName headers) ->
  rows (parseTable headers trs) =
    map (rowObject (schema (parseTable headers trs))) (filter (keepRow headers) trs).
Proof.
  intros headers trs N. unfold parseTable. cbn [rows schema].
  apply map_ext. intros cells.
  set (s := inferSchema headers (filter (keepRow headers) trs)).
  rewrite convertRow_fold, fold_setColumn_fresh.
  - cbn [object prototype properties app]. unfold rowObject, cellEntries.
    now rewrite (@map_indexed_wide cells (columns s) 0 (inferSchema_wide _ _)).
  - cbn [object keys properties map app]. subst s.
    now rewrite names_indexed, names_inferSchema.
  - apply (Forall_indexed (fun _ c => arrayIndex (name c) = None)).
    intros _ c I. pose proof (inferred_no_index headers (filter (keepRow headers) trs)) as F.
    rewrite Forall_forall in F. now apply F.
  - reflexivity.
Qed.

(** X4.  When no two headers sanitise to the same name, every row of
    [parseTable] has exactly one own property per column that is not named
    [__proto__], in column order: the column name with null for a null
    marker and the cleaned cell text otherwise.  A column named [__proto__]
    makes no property; when its cell is a null marker the row is left
    without prototype.  No text stored under a column exceeds the length
    the schema gives the column. *)
Theorem X4_parseTable_entries : forall headers trs,
  NoDup (map sanitizeColumnName headers) ->
  rows (parseTable headers trs) =
    map (rowObject (schema (parseTable headers trs))) (filter (keepRow headers) trs) /\
  forall cells i c n,
    In cells (filter (keepRow headers) trs) ->
    nth_error (columns (schema (parseTable headers trs))) i = Some c ->
    maxLength c = Some n ->
    length (cleanValue (cellOrEmpty cells i)) <= n.
Proof.
  intros headers trs N. split; [now apply rows_parseTable_entries|].
  unfold parseTable. cbn [rows schema].
  set (kept := filter (keepRow headers) trs).
  intros cells i c n I H M. unfold inferSchema in H. cbn [columns] in H.
  rewrite nth_error_forEachIndexed in H. cbn [Nat.add] in H.
  destruct (nth_error headers i) as [h|]; [|discriminate]. cbn [option_map] in H.
  injection H as <-. unfold inferColumn, scanColumn in M.
  pose proof (fold_scanCell_spec i kept (VARCHAR, 0) (or_introl eq_refl)) as Sp.
  cbn zeta in Sp. destruct Sp as (_ & _ & _ & C & _).
  destruct (fold_left (scanCell i) kept (VARCHAR, 0)) as [ty len].
  cbn [fst snd maxLength] in *.
  destruct (DataType_eqb ty VARCHAR); [|discriminate].
  remember (Nat.max 255 len) as m eqn:Em. injection M as <-.
  unfold cellOrEmpty. destruct (truthyCell cells i) as [cell|] eqn:T.
  - assert (L : length (cleanValue cell) <= len) by (apply C; now exists cells). lia.
  - cbn. lia.
Qed.

Lemma X4_parseTable_entries_witness :
  NoDup (map sanitizeColumnName [str "Name"; str "__proto__"]) /\
  rows (parseTable [str "Name"; str "__proto__"] [[str "John"; str "N/A"]]) =
  map (rowObject (schema (parseTable [str "Name"; str "__proto__"]
                            [[str "John"; str "N/A"]])))
      (filter (keepRow [str "Name"; str "__proto__"]) [[str "John"; str "N/A"]]) /\
  rows (parseTable [str "Name"; str "__proto__"] [[str "John"; str "N/A"]]) =
  [ {| prototype := NullPrototype;
       properties := [(str "name", VString (str "John"))] |} ].
Proof.
  assert (N : NoDup (map sanitizeColumnName [str "Name"; str "__proto__"])).
  { vm_compute. repeat constructor; cbn; intuition discriminate. }
  split; [exact N|]. split; [|vm_compute; reflexivity].
  exact (proj1 (X4_parseTable_entries [str "Name"; str "__proto__"]
                  [[str "John"; str "N/A"]] N)).
Defined.

(** ** Headers that sanitise to the same name *)

Lemma getOwn_fold_other : forall cells l acc k,
  (forall ic, In ic l -> name (snd ic) <> k) ->
  getOwn (fold_left (setColumn cells) l acc).(properties) k = getOwn acc.(properties) k.
Proof.
  intros cells. induction l as [|x l IH]; intros acc k H; [reflexivity|].
  cbn [fold_left]. rewrite IH by (intros ic I; apply H; now right).
  unfold setColumn. apply getOwn_setProp_other. apply H. now left.
Qed.

Lemma getOwn_fold_last : forall cells cols i0 acc i c,
  nth_error cols i = Some c ->
  isProto (name c) = false ->
  (forall j c', i < j -> nth_error cols j = Some c' -> name c' <> name c) ->
  getOwn (fold_left (setColumn cells)
            (forEachIndexed (fun idx column => (idx, column)) i0 cols) acc).(properties)
         (name c)
  = Some (convertValue (cellOrEmpty cells (i0 + i)) (type c)).
Proof.
  intros cells. induction cols as [|x cols IH]; intros i0 acc i c N P L; [now destruct i|].
  cbn [forEachIndexed fold_left]. destruct i as [|i]; cbn in N.
  - injection N as ->. rewrite getOwn_fold_other.
    + unfold setColumn. cbn [fst snd]. rewrite (@getOwn_setProp_plain _ _ _ _ P), Nat.add_0_r.
      now rewrite eqs_refl.
    + intros ic I. apply In_nth_error in I as [j Hj].
      rewrite nth_error_forEachIndexed in Hj.
      destruct (nth_error cols j) as [c'|] eqn:Nj; [|discriminate].
      cbn in Hj. injection Hj as <-. cbn [snd]. apply (L (S j) c'); [lia | exact Nj].
  - rewrite (IH (S i0) _ i c N P); [f_equal; f_equal; f_equal; lia|].
    intros j c' Lt Nj. apply (L (S j) c'); [lia | exact Nj].
Qed.

(** X5.  When several headers sanitise to the same name, other than
    [__proto__], the row object of [parseTable] holds one value under that
    name: the one of the last such column.  In general what is read under
    the name of a column is the converted cell of that column whenever the
    name is not [__proto__] and no later column has it. *)
Theorem X5_last_column_wins : forall headers trs cells i c,
  In cells (filter (keepRow headers) trs) ->
  nth_error (columns (schema (parseTable headers trs))) i = Some c ->
  name c <> str "__proto__" ->
  (forall j c', i < j ->
     nth_error (columns (schema (parseTable headers trs))) j = Some c' ->
     name c' <> name c) ->
  In (convertRow (schema (parseTable headers trs)) cells) (rows (parseTable headers trs)) /\
  getOwn (convertRow (schema (parseTable headers trs)) cells).(properties) (name c) =
    Some (textOrNull (cellOrEmpty cells i)) /\
  getProp (convertRow (schema (parseTable headers trs)) cells) (name c) =
    Value (textOrNull (cellOrEmpty cells i)).
Proof.
  intros headers trs cells i c I N P L.
  assert (G : getOwn (convertRow (schema (parseTable headers trs)) cells).(properties)
                (name c) = Some (textOrNull (cellOrEmpty cells i))).
  { rewrite convertRow_fold, (@getOwn_fold_last cells _ 0 (object []) i c N).
    - cbn [Nat.add]. f_equal. apply convertValue_wide.
      pose proof (inferSchema_wide headers (filter (keepRow headers) trs)) as W.
      unfold wideSchema in W. rewrite Forall_forall in W. apply W.
      unfold parseTable in N. cbn [schema] in N. eapply nth_error_In; eauto.
    - now apply eqs_false.
    - exact L. }
  split; [|split; [exact G|]].
  - unfold parseTable. cbn [rows schema]. now apply in_map.
  - unfold getProp. now rewrite G.
Qed.

Lemma X5_last_column_wins_witness :
  getProp (convertRow (schema (parseTable [str "Name"; str "name"] [[str "Ann"; str "Bob"]]))
             [str "Ann"; str "Bob"]) (str "name")
  = Value (textOrNull (cellOrEmpty [str "Ann"; str "Bob"] 1)).
Proof.
  refine (proj2 (proj2 (@X5_last_column_wins [str "Name"; str "name"]
                   [[str "Ann"; str "Bob"]] [str "Ann"; str "Bob"] 1
                   {| name := str "name"; type := VARCHAR; maxLength := Some 255 |}
                   _ _ _ _))).
  - vm_compute. now left.
  - reflexivity.
  - cbn. discriminate.
  - intros j c' Lt Nj. destruct j as [|[|j]]; [lia | lia |].
    vm_compute in Nj. destruct j; discriminate Nj.
Defined.

(** ** What [cleanValue] leaves *)

Lemma trimStart_suffix : forall s, exists a, s = a ++ trimStart s.
Proof.
  induction s as [|c s [a IH]]; [now exists []|]. cbn.
  destruct (isWhiteSpace c).
  - exists (c :: a). cbn. now f_equal.
  - now exists [].
Qed.

Lemma trim_infix : forall s, exists a b, s = a ++ trim s ++ b.
Proof.
  intros s. destruct (trimStart_suffix s) as [a Ha].
  destruct (trimStart_suffix (rev (trimStart s))) as [b Hb].
  exists a, (rev b). unfold trim, trimEnd.
  rewrite <- rev_app_distr, <- Hb, rev_involutive. exact Ha.
Qed.

Lemma trimStart_ink : forall s c t, trimStart s = c :: t -> isWhiteSpace c = false.
Proof.
  induction s as [|x s IH]; intros c t H; [discriminate|]. cbn in H.
  destruct (isWhiteSpace x) eqn:E; [now apply (IH c t)|]. now injection H as <- _.
Qed.

Lemma hasInk_stripEnd : forall s, hasInk (stripEnd s) = hasInk s.
Proof.
  induction s as [|c s IH]; [reflexivity|]. cbn [stripEnd].
  rewrite (hasInk_cons c s).
  destruct (isWhiteSpace c) eqn:E; cbn [negb andb orb].
  - destruct (hasInk s) eqn:I; cbn [negb]; [|reflexivity].
    now rewrite hasInk_cons, E, IH.
  - now rewrite hasInk_cons, E.
Qed.

Lemma stripEnd_last : forall s t c, stripEnd s = t ++ [c] -> isWhiteSpace c = false.
Proof.
  induction s as [|a s IH]; intros t c H; [now destruct t|]. cbn [stripEnd] in H.
  destruct (isWhiteSpace a && negb (hasInk s)) eqn:E; [now destruct t|].
  destruct t as [|x t]; cbn in H; injection H as -> H.
  - destruct (isWhiteSpace c) eqn:W; [|reflexivity]. cbn in E.
    apply negb_false_iff in E. rewrite <- hasInk_stripEnd, H in E. discriminate E.
  - now apply (IH t).
Qed.

Lemma trim_head : forall s c t, trim s = c :: t -> isWhiteSpace c = false.
Proof.
  intros s c t H. unfold trim in H. rewrite trimEnd_stripEnd in H.
  destruct (trimStart s) as [|x u] eqn:E; [discriminate|].
  pose proof (trimStart_ink s E) as W.
  cbn in H. rewrite W in H. now injection H as <- _.
Qed.

Lemma trim_last : forall s t c, trim s = t ++ [c] -> isWhiteSpace c = false.
Proof.
  intros s t c H. unfold trim in H. rewrite trimEnd_stripEnd in H.
  exact (@stripEnd_last _ _ _ H).
Qed.

Lemma In_replaceRuns : forall by_ s inRun c,
  In c (replaceRuns by_ inRun s) -> In c by_ \/ (In c s /\ isWhiteSpace c = false).
Proof.
  induction s as [|x s IH]; intros inRun c H; [contradiction|]. cbn in H.
  destruct (isWhiteSpace x) eqn:W.
  - destruct inRun.
    + destruct (IH _ _ H) as [I|[I N]]; [now left | right; split; [now right | exact N]].
    + apply in_app_or in H as [H|H]; [now left|].
      destruct (IH _ _ H) as [I|[I N]]; [now left | right; split; [now right | exact N]].
  - destruct H as [<- | H]; [right; split; [now left | exact W]|].
    destruct (IH _ _ H) as [I|[I N]]; [now left | right; split; [now right | exact N]].
Qed.

Lemma In_removeBracketed : forall s skip c, In c (removeBracketed skip s) -> In c s.
Proof.
  induction s as [|x s IH]; intros skip c H; [contradiction|]. cbn in H.
  destruct skip as [|k]; [|right; now apply (IH k)].
  destruct (eqc x "["%char).
  - destruct (closingBracket s) as [n|].
    + right. now apply (IH n).
    + destruct H as [<- | H]; [now left | right; now apply (IH 0)].
  - destruct H as [<- | H]; [now left | right; now apply (IH 0)].
Qed.

Lemma In_trim : forall s c, In c (trim s) -> In c s.
Proof.
  intros s c H. destruct (trim_infix s) as (a & b & E). rewrite E.
  apply in_or_app. right. apply in_or_app. now left.
Qed.

(** [closingBracket] on a text without line terminators. *)
Lemma closingBracket_spec : forall s,
  forallb (fun c => negb (isLineTerminator c)) s = true ->
  match closingBracket s with
  | Some n => exists b c, s = b ++ "]"%char :: c /\ n = S (length b)
  | None => existsb (fun x => eqc x "]"%char) s = false
  end.
Proof.
  induction s as [|x s IH]; intros L; [reflexivity|]. cbn in L.
  apply andb_true_iff in L as [Lx L]. apply negb_true_iff in Lx.
  cbn [closingBracket existsb]. destruct (eqc x "]"%char) eqn:E.
  - exists [], s. apply Ascii.eqb_eq in E. subst x. now split.
  - rewrite Lx. specialize (IH L). destruct (closingBracket s) as [n|]; cbn.
    + destruct IH as (b & c & -> & ->). now exists (x :: b), c.
    + exact IH.
Qed.

Lemma removeBracketed_skip : forall b skip c,
  skip = length b -> removeBracketed skip (b ++ c) = removeBracketed 0 c.
Proof.
  induction b as [|x b IH]; intros skip c ->; [reflexivity|].
  cbn. now apply IH.
Qed.

Lemma existsb_removeBracketed : forall p s skip,
  existsb p s = false -> existsb p (removeBracketed skip s) = false.
Proof.
  intros p s skip H. destruct (existsb p (removeBracketed skip s)) eqn:E; [|reflexivity].
  apply existsb_exists in E as (x & I & Px).
  apply In_removeBracketed in I.
  assert (T : existsb p s = true) by (apply existsb_exists; now exists x).
  congruence.
Qed.

Lemma removeBracketed_no_group : forall n s,
  length s <= n ->
  forallb (fun c => negb (isLineTerminator c)) s = true ->
  hasBracketGroup (removeBracketed 0 s) = false.
Proof.
  induction n as [|n IH]; intros s Len L.
  - destruct s; [reflexivity | cbn in Len; lia].
  - destruct s as [|x s]; [reflexivity|]. cbn in Len, L.
    apply andb_true_iff in L as [Lx L]. cbn [removeBracketed].
    destruct (eqc x "["%char) eqn:E.
    + pose proof (closingBracket_spec s L) as C.
      destruct (closingBracket s) as [k|].
      * destruct C as (b & c & -> & ->).
        change (b ++ "]"%char :: c) with (b ++ ["]"%char] ++ c).
        rewrite app_assoc, removeBracketed_skip
          by (rewrite length_app; cbn; lia).
        apply IH.
        -- rewrite length_app in Len. cbn in Len. lia.
        -- rewrite forallb_app in L. apply andb_true_iff in L as [_ L].
           cbn in L. now apply andb_true_iff in L as [_ L].
      * cbn [hasBracketGroup]. rewrite (existsb_removeBracketed _ s 0 C).
        rewrite andb_false_r. cbn [orb]. apply IH; [lia | exact L].
    + cbn [hasBracketGroup]. rewrite E. cbn [andb orb]. apply IH; [lia | exact L].
Qed.

Lemma hasBracketGroup_spec : forall s,
  hasBracketGroup s = false ->
  forall a b c, s <> a ++ "["%char :: b ++ "]"%char :: c.
Proof.
  induction s as [|x s IH]; intros H a b c E; [now destruct a|].
  cbn in H. apply orb_false_iff in H as [H1 H2].
  destruct a as [|y a]; cbn in E; injection E as -> E.
  - cbn in H1. subst s.
    rewrite existsb_app in H1. cbn in H1. rewrite orb_true_r in H1. discriminate H1.
  - exact (IH H2 a b c E).
Qed.

Lemma replaceRuns_no_terminator : forall s inRun,
  forallb (fun c => negb (isLineTerminator c)) (replaceRuns (str " ") inRun s) = true.
Proof.
  intros s inRun. apply forallb_forall. intros c I.
  apply In_replaceRuns in I as [[<- | []] | [_ W]]; [reflexivity|].
  revert W. each_char c; cbn; intros W; try reflexivity; discriminate W.
Qed.

(** The white space of a cleaned text is made of spaces. *)
Lemma cleanValue_white_space : forall value c,
  In c (cleanValue value) -> isWhiteSpace c = true -> c = " "%char.
Proof.
  intros value c I W. unfold cleanValue in I.
  apply In_trim, In_removeBracketed in I.
  apply In_replaceRuns in I as [[<- | []] | [_ N]]; [reflexivity | congruence].
Qed.

(** A cleaned text has no opening bracket with a closing bracket after it. *)
Lemma cleanValue_no_group : forall value a b c,
  cleanValue value <> a ++ "["%char :: b ++ "]"%char :: c.
Proof.
  intros value a b c E. unfold cleanValue in E.
  set (r := removeBracketed 0 (replaceWhiteSpaceRuns (str " ") value)) in *.
  destruct (trim_infix r) as (p & q & R). rewrite E in R.
  assert (G : hasBracketGroup r = false).
  { apply (@removeBracketed_no_group (length (replaceWhiteSpaceRuns (str " ") value)));
      [lia | apply replaceRuns_no_terminator]. }
  apply (hasBracketGroup_spec G (p ++ a) b (c ++ q)).
  rewrite R. rewrite <- !app_assoc. cbn. rewrite <- !app_assoc. reflexivity.
Qed.

(** X6.  The text [cleanValue] returns neither starts nor ends with white
    space; its only white-space character is the space U+0020; and no
    opening bracket in it is followed by a closing bracket: no bracketed
    group is left. *)
Theorem X6_cleanValue_clean : forall value,
  (forall c t, cleanValue value = c :: t -> isWhiteSpace c = false) /\
  (forall t c, cleanValue value = t ++ [c] -> isWhiteSpace c = false) /\
  (forall c, In c (cleanValue value) -> isWhiteSpace c = true -> c = " "%char) /\
  (forall a b c, cleanValue value <> a ++ "["%char :: b ++ "]"%char :: c).
Proof.
  intros value. split; [|split; [|split]].
  - intros c t. unfold cleanValue. apply trim_head.
  - intros t c. unfold cleanValue. apply trim_last.
  - apply cleanValue_white_space.
  - apply cleanValue_no_group.
Qed.

Lemma X6_cleanValue_clean_witness :
  cleanValue (str "  1,234 [note 1] ") = str "1,234" /\
  isWhiteSpace "1"%char = false.
Proof.
  split; [vm_compute; reflexivity|].
  exact (proj1 (X6_cleanValue_clean (str "  1,234 [note 1] ")) "1"%char (str ",234") eq_refl).
Defined.

(** ** Cells that classify as integers *)

Lemma trimStart_fixed : forall s,
  (forall c t, s = c :: t -> isWhiteSpace c = false) -> trimStart s = s.
Proof.
  intros [|c t] H; [reflexivity|]. apply trimStart_head. now apply (H c t).
Qed.

Lemma stripEnd_fixed : forall s,
  (forall t c, s = t ++ [c] -> isWhiteSpace c = false) -> stripEnd s = s.
Proof.
  induction s as [|a s IH]; intros H; [reflexivity|]. cbn [stripEnd].
  destruct (isWhiteSpace a && negb (hasInk s)) eqn:E.
  - apply andb_true_iff in E as [Wa I]. apply negb_true_iff in I.
    destruct s as [|b s] using rev_ind.
    + rewrite (H [] a eq_refl) in Wa. discriminate Wa.
    + assert (Wb : isWhiteSpace b = false) by (apply (H (a :: s) b); reflexivity).
      rewrite hasInk_app in I. cbn in I. rewrite Wb in I. cbn in I.
      rewrite orb_true_r in I. discriminate I.
  - f_equal. apply IH. intros t c ->. now apply (H (a :: t) c).
Qed.

Lemma trim_fixed : forall s,
  (forall c t, s = c :: t -> isWhiteSpace c = false) ->
  (forall t c, s = t ++ [c] -> isWhiteSpace c = false) ->
  trim s = s.
Proof.
  intros s Hh Hl. unfold trim. rewrite trimEnd_stripEnd, (trimStart_fixed Hh).
  now apply stripEnd_fixed.
Qed.

Lemma trim_cleanValue : forall value, trim (cleanValue value) = cleanValue value.
Proof.
  intros value. unfold cleanValue. apply trim_fixed.
  - intros c t. apply trim_head.
  - intros t c. apply trim_last.
Qed.

Lemma Lang_Star_class : forall p s, Lang (Star (Class p)) s -> forallb p s = true.
Proof.
  intros p s L. remember (Star (Class p)) as r eqn:R.
  induction L as [| | | | | |a c s1 s2 L1 IH1 L2 IH2]; try discriminate R; [reflexivity|].
  injection R as ->. inversion L1 as [|q x Hx| | | | |]; subst. cbn.
  rewrite IH2 by reflexivity. now rewrite Hx.
Qed.

(** What [/^-?\d+$/] accepts. *)
Lemma Lang_integer : forall s,
  Lang re_integer s ->
  exists negative d ds,
    s = signedDigits negative d ds /\ isDigit d = true /\ forallb isDigit ds = true.
Proof.
  intros s L. unfold re_integer, Opt, Plus, Digit, Chr in L.
  inversion L as [| |a b s1 s2 L1 L2| | | |]; subst.
  inversion L2 as [| |a b s3 s4 L3 L4| | | |]; subst.
  inversion L3 as [|p d Hd| | | | |]; subst.
  apply Lang_Star_class in L4.
  inversion L1 as [| | |a b u La|a b u Lb| |]; subst.
  - inversion La as [|p m Hm| | | | |]; subst. apply Ascii.eqb_eq in Hm. subst m.
    now exists true, d, s4.
  - inversion Lb; subst. now exists false, d, s4.
Qed.

(** X7.  When [inferDataType] classifies the cleaned text of a cell as INT
    or BIGINT, the text without its commas is a string of digits with an
    optional minus, and [convertValue] under that type returns the Number
    value of the integer [z] the digits denote, never NaN: [z] itself when
    it is below 2^53 in magnitude, as for every INT cell; beyond, an integer
    of the sign of [z] that differs from it by at most half a unit of the
    53rd bit, or the infinity of that sign when the rounded magnitude
    reaches 2^1024.  The class is INT exactly when [z] lies in the signed
    32-bit range. *)
Theorem X7_integer_cells : forall cell t,
  inferDataType (cleanValue cell) = t ->
  t = INT \/ t = BIGINT ->
  exists negative d ds z,
    removeCommas (cleanValue cell) = signedDigits negative d ds /\
    isDigit d = true /\ forallb isDigit ds = true /\
    z = signedValue negative d ds /\
    convertValue cell t = numberOfInteger z /\
    (t = INT <-> (INT_MIN <= z <= INT_MAX)%Z) /\
    (t = INT -> convertValue cell t = VInt z) /\
    ((Z.abs z < 2 ^ 53)%Z -> convertValue cell t = VInt z) /\
    ((2 ^ 53 <= Z.abs z)%Z ->
     exists m,
       (2 ^ 53 <= m)%Z /\
       (2 * Z.abs (m - Z.abs z) <= 2 ^ (Z.log2 (Z.abs z) - 52))%Z /\
       (convertValue cell t = VInt (if (z <? 0)%Z then - m else m)%Z /\
        (m < 2 ^ 1024)%Z \/
        convertValue cell t = VInfinity (z <? 0)%Z /\ (2 ^ 1024 <= m)%Z)).
Proof.
  intros cell t I T. unfold inferDataType in I. rewrite trim_cleanValue in I.
  assert (V : isNullMarker (cleanValue cell) = false ->
              convertValue cell t = parseInt (removeCommas (cleanValue cell))).
  { intros M. unfold convertValue. cbv zeta. rewrite M.
    destruct T as [-> | ->]; reflexivity. }
  destruct (isNullMarker (cleanValue cell)); [destruct T; congruence|].
  specialize (V eq_refl).
  destruct (test_full re_boolean (cleanValue cell)); [destruct T; congruence|].
  destruct (test_full re_integer (removeCommas (cleanValue cell))) eqn:R.
  - apply test_full_Lang, Lang_integer in R as (negative & d & ds & E & Hd & Hds).
    rewrite E in I, V.
    rewrite (parseInt_signedDigits negative d ds Hd Hds) in I, V.
    exists negative, d, ds, (signedValue negative d ds).
    generalize dependent (signedValue negative d ds). intros z I V.
    cbv zeta in I.
    destruct (compare_numberOfInteger z INT_MAX) as [G _]; [reflexivity|].
    destruct (compare_numberOfInteger z INT_MIN) as [_ L]; [reflexivity|].
    rewrite G, L in I. clear G L.
    assert (C : t = INT <-> (INT_MIN <= z <= INT_MAX)%Z).
    { unfold INT_MIN, INT_MAX in *.
      destruct (Z.gtb_spec z 2147483647), (Z.ltb_spec z (-2147483648));
        cbn [orb] in I; rewrite <- I; split; intros; try discriminate; try lia;
        reflexivity. }
    assert (S : (Z.abs z < 2 ^ 53)%Z -> convertValue cell t = VInt z).
    { intros B. rewrite V. now apply numberOfInteger_safe. }
    split; [exact E|]. split; [exact Hd|]. split; [exact Hds|].
    split; [reflexivity|]. split; [exact V|]. split; [exact C|].
    split; [|split; [exact S|]].
    + intros Ht. apply S. apply C in Ht. unfold INT_MIN, INT_MAX in Ht.
      change (2 ^ 53)%Z with 9007199254740992%Z. lia.
    + intros B. rewrite V. now apply numberOfInteger_beyond.
  - exfalso.
    destruct (test_full re_float (removeCommas (cleanValue cell)));
      [destruct T; congruence|].
    destruct (test_full re_iso_date (cleanValue cell)); [destruct T; congruence|].
    destruct (test_prefix re_timestamp (cleanValue cell)); [destruct T; congruence|].
    destruct (test_full re_common_date (cleanValue cell)); [destruct T; congruence|].
    destruct (255 <? length (cleanValue cell)); destruct T; congruence.
Qed.

Lemma X7_integer_cells_witness :
  inferDataType (cleanValue (str " 9,007,199,254,740,993 [a]")) = BIGINT /\
  convertValue (str " 9,007,199,254,740,993 [a]") BIGINT = VInt 9007199254740992 /\
  exists negative d ds z,
    removeCommas (cleanValue (str " 9,007,199,254,740,993 [a]")) =
      signedDigits negative d ds /\
    isDigit d = true /\ forallb isDigit ds = true /\
    z = signedValue negative d ds /\
    convertValue (str " 9,007,199,254,740,993 [a]") BIGINT = numberOfInteger z.
Proof.
  split; [vm_compute; reflexivity|]. split; [vm_compute; reflexivity|].
  destruct (@X7_integer_cells (str " 9,007,199,254,740,993 [a]") BIGINT)
    as (negative & d & ds & z & E & Hd & Hds & Ez & C & _).
  - vm_compute. reflexivity.
  - now right.
  - now exists negative, d, ds, z.
Defined.

(** ** Cells that classify as booleans *)

Lemma Lang_WordI_iff : forall w s, Lang (Word true w) s <-> map foldCase s = w.
Proof.
  intros w s. split; [apply Lang_WordI|]. revert s.
  induction w as [|c w IH]; intros s E.
  - destruct s; [constructor | discriminate E].
  - destruct s as [|x s]; [discriminate E|]. cbn in E. injection E as Ex Es.
    change (x :: s) with ([x] ++ s). cbn [Word]. constructor; [|now apply IH].
    constructor. unfold eqc. rewrite Ex. apply Ascii.eqb_refl.
Qed.

Lemma Lang_Alt_iff : forall a b s, Lang (Alt a b) s <-> Lang a s \/ Lang b s.
Proof.
  intros a b s. split.
  - intros L. inversion L; subst; [now left | now right].
  - intros [L | L]; [now apply Lang_AltL | now apply Lang_AltR].
Qed.

Lemma test_boolean : forall s,
  test_full re_boolean s = true <->
  In (map foldCase s) [str "true"; str "false"; str "yes"; str "no"].
Proof.
  intros s. rewrite test_full_Lang. unfold re_boolean.
  rewrite !Lang_Alt_iff, !Lang_WordI_iff. cbn [In]. intuition congruence.
Qed.

Lemma test_true_yes : forall s,
  test_full re_true_yes s = true <-> In (map foldCase s) [str "true"; str "yes"].
Proof.
  intros s. rewrite test_full_Lang. unfold re_true_yes.
  rewrite !Lang_Alt_iff, !Lang_WordI_iff. cbn [In]. intuition congruence.
Qed.

Lemma isNullMarker_spec : forall s,
  isNullMarker s = true -> s = [] \/ s = str "-" \/ s = str "N/A".
Proof.
  intros s H. unfold isNullMarker in H.
  repeat (apply orb_true_iff in H as [H | H]); apply eqs_spec in H; auto.
Qed.

(** X8.  [inferDataType] classifies the cleaned text of a cell as BOOLEAN
    exactly when it reads true, false, yes or no in any mix of upper and
    lower case; [convertValue] then returns a boolean, which is true exactly
    for true and yes. *)
Theorem X8_boolean_cells : forall cell,
  (inferDataType (cleanValue cell) = BOOLEAN <->
   In (map foldCase (cleanValue cell)) [str "true"; str "false"; str "yes"; str "no"]) /\
  (inferDataType (cleanValue cell) = BOOLEAN ->
   exists b,
     convertValue cell BOOLEAN = VBool b /\
     (b = true <-> In (map foldCase (cleanValue cell)) [str "true"; str "yes"])).
Proof.
  intros cell.
  assert (M : In (map foldCase (cleanValue cell))
                [str "true"; str "false"; str "yes"; str "no"] ->
              isNullMarker (cleanValue cell) = false).
  { intros I. destruct (isNullMarker (cleanValue cell)) eqn:N; [|reflexivity].
    apply isNullMarker_spec in N as [E | [E | E]]; rewrite E in I; cbn in I;
      intuition discriminate. }
  assert (B : inferDataType (cleanValue cell) = BOOLEAN <->
              In (map foldCase (cleanValue cell))
                [str "true"; str "false"; str "yes"; str "no"]).
  { unfold inferDataType. rewrite trim_cleanValue. split.
    - intros H. apply test_boolean.
      destruct (isNullMarker (cleanValue cell)); [discriminate H|].
      destruct (test_full re_boolean (cleanValue cell)); [reflexivity|].
      destruct (test_full re_integer (removeCommas (cleanValue cell))).
      { cbv zeta in H. destruct (_ || _); discriminate H. }
      destruct (test_full re_float (removeCommas (cleanValue cell))); [discriminate H|].
      destruct (test_full re_iso_date (cleanValue cell)); [discriminate H|].
      destruct (test_prefix re_timestamp (cleanValue cell)); [discriminate H|].
      destruct (test_full re_common_date (cleanValue cell)); [discriminate H|].
      destruct (255 <? length (cleanValue cell)); discriminate H.
    - intros I. rewrite (M I). apply test_boolean in I. now rewrite I. }
  split; [exact B|]. intros H. apply B in H.
  exists (test_full re_true_yes (cleanValue cell)). split.
  - unfold convertValue. cbn zeta. now rewrite (M H).
  - apply test_true_yes.
Qed.

Lemma X8_boolean_cells_witness :
  exists b,
    convertValue (str " Yes [1]") BOOLEAN = VBool b /\
    (b = true <-> In (map foldCase (cleanValue (str " Yes [1]"))) [str "true"; str "yes"]).
Proof.
  apply (proj2 (X8_boolean_cells (str " Yes [1]"))). vm_compute. reflexivity.
Defined.

(** ** Headers and the header row *)

Lemma isHeaderRow_trimmed : forall pre cells,
  forallb (fun b : bool => b)
    (forEachIndexed
       (fun idx cell =>
          match nth_error (map trim (pre ++ cells)) idx with
          | Some h => eqs (toLowerCase (cleanValue cell)) (toLowerCase h)
          | None => false
          end) (length pre) cells) = true <->
  forall cell, In cell cells -> toLowerCase (cleanValue cell) = toLowerCase (trim cell).
Proof.
  intros pre cells. revert pre.
  induction cells as [|x cells IH]; intros pre; cbn [forEachIndexed forallb].
  - split; [intros _ cell [] | reflexivity].
  - assert (N : nth_error (map trim (pre ++ x :: cells)) (length pre) = Some (trim x)).
    { rewrite nth_error_map, nth_error_app2, Nat.sub_diag by lia. reflexivity. }
    rewrite N. specialize (IH (pre ++ [x])).
    rewrite <- app_assoc, length_app, Nat.add_1_r in IH. cbn [app length] in IH.
    rewrite andb_true_iff, IH, eqs_spec. split.
    + intros [E A] cell [<- | I]; auto.
    + intros A. split; [apply A; now left | intros cell I; apply A; now right].
Qed.

(** Lower-casing makes no bracket and no white space. *)
Lemma toLowerChar_kept : forall c,
  (toLowerChar c = "["%char -> c = "["%char) /\
  (toLowerChar c = "]"%char -> c = "]"%char) /\
  (isWhiteSpace (toLowerChar c) = true -> toLowerChar c = c).
Proof.
  intros c. each_char c; repeat split; intros H; try reflexivity;
    try discriminate H.
Qed.

(** X9.  The headers of a table whose first row has no blank cell are the
    trimmed texts of that row.  The row itself is left out of the data
    exactly when cleaning leaves each of its cells as trimming does, up to
    case.  So a header cell with a bracketed note -- an opening bracket
    with a closing bracket after it -- or with a white-space character
    other than the space U+0020, such as a line break, a tab or a no-break
    space, makes the header row a data row. *)
Theorem X9_header_row : forall (first : list jsstring) (rest : TableElement),
  first <> [] ->
  (forall cell, In cell first -> trim cell <> []) ->
  tableHeaders (first :: rest) = map trim first /\
  (keepRow (tableHeaders (first :: rest)) first = false <->
   forall cell, In cell first -> toLowerCase (cleanValue cell) = toLowerCase (trim cell)) /\
  (forall cell a b c,
     In cell first -> trim cell = a ++ "["%char :: b ++ "]"%char :: c ->
     keepRow (tableHeaders (first :: rest)) first = true) /\
  (forall cell c,
     In cell first -> In c (trim cell) -> isWhiteSpace c = true -> c <> " "%char ->
     keepRow (tableHeaders (first :: rest)) first = true).
Proof.
  intros first rest NE NB.
  assert (Main :
    tableHeaders (first :: rest) = map trim first /\
    (keepRow (tableHeaders (first :: rest)) first = false <->
     forall cell, In cell first ->
                  toLowerCase (cleanValue cell) = toLowerCase (trim cell))).
  2: { destruct Main as [H K]. split; [exact H|]. split; [exact K|]. split.
       - intros cell a b c I E.
         destruct (keepRow (tableHeaders (first :: rest)) first) eqn:Kr; [reflexivity|].
         exfalso. pose proof (proj1 K eq_refl cell I) as L. rewrite E in L.
         unfold toLowerCase in L. rewrite map_app in L. cbn [map] in L.
         rewrite map_app in L. cbn [map] in L.
         apply map_eq_app in L as (a' & r1 & E1 & _ & L).
         apply map_eq_cons in L as (x & r2 & E2 & Hx & L).
         apply map_eq_app in L as (b' & r3 & E3 & _ & L).
         apply map_eq_cons in L as (y & c' & E4 & Hy & _).
         apply (proj1 (toLowerChar_kept x)) in Hx.
         apply (proj1 (proj2 (toLowerChar_kept y))) in Hy.
         subst. now apply (@cleanValue_no_group cell a' b' c').
       - intros cell c I Ic W N.
         destruct (keepRow (tableHeaders (first :: rest)) first) eqn:Kr; [reflexivity|].
         exfalso. pose proof (proj1 K eq_refl cell I) as L.
         assert (J : In c (toLowerCase (trim cell))).
         { unfold toLowerCase. apply in_map_iff. exists c. split; [|exact Ic].
           revert W. each_char c; intros W; try reflexivity; discriminate W. }
         rewrite <- L in J. unfold toLowerCase in J.
         apply in_map_iff in J as (c' & E & J).
         assert (E' : c' = c).
         { rewrite <- E. symmetry. apply (toLowerChar_kept c'). now rewrite E. }
         subst c'. apply N. now apply (@cleanValue_white_space cell c). }
  assert (H : tableHeaders (first :: rest) = map trim first).
  { unfold tableHeaders, headerTexts. cbn [hd].
    rewrite filter_keep_all.
    - destruct first; [contradiction | reflexivity].
    - intros h I. apply in_map_iff in I as (cell & <- & I).
      apply negb_true_iff, eqs_false. now apply NB. }
  split; [exact H|]. rewrite H. unfold keepRow.
  assert (L : (0 <? length first) = true) by (destruct first; [contradiction | reflexivity]).
  assert (S1 : existsb (fun cell => negb (eqs (trim cell) [])) first = true).
  { destruct first as [|x first]; [contradiction|]. cbn.
    assert (E : eqs (trim x) [] = false) by (apply eqs_false, NB; now left).
    now rewrite E. }
  rewrite L, S1. cbn [andb]. rewrite negb_false_iff. unfold isHeaderRow.
  apply (isHeaderRow_trimmed [] first).
Qed.

Lemma X9_header_row_witness :
  tableHeaders ([str " Name"; str "Population[1]"] :: []) =
    map trim [str " Name"; str "Population[1]"] /\
  keepRow (tableHeaders ([str " Name"; str "Population[1]"] :: []))
          [str " Name"; str "Population[1]"] = true.
Proof.
  destruct (@X9_header_row [str " Name"; str "Population[1]"] [])
    as (H & _ & B & _).
  - discriminate.
  - intros cell [<- | [<- | []]]; vm_compute; discriminate.
  - split; [exact H|].
    apply (B (str "Population[1]") (str "Population") (str "1") []).
    + right. now left.
    + reflexivity.
Defined.

(** ** The tables of a document *)

Lemma rows_parseTableElement : forall tableElement,
  (0 <? length (rows (parseTableElement tableElement))) = false <-> noDataRows tableElement.
Proof.
  intros tableElement. unfold parseTableElement, parseTable, noDataRows. cbn [rows].
  rewrite length_map. destruct (filter _ tableElement); cbn; split; congruence.
Qed.

Lemma filter_nil : forall (A : Type) (p : A -> bool) l,
  filter p l = [] <-> Forall (fun b => p b = false) l.
Proof.
  induction l as [|y l IH]; cbn; [split; [constructor | reflexivity]|].
  destruct (p y) eqn:E; split; intros H.
  - discriminate.
  - inversion H; congruence.
  - constructor; [exact E | now apply IH].
  - inversion H; now apply IH.
Qed.

(** X10.  On an initialised parser [parseFirstTable] returns the parse of the
    first table of the document that has a data row, and null exactly when
    no table has one; a table it returns has at least one row.  On a
    parser that is not initialised it throws. *)
Theorem X10_parseFirstTable : forall tables,
  (forall t,
     parseFirstTable true tables = Returns (Some t) <->
     exists before tableElement after,
       tables = before ++ tableElement :: after /\
       Forall noDataRows before /\
       ~ noDataRows tableElement /\
       t = parseTableElement tableElement) /\
  (forall t, parseFirstTable true tables = Returns (Some t) -> rows t <> []) /\
  (parseFirstTable true tables = Returns None <-> Forall noDataRows tables) /\
  (exists e, parseFirstTable false tables = Throws e).
Proof.
  intros tables. unfold parseFirstTable, parseHtml, ensureInitialized.
  set (p := fun parsedTable : ParsedTable => 0 <? length (rows parsedTable)).
  assert (P : forall b, p (parseTableElement b) = false <-> noDataRows b)
    by (intros b; apply rows_parseTableElement).
  assert (A : forall t,
             filter p (map parseTableElement tables) <> [] /\
             hd t (filter p (map parseTableElement tables)) = t <->
             exists before tableElement after,
               tables = before ++ tableElement :: after /\
               Forall noDataRows before /\ ~ noDataRows tableElement /\
               t = parseTableElement tableElement).
  { intros t. induction tables as [|x l IH]; cbn [map filter].
    - split; [intros [H _]; congruence|].
      intros (before & b & after & E & _). now destruct before.
    - destruct (p (parseTableElement x)) eqn:E.
      + cbn [hd]. split.
        * intros [_ <-]. exists [], x, l. repeat split; [constructor|].
          intros N. apply P in N. congruence.
        * intros (before & b & after & E1 & F & N & ->).
          split; [discriminate|]. destruct before as [|y before]; cbn in E1.
          -- now injection E1 as ->.
          -- injection E1 as -> _. inversion F as [|? ? Fy]; subst.
             apply P in Fy. congruence.
      + rewrite IH. split.
        * intros (before & b & after & -> & F & N & ->).
          exists (x :: before), b, after. repeat split; try assumption.
          constructor; [now apply P | exact F].
        * intros (before & b & after & E1 & F & N & ->).
          destruct before as [|y before]; cbn in E1.
          -- injection E1 as -> _. apply P in E. contradiction.
          -- injection E1 as -> ->. inversion F; subst.
             now exists before, b, after. }
  split; [|split; [|split]].
  - intros t. rewrite <- A.
    destruct (filter p (map parseTableElement tables)) as [|f r]; cbn [hd]; split.
    + discriminate.
    + intros [H _]. congruence.
    + intros H. injection H as ->. split; [discriminate | reflexivity].
    + intros [_ ->]. reflexivity.
  - intros t H.
    destruct (filter p (map parseTableElement tables)) as [|f r] eqn:E; [discriminate|].
    injection H as ->.
    assert (I : In t (filter p (map parseTableElement tables)))
      by (rewrite E; now left).
    apply filter_In in I as [_ I]. subst p. cbn beta in I.
    destruct (rows t); [discriminate I | discriminate].
  - destruct (filter p (map parseTableElement tables)) as [|f r] eqn:E; split.
    + intros _. apply filter_nil in E. rewrite Forall_map in E.
      revert E. apply Forall_impl. intros b. apply P.
    + reflexivity.
    + discriminate.
    + intros F. exfalso.
      assert (E' : filter p (map parseTableElement tables) = []).
      { apply filter_nil. rewrite Forall_map. revert F. apply Forall_impl.
        intros b. apply P. }
      congruence.
  - eexists. reflexivity.
Qed.

Lemma X10_parseFirstTable_witness :
  rows (parseTableElement [[str "Name"; str "Age"]; [str "John"; str "30"]]) <> [].
Proof.
  apply (proj1 (proj2 (X10_parseFirstTable
                         [[[str "Name"]]; [[str "Name"; str "Age"]; [str "John"; str "30"]]]))).
  vm_compute. reflexivity.
Defined.

(** ** Generated headers *)

Lemma str_inj : forall a b, str a = str b -> a = b.
Proof.
  induction a as [|c a IH]; intros [|d b] H; cbn in H; try discriminate; [reflexivity|].
  injection H as -> H. f_equal. now apply IH.
Qed.

Lemma decimal_digits : forall n, forallb isDigit (decimal n) = true.
Proof.
  intros n. unfold decimal. generalize (Nat.to_uint n). intros d.
  induction d; cbn; try reflexivity; exact IHd.
Qed.

Lemma decimal_inj : forall n m, decimal n = decimal m -> n = m.
Proof.
  intros n m H. apply str_inj in H.
  apply DecimalNat.Unsigned.to_uint_inj.
  assert (E : DecimalString.NilEmpty.uint_of_string
                (DecimalString.NilEmpty.string_of_uint (Nat.to_uint n)) =
              DecimalString.NilEmpty.uint_of_string
                (DecimalString.NilEmpty.string_of_uint (Nat.to_uint m)))
    by now rewrite H.
  rewrite !DecimalString.NilEmpty.usu in E. now injection E.
Qed.

Lemma defaultHeader_ident : forall i,
  forallb isIdentChar (str "column_" ++ decimal i) = true /\
  startsWithDigit (str "column_" ++ decimal i) = false.
Proof.
  intros i. split; [|reflexivity]. rewrite forallb_app. apply andb_true_iff.
  split; [reflexivity|]. generalize (decimal_digits i). apply forallb_impl.
  intros c Hc. unfold isIdentChar. now rewrite Hc, orb_true_r.
Qed.

(** X11.  A table whose first row has cells but no text in any of them gets
    the generated headers [column_1], [column_2], ..., one per cell of that
    row; they are the names of the columns of its schema (each cut to 64
    characters), and the blank row itself is not a data row. *)
Theorem X11_generated_headers : forall (first : list jsstring) (rest : TableElement),
  (forall cell, In cell first -> trim cell = []) ->
  tableHeaders (first :: rest) = defaultHeaders (length first) /\
  map name (columns (schema (parseTableElement (first :: rest)))) =
    map (fun i => firstn 64 (str "column_" ++ decimal (i + 1))) (seq 0 (length first)) /\
  keepRow (tableHeaders (first :: rest)) first = false.
Proof.
  intros first rest B.
  assert (H : tableHeaders (first :: rest) = defaultHeaders (length first)).
  { unfold tableHeaders, headerTexts. cbn [hd].
    assert (E : filter (fun headerText => negb (eqs headerText [])) (map trim first) = []).
    { apply filter_nil, Forall_forall. intros h I.
      apply in_map_iff in I as (cell & <- & I). rewrite (B cell I). reflexivity. }
    now rewrite E. }
  split; [exact H|]. split.
  - unfold parseTableElement, parseTable. cbn [schema]. rewrite H.
    unfold inferSchema. cbn [columns]. rewrite map_forEachIndexed.
    rewrite (forEachIndexed_ext _ (fun _ h => sanitizeColumnName h))
      by (intros; apply name_inferColumn).
    rewrite forEachIndexed_const. unfold defaultHeaders. rewrite map_map.
    apply map_ext. intros i.
    destruct (defaultHeader_ident (i + 1)) as [I D].
    now apply sanitizeColumnName_ident.
  - unfold keepRow.
    assert (E : existsb (fun cell => negb (eqs (trim cell) [])) first = false).
    { destruct (existsb _ first) eqn:X; [|reflexivity].
      apply existsb_exists in X as (cell & I & N). rewrite (B cell I) in N. discriminate N. }
    rewrite E. now rewrite andb_false_r.
Qed.

Lemma X11_generated_headers_witness :
  tableHeaders ([str " "; str ""] :: [[str "a"; str "b"]]) = defaultHeaders 2 /\
  map name (columns (schema (parseTableElement ([str " "; str ""] :: [[str "a"; str "b"]])))) =
    map (fun i => firstn 64 (str "column_" ++ decimal (i + 1))) (seq 0 2) /\
  keepRow (tableHeaders ([str " "; str ""] :: [[str "a"; str "b"]])) [str " "; str ""] = false.
Proof.
  apply (@X11_generated_headers [str " "; str ""] [[str "a"; str "b"]]).
  intros cell [<- | [<- | []]]; reflexivity.
Defined.

(** ** The table and the batches of a parsed table *)

Lemma map_fst_filter : forall (A B : Type) (p : A -> bool) (l : list (A * B)),
  map fst (filter (fun kv => p (fst kv)) l) = filter p (map fst l).
Proof.
  intros A B p. induction l as [|[k v] l IH]; cbn; [reflexivity|].
  destruct (p k); cbn; now rewrite IH.
Qed.

Lemma keys_cellEntries : forall s cells, map fst (cellEntries s cells) = map name (columns s).
Proof.
  intros s cells. unfold cellEntries. rewrite map_forEachIndexed.
  rewrite (forEachIndexed_ext _ (fun _ c => name c)) by reflexivity.
  apply forEachIndexed_const.
Qed.

Lemma keys_rowObject : forall s cells,
  keys (rowObject s cells) = filter (fun k => negb (isProto k)) (map name (columns s)).
Proof.
  intros s cells. unfold keys, rowObject. cbn [properties].
  now rewrite (map_fst_filter (fun k => negb (isProto k))), keys_cellEntries.
Qed.

Lemma values_cellEntries : forall s cells,
  Forall (fun kv => nullOrString (snd kv)) (cellEntries s cells).
Proof.
  intros s cells. unfold cellEntries. generalize 0.
  induction (columns s) as [|c l IH]; intros i0; cbn; constructor.
  - apply textOrNull_nullOrString.
  - apply IH.
Qed.

Lemma values_rowObject : forall s cells,
  Forall (fun kv => nullOrString (snd kv)) (rowObject s cells).(properties).
Proof.
  intros s cells. unfold rowObject. cbn [properties].
  pose proof (values_cellEntries s cells) as F. rewrite Forall_forall in *.
  intros kv I. apply filter_In in I as [I _]. now apply F.
Qed.

Lemma nullOrString_defined : forall v, nullOrString v -> v <> VUndefined.
Proof. intros v [-> | [s ->]]; discriminate. Qed.

(** The values [insertBatch] binds for a row that has the columns of the
    statement as its keys, none of them undefined. *)
Lemma bound_values : forall (row : TableRow),
  NoDup (keys row) ->
  Forall (fun kv => nullOrString (snd kv)) row.(properties) ->
  filter (fun key => isDefined (getProp row key)) (keys row) = keys row /\
  map (valueOrNull row) (keys row) = map Value (map snd row.(properties)).
Proof.
  intros row N F.
  assert (D : forall k v, In (k, v) row.(properties) ->
                getProp row k = Value v /\ valueOrNull row k = Value v).
  { intros k v I. rewrite Forall_forall in F. pose proof (F _ I) as S. cbn in S.
    apply nullOrString_defined in S.
    pose proof (@getOwn_NoDup _ _ _ N I) as G.
    split; [unfold getProp; now rewrite G|].
    now apply (proj1 (valueOrNull_spec row k)). }
  unfold keys in *. split.
  - apply filter_keep_all. intros k I. apply in_map_iff in I as ([k' v] & <- & I).
    cbn [fst]. rewrite (proj1 (D k' v I)). apply isDefined_spec.
    rewrite Forall_forall in F. specialize (F _ I). cbn in F.
    apply nullOrString_defined in F. congruence.
  - rewrite !map_map. apply map_ext_in. intros [k v] I. cbn [fst snd].
    apply (D k v I).
Qed.

Lemma inferColumn_length : forall rs i h,
  type (inferColumn rs i h) = TEXT \/
  (type (inferColumn rs i h) = VARCHAR /\
   exists n, maxLength (inferColumn rs i h) = Some n /\ 255 <= n).
Proof.
  intros rs i h. unfold inferColumn.
  pose proof (scanColumn_varchar_or_text i rs) as W.
  destruct (scanColumn i rs) as [ty len]. cbn [fst] in W.
  destruct W as [-> | ->]; cbn [type maxLength DataType_eqb]; [right | now left].
  split; [reflexivity|]. eexists. split; [reflexivity | lia].
Qed.

Lemma columnDefinition_inferred : forall rs i h,
  columnDefinition (inferColumn rs i h) =
    str "`" ++ name (inferColumn rs i h) ++ str "` TEXT" \/
  exists n, 255 <= n /\
    columnDefinition (inferColumn rs i h) =
      str "`" ++ name (inferColumn rs i h) ++ str "` VARCHAR(" ++ decimal n ++ str ")".
Proof.
  intros rs i h. unfold columnDefinition.
  destruct (inferColumn_length rs i h) as [E | (E & n & M & L)]; rewrite E.
  - now left.
  - right. exists n. split; [exact L|]. rewrite M. cbn [mapTypeToSQL].
    destruct n as [|n]; [lia | reflexivity].
Qed.

Lemma definitions_inferred : forall rs headers i0,
  Forall2 (fun col def =>
             def = str "`" ++ name col ++ str "` TEXT" \/
             exists n, 255 <= n /\
               def = str "`" ++ name col ++ str "` VARCHAR(" ++ decimal n ++ str ")")
          (forEachIndexed (inferColumn rs) i0 headers)
          (map columnDefinition (forEachIndexed (inferColumn rs) i0 headers)).
Proof.
  intros rs. induction headers as [|h hs IH]; intros i0;
    cbn [forEachIndexed map]; constructor.
  - apply columnDefinition_inferred.
  - apply IH.
Qed.

(** The statement for rows that have one property per column of a schema,
    [__proto__] apart, whatever their prototypes. *)
Lemma insertBatch_entries : forall s (batch : list TableRow) row0 rest,
  NoDup (map name (columns s)) ->
  batch = row0 :: rest ->
  Forall (fun row => exists cells, row.(properties) = (rowObject s cells).(properties)) batch ->
  exists st,
    insertBatch batch = Some st /\
    columnNames st = filter (fun k => negb (isProto k)) (map name (columns s)) /\
    values st = map Value (flat_map (fun row => map snd row.(properties)) batch) /\
    valuePlaceholders st = map (fun _ => length (columnNames st)) batch.
Proof.
  intros s batch row0 rest K -> F.
  set (cols := filter (fun k => negb (isProto k)) (map name (columns s))).
  assert (B : forall row, In row (row0 :: rest) ->
                keys row = cols /\
                filter (fun key => isDefined (getProp row key)) (keys row) = keys row /\
                map (valueOrNull row) (keys row) = map Value (map snd row.(properties))).
  { intros row I. rewrite Forall_forall in F. destruct (F row I) as (cells & E).
    assert (Ek : keys row = cols).
    { unfold keys. rewrite E. apply keys_rowObject. }
    split; [exact Ek|]. apply bound_values.
    - rewrite Ek. subst cols. now apply NoDup_filter.
    - rewrite E. apply values_rowObject. }
  unfold insertBatch.
  destruct (B row0 (or_introl eq_refl)) as (K0 & F0 & _). rewrite F0, K0.
  eexists. split; [reflexivity|]. cbn [columnNames values valuePlaceholders].
  split; [reflexivity|]. split; [|reflexivity].
  revert B. generalize (row0 :: rest). intros l B.
  induction l as [|row l IH]; [reflexivity|].
  cbn [flat_map]. rewrite map_app, IH by (intros r I; apply B; now right).
  f_equal. destruct (B row (or_introl eq_refl)) as (Kr & _ & Vr). now rewrite <- Kr.
Qed.

(** X12.  For a parsed table with at least one row whose headers sanitise to
    different names, [createTable] drops the table, then creates it with one
    column per column of the schema, each of type TEXT or VARCHAR(n) with
    n at least 255.  [insertBatch] of the rows names these columns in the
    same order, all but a column named [__proto__], which the table has and
    the INSERT leaves out; and it binds the own values of every row, in
    that order, none of them replaced by NULL for an absent key or by an
    inherited member. *)
Theorem X12_table_and_batch_agree : forall headers trs,
  NoDup (map sanitizeColumnName headers) ->
  rows (parseTable headers trs) <> [] ->
  exists definitions st,
    createTable true true (schema (parseTable headers trs)) =
      Returns [DropTableIfExists; CreateTable definitions] /\
    Forall2 (fun col def =>
               def = str "`" ++ name col ++ str "` TEXT" \/
               exists n, 255 <= n /\
                 def = str "`" ++ name col ++ str "` VARCHAR(" ++ decimal n ++ str ")")
            (columns (schema (parseTable headers trs))) definitions /\
    insertBatch (rows (parseTable headers trs)) = Some st /\
    columnNames st =
      filter (fun k => negb (eqs k (str "__proto__")))
             (map name (columns (schema (parseTable headers trs)))) /\
    values st =
      map Value (flat_map (fun row => map snd row.(properties))
                          (rows (parseTable headers trs))) /\
    valuePlaceholders st =
      map (fun _ => length (columnNames st)) (rows (parseTable headers trs)).
Proof.
  intros headers trs N NE. rewrite (@rows_parseTable_entries headers trs N) in *.
  set (s := schema (parseTable headers trs)) in *.
  assert (K : NoDup (map name (columns s))).
  { subst s. unfold parseTable. cbn [schema]. now rewrite names_inferSchema. }
  destruct (filter (keepRow headers) trs) as [|cells0 kept]; [contradiction|].
  destruct (@insertBatch_entries s (map (rowObject s) (cells0 :: kept))
              (rowObject s cells0) (map (rowObject s) kept) K eq_refl)
    as (st & I & C & V & P).
  { apply Forall_forall. intros row Ir. apply in_map_iff in Ir as (cells & <- & _).
    now exists cells. }
  exists (map columnDefinition (columns s)), st.
  split; [reflexivity|]. split; [|now repeat split].
  subst s. unfold parseTable, inferSchema. cbn [schema columns].
  apply definitions_inferred.
Qed.

Lemma X12_table_and_batch_agree_witness :
  exists definitions st,
    createTable true true (schema (parseTable [str "Name"; str "__proto__"]
                                     [[str "John"; str "x"]])) =
      Returns [DropTableIfExists; CreateTable definitions] /\
    definitions = [str "`name` VARCHAR(255)"; str "`__proto__` VARCHAR(255)"] /\
    insertBatch (rows (parseTable [str "Name"; str "__proto__"] [[str "John"; str "x"]]))
      = Some st /\
    columnNames st = [str "name"] /\
    values st = [Value (VString (str "John"))].
Proof.
  destruct (@X12_table_and_batch_agree [str "Name"; str "__proto__"] [[str "John"; str "x"]])
    as (definitions & st & C & _ & I & Cn & V & _).
  - vm_compute. repeat constructor; cbn; intuition discriminate.
  - vm_compute. discriminate.
  - exists definitions, st. split; [exact C|].
    split; [vm_compute in C; now injection C as <-|].
    split; [exact I|]. split; [exact Cn | exact V].
Defined.

(** ** The shape of an INSERT statement *)

Lemma nth_error_flat_map : forall (A B : Type) (f : A -> list B) n l i j x,
  (forall y, In y l -> length (f y) = n) ->
  nth_error l i = Some x -> j < n ->
  nth_error (flat_map f l) (i * n + j) = nth_error (f x) j.
Proof.
  intros A B f n. induction l as [|y l IH]; intros i j x L H J; [now destruct i|].
  cbn [flat_map]. destruct i as [|i]; cbn in H.
  - injection H as ->. cbn [Nat.mul Nat.add]. apply nth_error_app1.
    rewrite L by now left. exact J.
  - rewrite nth_error_app2; rewrite (L y) by now left.
    + replace (S i * n + j - n) with (i * n + j) by lia.
      apply IH; [|exact H|exact J]. intros z Hz. apply L. now right.
    + lia.
Qed.

Lemma length_flat_map_uniform : forall (A B : Type) (f : A -> list B) n l,
  (forall y, In y l -> length (f y) = n) -> length (flat_map f l) = length l * n.
Proof.
  intros A B f n. induction l as [|y l IH]; intros L; [reflexivity|].
  cbn [flat_map length]. rewrite length_app, IH, L; [lia | now left |].
  intros z Hz. apply L. now right.
Qed.

Lemma list_sum_const : forall (A : Type) n (l : list A),
  list_sum (map (fun _ => n) l) = length l * n.
Proof.
  intros A n. unfold list_sum. induction l as [|x l IH]; cbn; [reflexivity|].
  now rewrite IH.
Qed.

Lemma valueOrNull_defined : forall row col, valueOrNull row col <> Value VUndefined.
Proof.
  intros row col. unfold valueOrNull. destruct (getProp row col) as [[]|]; discriminate.
Qed.

(** X13.  In the statement [insertBatch] issues, the flattened values line
    up with the placeholders: there is one value per row and column, and
    the placeholders count as many values as are bound.  The value of row i
    for column j sits at position i * columns + j.  It is the own value of
    the row under that key, or null when that value is undefined; when the
    row has no such key it is what the row inherits under that name from
    [Object.prototype] (as for [constructor] or [toString]), and null when
    there is no such thing.  Undefined is never bound. *)
Theorem X13_insertBatch_values_line_up : forall batch st,
  insertBatch batch = Some st ->
  length (values st) = length batch * length (columnNames st) /\
  list_sum (valuePlaceholders st) = length (values st) /\
  Forall (fun m => m <> Value VUndefined) (values st) /\
  (forall i row j col,
     nth_error batch i = Some row ->
     nth_error (columnNames st) j = Some col ->
     exists m,
       nth_error (values st) (i * length (columnNames st) + j) = Some m /\
       match getOwn row.(properties) col with
       | Some VUndefined => m = Value VNull
       | Some v => m = Value v
       | None =>
           (row.(prototype) = ObjectPrototype /\ In col objectPrototypeNames /\
            m = Inherited col) \/
           ((row.(prototype) = NullPrototype \/ ~ In col objectPrototypeNames) /\
            m = Value VNull)
       end).
Proof.
  intros batch st H. unfold insertBatch in H.
  destruct batch as [|row0 rest]; [discriminate|].
  injection H as <-. cbn [values columnNames valuePlaceholders].
  set (cols := filter (fun key => isDefined (getProp row0 key)) (keys row0)).
  set (batch := row0 :: rest).
  assert (U : forall y, In y batch -> length (map (valueOrNull y) cols) = length cols)
    by (intros; apply length_map).
  change (map (valueOrNull row0) cols
          ++ flat_map (fun row : TableRow => map (valueOrNull row) cols) rest)
    with (flat_map (fun row : TableRow => map (valueOrNull row) cols) batch).
  change (length cols :: map (fun _ : TableRow => length cols) rest)
    with (map (fun _ : TableRow => length cols) batch).
  rewrite (length_flat_map_uniform _ batch U), (list_sum_const (length cols) batch).
  split; [reflexivity|]. split; [reflexivity|]. split.
  - apply Forall_forall. intros v I. apply in_flat_map in I as (row & _ & I).
    apply in_map_iff in I as (col & <- & _). apply valueOrNull_defined.
  - intros i row j col Hi Hj. exists (valueOrNull row col). split.
    + rewrite (@nth_error_flat_map _ _ _ (length cols) batch i j row U Hi).
      * rewrite nth_error_map, Hj. reflexivity.
      * apply nth_error_Some. congruence.
    + destruct (valueOrNull_spec row col) as (S1 & S2 & S3 & S4).
      destruct (getOwn (properties row) col) as [v|] eqn:G.
      * destruct v; try (apply S1; [reflexivity | discriminate]). now apply S2.
      * destruct (prototype row) eqn:Pr.
        -- destruct (in_dec (list_eq_dec ascii_dec) col objectPrototypeNames) as [I | I].
           ++ left. repeat split; auto.
           ++ right. split; [now right | apply S4; auto].
        -- right. split; [now left | apply S4; auto].
Qed.

Lemma X13_insertBatch_values_line_up_witness :
  exists st,
    insertBatch [ object [(str "a", VInt 1); (str "constructor", VNull)];
                  object [(str "a", VInt 2)] ] = Some st /\
    columnNames st = [str "a"; str "constructor"] /\
    values st = [Value (VInt 1); Value VNull; Value (VInt 2); Inherited (str "constructor")] /\
    exists m,
      nth_error (values st) (1 * length (columnNames st) + 1) = Some m /\
      m = Inherited (str "constructor").
Proof.
  eexists. split; [reflexivity|]. split; [reflexivity|]. split; [reflexivity|].
  destruct (proj2 (proj2 (proj2
    (@X13_insertBatch_values_line_up
       [ object [(str "a", VInt 1); (str "constructor", VNull)];
         object [(str "a", VInt 2)] ]
       _ eq_refl)))
    1 (object [(str "a", VInt 2)]) 1 (str "constructor") eq_refl eq_refl)
    as (m & E & C).
  exists m. split; [exact E|].
  cbn in C. destruct C as [(_ & _ & C) | ([D | D] & _)]; [exact C | discriminate D |].
  exfalso. apply D. cbn. tauto.
Defined.

(** The table [parseTable] returns when the sanitised headers differ. *)
Lemma parseTable_shape : forall headers trs,
  NoDup (map sanitizeColumnName headers) ->
  parseTable headers trs =
  {| schema := inferSchema headers (filter (keepRow headers) trs);
     rows := map (rowObject (inferSchema headers (filter (keepRow headers) trs)))
                 (filter (keepRow headers) trs) |}.
Proof.
  intros headers trs N. pose proof (@rows_parseTable_entries headers trs N) as R.
  unfold parseTable in *. cbn [rows schema] in R. now rewrite R.
Qed.

(** ** How a fetch ends *)

Lemma retried_cons : forall retryDelay from count,
  retried retryDelay from (S count) =
  Get from :: Sleep (retryDelay * from) :: retried retryDelay (S from) count.
Proof. reflexivity. Qed.

Lemma fetchFrom_outcome : forall maxRetries retryDelay server remaining attempt lastError,
  attempt + remaining = maxRetries + 1 -> 1 <= remaining ->
  exists k,
    attempt <= k <= maxRetries /\
    (forall j, attempt <= j < k -> failsRetriably server j) /\
    snd (fetchFrom maxRetries retryDelay server remaining attempt lastError) =
      retried retryDelay attempt (k - attempt) ++ [Get k] /\
    endsAt maxRetries server k
      (fst (fetchFrom maxRetries retryDelay server remaining attempt lastError)).
Proof.
  intros maxRetries retryDelay server.
  induction remaining as [|remaining IH]; intros attempt lastError E R; [lia|].
  cbn [fetchFrom].
  assert (L : (attempt <=? maxRetries) = true) by (apply Nat.leb_le; lia).
  rewrite L.
  assert (Here : forall res,
            endsAt maxRetries server attempt res ->
            exists k,
              attempt <= k <= maxRetries /\
              (forall j, attempt <= j < k -> failsRetriably server j) /\
              [Get attempt] = retried retryDelay attempt (k - attempt) ++ [Get k] /\
              endsAt maxRetries server k res).
  { intros res H. exists attempt. split; [lia|]. split; [intros j Hj; lia|].
    split; [now rewrite Nat.sub_diag | exact H]. }
  destruct (server attempt) as [data|error] eqn:Sv.
  - cbn [fst snd]. apply Here. unfold endsAt. now rewrite Sv.
  - destruct (attempt =? maxRetries) eqn:Last.
    + cbn [fst snd]. apply Here. unfold endsAt. now rewrite Sv, Last.
    + destruct (isRetriableError error) eqn:Rt; cbn [negb].
      * apply Nat.eqb_neq in Last.
        destruct (IH (S attempt) (Some error)) as (k & Hk & All & Ev & En); [lia|lia|].
        destruct (fetchFrom maxRetries retryDelay server remaining (S attempt) (Some error))
          as [res evs].
        cbn [fst snd] in *. exists k. split; [lia|]. split.
        -- intros j Hj. destruct (Nat.eq_dec j attempt) as [-> | Ne].
           ++ now exists error.
           ++ apply All. lia.
        -- split; [|exact En]. rewrite Ev.
           replace (k - attempt) with (S (k - S attempt)) by lia.
           now rewrite retried_cons.
      * cbn [fst snd]. apply Here. unfold endsAt. now rewrite Sv, Last, Rt.
Qed.

Lemma totalSleep_retried : forall retryDelay count from,
  2 * totalSleep (retried retryDelay from count ++ [Get (from + count)])
    + retryDelay * count =
  retryDelay * count * (2 * from + count).
Proof.
  intros retryDelay. induction count as [|count IH]; intros from.
  - cbn. lia.
  - rewrite retried_cons. cbn [app totalSleep].
    replace (from + S count) with (S from + count) by lia.
    specialize (IH (S from)).
    remember (totalSleep (retried retryDelay (S from) count ++ [Get (S from + count)])) as T.
    nia.
Qed.

(** X14.  Every fetch is decided by the first attempt that does not fail
    retriably before the last one: the requests are numbered 1, 2, ... up to
    that attempt, each but the last followed by its pause, and the fetch
    returns the data of that attempt, rethrows its error when the error is
    not retriable, or gives up with its message when it is the last attempt
    allowed.  With no attempt allowed no request is made and the terminal
    error carries no message. *)
Theorem X14_fetch_outcome : forall maxRetries retryDelay server,
  (maxRetries = 0 /\
   fetchHtml maxRetries retryDelay server = (GaveUp 0 None, [])) \/
  (exists k,
     1 <= k <= maxRetries /\
     (forall j, 1 <= j < k -> failsRetriably server j) /\
     snd (fetchHtml maxRetries retryDelay server) = retried retryDelay 1 (k - 1) ++ [Get k] /\
     endsAt maxRetries server k (fst (fetchHtml maxRetries retryDelay server))).
Proof.
  intros maxRetries retryDelay server. unfold fetchHtml.
  destruct maxRetries as [|m]; [left; split; reflexivity|]. right.
  apply fetchFrom_outcome; lia.
Qed.

Lemma X14_fetch_outcome_witness :
  (5 = 0 /\
   fetchHtml 5 1000 ex_server = (GaveUp 0 None, [])) \/
  (exists k,
     1 <= k <= 5 /\
     (forall j, 1 <= j < k -> failsRetriably ex_server j) /\
     snd (fetchHtml 5 1000 ex_server) = retried 1000 1 (k - 1) ++ [Get k] /\
     endsAt 5 ex_server k (fst (fetchHtml 5 1000 ex_server))).
Proof. exact (X14_fetch_outcome 5 1000 ex_server). Defined.

(** X15.  The pauses of a fetch add up to [retryDelay] times the sum of the
    attempt numbers that were retried, at most
    [retryDelay * maxRetries * (maxRetries - 1) / 2]; a fetch that returns
    the data of attempt k has paused [retryDelay * k * (k - 1) / 2]. *)
Theorem X15_fetch_total_pause : forall maxRetries retryDelay server,
  2 * totalSleep (snd (fetchHtml maxRetries retryDelay server))
    <= retryDelay * (maxRetries * (maxRetries - 1)) /\
  (forall k data,
     1 <= k <= maxRetries ->
     (forall j, 1 <= j < k -> failsRetriably server j) ->
     server k = Responds data ->
     fetchHtml maxRetries retryDelay server =
       (Fetched data, retried retryDelay 1 (k - 1) ++ [Get k]) /\
     2 * totalSleep (snd (fetchHtml maxRetries retryDelay server))
       = retryDelay * (k * (k - 1))).
Proof.
  intros maxRetries retryDelay server. split.
  - unfold fetchHtml. destruct maxRetries as [|m]; [cbn; lia|].
    destruct (@fetchFrom_outcome (S m) retryDelay server (S m) 1 None)
      as (k & Hk & _ & Ev & _); [lia|lia|].
    rewrite Ev. replace k with (1 + (k - 1)) at 2 by lia.
    pose proof (totalSleep_retried retryDelay (k - 1) 1) as T.
    remember (totalSleep (retried retryDelay 1 (k - 1) ++ [Get (1 + (k - 1))])) as t.
    assert (M : retryDelay * (k * (k - 1)) <= retryDelay * (S m * (S m - 1)))
      by (apply Nat.mul_le_mono_l; nia).
    nia.
  - intros k data Hk All Sv.
    assert (F : fetchHtml maxRetries retryDelay server =
                (Fetched data, retried retryDelay 1 (k - 1) ++ [Get k])).
    { unfold fetchHtml.
      destruct (@fetchFrom_retries maxRetries retryDelay server (k - 1)
                  (maxRetries - (k - 1)) 1 None) as (last' & E).
      { lia. } { intros j Hj. apply All. lia. }
      replace (k - 1 + (maxRetries - (k - 1))) with maxRetries in E by lia.
      rewrite E. replace (1 + (k - 1)) with k by lia.
      destruct (maxRetries - (k - 1)) as [|remaining] eqn:R; [lia|].
      cbn [fetchFrom].
      assert (L : (k <=? maxRetries) = true) by (apply Nat.leb_le; lia).
      now rewrite L, Sv. }
    split; [exact F|]. rewrite F. cbn [snd].
    replace k with (1 + (k - 1)) at 2 by lia.
    pose proof (totalSleep_retried retryDelay (k - 1) 1) as T.
    remember (totalSleep (retried retryDelay 1 (k - 1) ++ [Get (1 + (k - 1))])) as t.
    nia.
Qed.

Lemma X15_fetch_total_pause_witness :
  fetchHtml 3 1000 (ex_recovering 2) =
    (Fetched (str "<table></table>"), retried 1000 1 (3 - 1) ++ [Get 3]) /\
  2 * totalSleep (snd (fetchHtml 3 1000 (ex_recovering 2))) = 1000 * (3 * (3 - 1)).
Proof.
  apply (proj2 (X15_fetch_total_pause 3 1000 (ex_recovering 2)) 3 (str "<table></table>")).
  - lia.
  - intros j Hj. unfold failsRetriably.
    assert (J : j = 1 \/ j = 2) by lia.
    destruct J as [-> | ->]; eexists; split; reflexivity.
  - reflexivity.
Defined.

(** ** The life cycle of a service *)

Lemma alternates_snoc : forall hs first h,
  BaseService.alternates first hs ->
  h = (if Nat.even (length hs) then first
       else match first with
            | BaseService.OnInitialize => BaseService.OnDestroy
            | BaseService.OnDestroy => BaseService.OnInitialize
            end) ->
  BaseService.alternates first (hs ++ [h]).
Proof.
  induction hs as [|x hs IH]; intros first h A E; cbn [BaseService.alternates app] in *.
  - now split.
  - destruct A as [-> A]. split; [reflexivity|]. apply IH; [exact A|].
    rewrite E. cbn [length]. rewrite Nat.even_succ, <- Nat.negb_even.
    destruct (Nat.even (length hs)), first; reflexivity.
Qed.

Lemma resolved_snoc : forall s h o,
  BaseService.resolved
    {| BaseService.isInitialized := BaseService.isInitialized s;
       BaseService.hookCalls := BaseService.hookCalls s ++ [(h, o)] |} =
  BaseService.resolved s ++
    match o with BaseService.Resolves => [h] | BaseService.Rejects _ => [] end.
Proof.
  intros s h o. unfold BaseService.resolved. cbn [BaseService.hookCalls].
  rewrite filter_app, map_app. now destruct o.
Qed.

(** The hooks that resolved alternate, and the flag tells which came last. *)
Lemma lifecycle_call : forall c s,
  BaseService.alternates BaseService.OnInitialize (BaseService.resolved s) /\
  BaseService.isInitialized s = Nat.odd (length (BaseService.resolved s)) ->
  BaseService.alternates BaseService.OnInitialize
    (BaseService.resolved (fst (BaseService.call c s))) /\
  BaseService.isInitialized (fst (BaseService.call c s)) =
    Nat.odd (length (BaseService.resolved (fst (BaseService.call c s)))).
Proof.
  intros c [flag hs] [A F]. cbn [BaseService.isInitialized] in F.
  assert (Snoc : forall h,
            h = (if flag then BaseService.OnDestroy else BaseService.OnInitialize) ->
            BaseService.alternates BaseService.OnInitialize
              (BaseService.resolved {| BaseService.isInitialized := flag;
                                       BaseService.hookCalls := hs |} ++ [h]) /\
            negb flag =
              Nat.odd (length (BaseService.resolved
                                 {| BaseService.isInitialized := flag;
                                    BaseService.hookCalls := hs |} ++ [h]))).
  { intros h ->. split.
    - apply alternates_snoc; [exact A|]. rewrite <- Nat.negb_odd, <- F. now destruct flag.
    - rewrite length_app, Nat.add_1_r, Nat.odd_succ, <- Nat.negb_odd, <- F. reflexivity. }
  destruct c as [[|e] | [|e]]; unfold BaseService.call, BaseService.initialize,
    BaseService.destroy; cbn [BaseService.isInitialized BaseService.hookCalls];
    destruct flag eqn:Fl; cbn [negb fst]; try (split; assumption).
  - pose proof (resolved_snoc {| BaseService.isInitialized := false;
                                 BaseService.hookCalls := hs |}
                  BaseService.OnInitialize BaseService.Resolves) as R.
    cbn [BaseService.isInitialized BaseService.hookCalls] in R.
    unfold BaseService.resolved in *. cbn [BaseService.hookCalls] in *.
    rewrite R. apply (Snoc BaseService.OnInitialize eq_refl).
  - pose proof (resolved_snoc {| BaseService.isInitialized := false;
                                 BaseService.hookCalls := hs |}
                  BaseService.OnInitialize (BaseService.Rejects e)) as R.
    cbn [BaseService.isInitialized BaseService.hookCalls] in R.
    unfold BaseService.resolved in *. cbn [BaseService.hookCalls] in *.
    rewrite R, app_nil_r. now split.
  - pose proof (resolved_snoc {| BaseService.isInitialized := true;
                                 BaseService.hookCalls := hs |}
                  BaseService.OnDestroy BaseService.Resolves) as R.
    cbn [BaseService.isInitialized BaseService.hookCalls] in R.
    unfold BaseService.resolved in *. cbn [BaseService.hookCalls] in *.
    rewrite R. apply (Snoc BaseService.OnDestroy eq_refl).
  - pose proof (resolved_snoc {| BaseService.isInitialized := true;
                                 BaseService.hookCalls := hs |}
                  BaseService.OnDestroy (BaseService.Rejects e)) as R.
    cbn [BaseService.isInitialized BaseService.hookCalls] in R.
    unfold BaseService.resolved in *. cbn [BaseService.hookCalls] in *.
    rewrite R, app_nil_r. now split.
Qed.

Lemma lifecycle_calls : forall cs s,
  BaseService.alternates BaseService.OnInitialize (BaseService.resolved s) /\
  BaseService.isInitialized s = Nat.odd (length (BaseService.resolved s)) ->
  BaseService.alternates BaseService.OnInitialize
    (BaseService.resolved (BaseService.calls cs s)) /\
  BaseService.isInitialized (BaseService.calls cs s) =
    Nat.odd (length (BaseService.resolved (BaseService.calls cs s))).
Proof.
  unfold BaseService.calls. induction cs as [|c cs IH]; intros s I; [exact I|].
  cbn [fold_left]. apply IH. now apply lifecycle_call.
Qed.

Lemma alternates_last : forall before first h,
  BaseService.alternates first (before ++ [h]) ->
  h = (if Nat.even (length before) then first
       else match first with
            | BaseService.OnInitialize => BaseService.OnDestroy
            | BaseService.OnDestroy => BaseService.OnInitialize
            end).
Proof.
  induction before as [|x before IH]; intros first h A;
    cbn [BaseService.alternates app] in A.
  - now destruct A.
  - destruct A as [_ A]. apply IH in A. rewrite A. cbn [length].
    rewrite Nat.even_succ, <- Nat.negb_even.
    destruct (Nat.even (length before)), first; reflexivity.
Qed.

(** X16.  Whatever [initialize] and [destroy] calls are made on a service,
    one after the other, and however the hooks end: the hooks that resolved
    alternate, [onInitialize] first, so that nothing is set up twice without
    being torn down in between; the service counts as initialised exactly
    when the last hook that resolved was [onInitialize], and exactly then a
    guarded method does not throw. *)
Theorem X16_lifecycle_alternates :
  forall (cs : list BaseService.Call) (serviceName : jsstring),
  BaseService.alternates BaseService.OnInitialize
    (BaseService.resolved (BaseService.calls cs BaseService.created)) /\
  BaseService.isInitialized (BaseService.calls cs BaseService.created) =
    Nat.odd (length (BaseService.resolved (BaseService.calls cs BaseService.created))) /\
  (ensureInitialized serviceName
     (BaseService.isInitialized (BaseService.calls cs BaseService.created)) = Returns tt <->
   exists before,
     BaseService.resolved (BaseService.calls cs BaseService.created) =
       before ++ [BaseService.OnInitialize]).
Proof.
  intros cs serviceName.
  destruct (@lifecycle_calls cs BaseService.created) as [A F].
  { split; [exact I | reflexivity]. }
  split; [exact A|]. split; [exact F|].
  unfold ensureInitialized. rewrite F.
  set (hs := BaseService.resolved (BaseService.calls cs BaseService.created)) in *.
  split.
  - intros H. destruct (Nat.odd (length hs)) eqn:O; [|discriminate H].
    destruct hs as [|x hs'] using rev_ind; [discriminate O|].
    exists hs'. f_equal. f_equal. apply alternates_last in A. rewrite A.
    rewrite length_app, Nat.add_1_r, Nat.odd_succ in O. now rewrite O.
  - intros [before E]. rewrite E in A |- *. apply alternates_last in A.
    rewrite length_app, Nat.add_1_r, Nat.odd_succ.
    destruct (Nat.even (length before)); [reflexivity | discriminate A].
Qed.

Lemma X16_lifecycle_alternates_witness :
  ensureInitialized (str "ParserService")
    (BaseService.isInitialized
       (BaseService.calls
          [BaseService.Initialize (BaseService.Rejects (str "down"));
           BaseService.Initialize BaseService.Resolves;
           BaseService.Initialize BaseService.Resolves]
          BaseService.created)) = Returns tt.
Proof.
  apply (proj2 (proj2 (X16_lifecycle_alternates
                  [BaseService.Initialize (BaseService.Rejects (str "down"));
                   BaseService.Initialize BaseService.Resolves;
                   BaseService.Initialize BaseService.Resolves]
                  (str "ParserService")))).
  exists []. reflexivity.
Defined.

(** ** The consumer *)

Import Consumer.

Lemma run_app : forall es1 es2 cfg,
  run (es1 ++ es2) cfg =
  match run es1 cfg with
  | Some cfg' => run es2 cfg'
  | None => None
  end.
Proof.
  induction es1 as [|e es1 IH]; intros es2 cfg; cbn; [reflexivity|].
  destruct (step e cfg); [apply IH | reflexivity].
Qed.

Lemma run_reachable : forall bs es cfg cfg',
  reachable bs cfg -> run es cfg = Some cfg' -> reachable bs cfg'.
Proof.
  intros bs es. induction es as [|e es IH]; intros cfg cfg' R H; cbn in H.
  - now injection H as <-.
  - destruct (step e cfg) as [cfg1|] eqn:S1; [|discriminate].
    eapply IH; [|exact H]. eapply reachable_step; eauto.
Qed.

(** Every step is made of the functions below; a property of the world that
    each of them keeps is kept by every step. *)
Section StepInvariant.

Variable P : World -> Prop.

Hypothesis P_handlerBody : forall r w, P w -> P (fst (handlerBody r w)).
Hypothesis P_createTable : forall s w,
  P w -> w.(currentSchema) = Some s -> w.(tableInitialized) = false ->
  P (logCreateTable s w).
Hypothesis P_freshBuffer : forall w, P w -> P (freshBuffer w).
Hypothesis P_receive : forall m w,
  P w ->
  P (push m.(row) (if negb (isSome w.(currentSchema)) && isSome m.(schema)
                   then set_currentSchema m.(schema) w else w)).
Hypothesis P_controllerTimer : forall w, P w -> P (fst (controllerTimer w)).
Hypothesis P_tableInitialized : forall w, P w -> P (set_tableInitialized true w).
Hypothesis P_cleared : forall w, P w -> P (set_ctl_messageBuffer [] w).
Hypothesis P_disconnected : forall w, P w -> P (set_isConnected false w).
Hypothesis P_exited : forall w, P w -> P (set_exited true w).

Lemma P_callHandler : forall r w, P w -> P (fst (callHandler w.(currentSchema) r w)).
Proof.
  intros r w H. unfold callHandler.
  destruct (tableInitialized w) eqn:T; [now apply P_handlerBody|].
  destruct (currentSchema w) as [s|] eqn:E; [|now apply P_handlerBody].
  cbn [fst]. now apply P_createTable.
Qed.

Lemma P_afterFlush : forall c w, P w -> P (fst (afterFlush c w)).
Proof. intros [] w H; exact H. Qed.

Lemma P_iterate : forall c b i w, P w -> P (fst (iterate c b i w)).
Proof.
  intros c b i w H. unfold iterate.
  destruct (nth_error (arrayAt w b) i) as [r|].
  - pose proof (P_callHandler r H) as H1.
    destruct (callHandler (currentSchema w) r w). exact H1.
  - apply P_afterFlush. now apply P_freshBuffer.
Qed.

Lemma P_flushBuffer : forall c w, P w -> P (fst (flushBuffer c w)).
Proof.
  intros c w H. unfold flushBuffer.
  destruct (_ || _); [now apply P_afterFlush | now apply P_iterate].
Qed.

Lemma P_handleMessage : forall m w, P w -> P (fst (handleMessage m w)).
Proof.
  intros m w H. unfold handleMessage.
  pose proof (P_receive m H) as H1.
  destruct (_ && messageHandler _); [now apply P_flushBuffer | exact H1].
Qed.

Lemma P_kafkaTimer : forall w, P w -> P (fst (kafkaTimer w)).
Proof.
  intros w H. unfold kafkaTimer.
  destruct (_ && _); [now apply P_flushBuffer | exact H].
Qed.

Lemma P_destroy : forall w, P w -> P (fst (destroy w)).
Proof.
  intros w H. unfold destroy.
  destruct (isConnected w); [|exact H].
  destruct (_ && _); [now apply P_flushBuffer | exact H].
Qed.

Lemma P_resume : forall t w, P w -> P (fst (resume t w)).
Proof.
  intros [c b i [r| |]| | |] w H; cbn [resume].
  - pose proof (P_handlerBody r (P_tableInitialized H)) as H1.
    destruct (handlerBody r (set_tableInitialized true w)). exact H1.
  - now apply P_cleared.
  - now apply P_iterate.
  - now apply P_cleared.
  - now apply P_disconnected.
  - now apply P_exited.
Qed.

Lemma P_step : forall e w ts w' ts',
  step e (w, ts) = Some (w', ts') -> P w -> P w'.
Proof.
  intros e w ts w' ts' S H. unfold step in S.
  destruct (exited w); [discriminate|].
  destruct e as [m| | |n|]; unfold spawn in S.
  - destruct (_ && _); [|discriminate]. injection S as <- _.
    now apply P_handleMessage.
  - injection S as <- _. now apply P_kafkaTimer.
  - injection S as <- _. now apply P_controllerTimer.
  - destruct (nth_error ts n) as [t|]; [|discriminate].
    pose proof (P_resume t H) as H1.
    destruct (resume t w). injection S as <- _. exact H1.
  - injection S as <- _. now apply P_destroy.
Qed.

(** Every step but the firing of the controller's timer. *)
Lemma P_step_but_controllerTimer : forall e w ts w' ts',
  e <> ControllerTimer ->
  step e (w, ts) = Some (w', ts') -> P w -> P w'.
Proof.
  intros e w ts w' ts' N Hstep H. unfold step in Hstep.
  destruct (exited w); [discriminate|].
  destruct e as [m| | |n|]; unfold spawn in Hstep.
  - destruct (_ && _); [|discriminate]. injection Hstep as <- _.
    now apply P_handleMessage.
  - injection Hstep as <- _. now apply P_kafkaTimer.
  - contradiction.
  - destruct (nth_error ts n) as [t|]; [|discriminate].
    pose proof (P_resume t H) as H1.
    destruct (resume t w). injection Hstep as <- _. exact H1.
  - injection Hstep as <- _. now apply P_destroy.
Qed.

Lemma P_reachable : forall bs cfg,
  P (init bs) -> reachable bs cfg -> P (fst cfg).
Proof.
  intros bs cfg H0 R. induction R as [|[w ts] e [w' ts'] R IH S]; [exact H0|].
  cbn [fst] in *. eapply P_step; eauto.
Qed.

End StepInvariant.

(** *** C9: no batch write with zero rows *)

Lemma length_pos_nonempty : forall (A : Type) (l : list A) n,
  (n <=? length l) = true -> 0 < n -> l <> [].
Proof.
  intros A [|x l] n H Hn; [|discriminate].
  apply Nat.leb_le in H. cbn in H. lia.
Qed.

Lemma nonEmptyBatches_step : forall e w ts w' ts',
  step e (w, ts) = Some (w', ts') -> nonEmptyBatches w -> nonEmptyBatches w'.
Proof.
  apply P_step; unfold nonEmptyBatches; try (intros; assumption).
  - intros r w H. unfold handlerBody.
    destruct (100 <=? _) eqn:E; cbn in *; [|exact H].
    apply Forall_app. split; [exact H|]. constructor; [|constructor].
    now destruct (ctl_messageBuffer w).
  - intros m w H. now destruct (_ && _).
  - intros w H. unfold controllerTimer.
    destruct (0 <? _) eqn:E; cbn in *; [|exact H].
    apply Forall_app. split; [exact H|]. constructor; [|constructor].
    now destruct (ctl_messageBuffer w).
Qed.

(** C9.  In every configuration the consumer can reach, every [insertBatch]
    call made so far was given at least one row.  [flushBuffer] on an empty
    buffer returns to its caller without calling the handler and without
    changing anything, for the size trigger as for the timer; each timer
    does nothing when its buffer is empty; and [insertBatch] itself issues
    no statement for zero rows. *)
Theorem C9_no_write_with_zero_rows :
  (forall bs cfg,
     reachable bs cfg ->
     Forall (fun rs : list TableRow => rs <> []) (fst cfg).(insertBatchCalls)) /\
  (forall c w, buffered w = [] -> flushBuffer c w = afterFlush c w) /\
  (forall w, buffered w = [] -> kafkaTimer w = (w, None)) /\
  (forall w, w.(ctl_messageBuffer) = [] -> controllerTimer w = (w, None)) /\
  insertBatch [] = None.
Proof.
  split; [|split; [|split; [|split]]].
  - intros bs cfg R. induction R as [|[w ts] e [w' ts'] R IH S].
    + constructor.
    + cbn [fst] in *. eapply nonEmptyBatches_step; eauto.
  - intros c w E. unfold flushBuffer. now rewrite E.
  - intros w E. unfold kafkaTimer. now rewrite E.
  - intros w E. unfold controllerTimer. now rewrite E.
  - reflexivity.
Qed.

(** *** The session schema *)

Lemma schema_kept_step : forall s e w ts w' ts',
  step e (w, ts) = Some (w', ts') ->
  w.(currentSchema) = Some s -> w'.(currentSchema) = Some s.
Proof.
  intros s. apply P_step; try (intros; assumption).
  - intros r w H. unfold handlerBody. now destruct (100 <=? _).
  - intros m w H. now rewrite H.
  - intros w H. unfold controllerTimer. now destruct (0 <? _).
Qed.

(** Nothing but the receipt of a message touches [currentSchema]. *)
Lemma schema_untouched :
  forall x : option TableSchema,
    (forall c w, w.(currentSchema) = x -> (fst (flushBuffer c w)).(currentSchema) = x) /\
    (forall w, w.(currentSchema) = x -> (fst (kafkaTimer w)).(currentSchema) = x) /\
    (forall w, w.(currentSchema) = x -> (fst (controllerTimer w)).(currentSchema) = x) /\
    (forall w, w.(currentSchema) = x -> (fst (destroy w)).(currentSchema) = x) /\
    (forall t w, w.(currentSchema) = x -> (fst (resume t w)).(currentSchema) = x).
Proof.
  intros x.
  assert (HB : forall r w, currentSchema w = x -> currentSchema (fst (handlerBody r w)) = x).
  { intros r w H. unfold handlerBody. now destruct (100 <=? _). }
  assert (CT : forall w, currentSchema w = x -> currentSchema (fst (controllerTimer w)) = x).
  { intros w H. unfold controllerTimer. now destruct (0 <? _). }
  repeat split.
  - intros c w. apply P_flushBuffer; auto.
  - apply P_kafkaTimer; auto.
  - exact CT.
  - apply P_destroy; auto.
  - intros t w. apply P_resume; auto.
Qed.

Lemma schema_after_step : forall e w ts w' ts',
  step e (w, ts) = Some (w', ts') ->
  w'.(currentSchema) =
  match w.(currentSchema) with
  | Some s => Some s
  | None => sessionSchema [e]
  end.
Proof.
  intros e w ts w' ts' S.
  destruct (currentSchema w) as [s|] eqn:E; [eapply schema_kept_step; eauto|].
  destruct (schema_untouched None) as (F & K & C & D & R).
  unfold step in S. destruct (exited w); [discriminate|].
  destruct e as [m| | |n|]; unfold spawn in S; cbn [sessionSchema].
  - destruct (_ && _); [|discriminate]. injection S as <- _.
    unfold handleMessage. rewrite E. cbn [isSome negb andb].
    destruct (schema m) as [s|] eqn:Sm; cbn [isSome].
    + destruct (_ && _); [|reflexivity].
      destruct (schema_untouched (Some s)) as (F' & _). now apply F'.
    + destruct (_ && _); [|exact E]. now apply F.
  - injection S as <- _. now apply K.
  - injection S as <- _. now apply C.
  - destruct (nth_error ts n) as [t|]; [|discriminate].
    pose proof (R t w E) as H1.
    destruct (resume t w). injection S as <- _. exact H1.
  - injection S as <- _. now apply D.
Qed.

Lemma sessionSchema_cons : forall e es,
  sessionSchema (e :: es) =
  match sessionSchema [e] with
  | Some s => Some s
  | None => sessionSchema es
  end.
Proof.
  intros [m| | |n|] es; cbn; try reflexivity. now destruct (schema m).
Qed.

Lemma schema_after_run : forall es w ts cfg,
  run es (w, ts) = Some cfg ->
  (fst cfg).(currentSchema) =
  match w.(currentSchema) with
  | Some s => Some s
  | None => sessionSchema es
  end.
Proof.
  induction es as [|e es IH]; intros w ts cfg H; cbn [run] in H.
  - injection H as <-. cbn. now destruct (currentSchema w).
  - destruct (step e (w, ts)) as [[w1 ts1]|] eqn:S1; [|discriminate].
    rewrite sessionSchema_cons, (IH _ _ _ H), (@schema_after_step _ _ _ _ _ S1).
    destruct (currentSchema w); [reflexivity|].
    now destruct (sessionSchema [e]).
Qed.

Lemma createdFromCurrent_step : forall e w ts w' ts',
  step e (w, ts) = Some (w', ts') -> createdFromCurrent w -> createdFromCurrent w'.
Proof.
  apply P_step; unfold createdFromCurrent; try (intros; assumption).
  - intros r w H. unfold handlerBody. now destruct (100 <=? _).
  - intros s w H E _. cbn. apply Forall_app. split; [exact H|].
    constructor; [exact E | constructor].
  - intros m w H.
    destruct (currentSchema w) as [s|] eqn:E; cbn [isSome negb andb].
    + cbn. rewrite E. exact H.
    + destruct (isSome (schema m)); cbn.
      * eapply Forall_impl; [|exact H]. cbn. intros a Ha. discriminate Ha.
      * rewrite E. exact H.
  - intros w H. unfold controllerTimer. now destruct (0 <? _).
Qed.

Lemma createdFromCurrent_reachable : forall bs cfg,
  reachable bs cfg -> createdFromCurrent (fst cfg).
Proof.
  intros bs cfg R. induction R as [|[w ts] e [w' ts'] R IH S].
  - constructor.
  - cbn [fst] in *. eapply createdFromCurrent_step; eauto.
Qed.

(** Once the table is there, no step creates it again. *)
Lemma created_once_step : forall log e w ts w' ts',
  step e (w, ts) = Some (w', ts') ->
  w.(tableInitialized) = true /\ w.(createTableCalls) = log ->
  w'.(tableInitialized) = true /\ w'.(createTableCalls) = log.
Proof.
  intros log. apply P_step; try (intros; assumption).
  - intros r w H. unfold handlerBody. now destruct (100 <=? _).
  - intros s w [T _] _ F. congruence.
  - intros m w H. now destruct (_ && _).
  - intros w H. unfold controllerTimer. now destruct (0 <? _).
  - intros w [_ H]. now split.
Qed.

Lemma nth_pushAt : forall h ref r,
  ref < length h -> nth ref (pushAt ref r h) [] = nth ref h [] ++ [r].
Proof.
  induction h as [|a h IH]; intros ref r H; cbn in H; [lia|].
  destruct ref as [|k]; cbn; [reflexivity|]. apply IH. lia.
Qed.

Lemma buffered_push : forall w r,
  wellFormed w -> buffered (push r w) = buffered w ++ [r].
Proof. intros w r H. unfold buffered, arrayAt, push. cbn. now apply nth_pushAt. Qed.

(** *** C2: flushes that do not overlap, and flushes that do *)

Lemma skipn_nth_error : forall (A : Type) (l : list A) i x,
  nth_error l i = Some x -> skipn i l = x :: skipn (S i) l.
Proof.
  induction l as [|a l IH]; intros [|i] x H; cbn in *; try discriminate.
  - now injection H as ->.
  - now apply IH.
Qed.

Lemma skipn_nth_error_None : forall (A : Type) (l : list A) i,
  nth_error l i = None -> skipn i l = [].
Proof. intros A l i H. apply skipn_all2. now apply nth_error_None. Qed.

Lemma buffered_freshBuffer : forall w, buffered (freshBuffer w) = [].
Proof.
  intros w. unfold buffered, arrayAt, freshBuffer. cbn.
  rewrite app_nth2 by lia. now rewrite Nat.sub_diag.
Qed.

Lemma wellFormed_freshBuffer : forall w, wellFormed (freshBuffer w).
Proof. intros w. unfold wellFormed, freshBuffer. cbn. rewrite length_app. cbn. lia. Qed.

(** The handler's body on row [r], called from element [i] of buffer [b]. *)
Lemma handlerBody_spec : forall r w c b i,
  let res := handlerBody r w in
  (fst res).(heap) = w.(heap) /\
  (fst res).(messageBuffer) = w.(messageBuffer) /\
  (fst res).(exited) = w.(exited) /\
  owed (fst res) (Flushing c b i (snd res)) =
    concat w.(insertBatchCalls) ++ w.(ctl_messageBuffer) ++ [r]
      ++ skipn (S i) (arrayAt w b) /\
  size (fst res) (Flushing c b i (snd res)) <= 4 + 3 * (S (length (arrayAt w b)) - i).
Proof.
  intros r w c b i. unfold handlerBody.
  destruct (100 <=? _); cbn -[Nat.mul skipn]; unfold arrayAt; cbn -[Nat.mul skipn];
    repeat split; try lia.
  - rewrite concat_app. cbn [concat]. now rewrite app_nil_r, <- !app_assoc.
  - now rewrite <- !app_assoc.
Qed.

Lemma callHandler_spec : forall s r w c b i,
  let res := callHandler s r w in
  (fst res).(heap) = w.(heap) /\
  (fst res).(messageBuffer) = w.(messageBuffer) /\
  (fst res).(exited) = w.(exited) /\
  owed (fst res) (Flushing c b i (snd res)) =
    concat w.(insertBatchCalls) ++ w.(ctl_messageBuffer) ++ [r]
      ++ skipn (S i) (arrayAt w b) /\
  size (fst res) (Flushing c b i (snd res)) <= 5 + 3 * (S (length (arrayAt w b)) - i).
Proof.
  intros s r w c b i. unfold callHandler.
  destruct (tableInitialized w), s as [sch|];
    try (pose proof (handlerBody_spec r w c b i) as H; cbn zeta in H;
         intuition lia).
  cbn -[Nat.mul skipn]. unfold arrayAt. cbn -[Nat.mul skipn].
  repeat split; lia.
Qed.

Lemma afterFlush_spec : forall c w,
  wellFormed w ->
  let res := afterFlush c w in
  owedAfter res = accounted w /\ onCurrentAfter res /\ smallerAfter 3 w res.
Proof.
  intros [] w W; cbn; unfold onCurrentAfter, smallerAfter; cbn; repeat split;
    try assumption; lia.
Qed.

(** The loop on the current buffer, about to fetch element [i]. *)
Lemma iterate_spec : forall c i w,
  wellFormed w ->
  let res := iterate c w.(messageBuffer) i w in
  owedAfter res =
    concat w.(insertBatchCalls) ++ w.(ctl_messageBuffer) ++ skipn i (buffered w) /\
  onCurrentAfter res /\
  smallerAfter (6 + 3 * (S (length (buffered w)) - i)) w res /\
  (forall j, i = S j ->
   smallerAfter (size w (Flushing c w.(messageBuffer) j Settled)) w res).
Proof.
  intros c i w W. unfold iterate. fold (buffered w).
  destruct (nth_error (buffered w) i) as [r|] eqn:N.
  - pose proof (callHandler_spec (currentSchema w) r w c (messageBuffer w) i) as H.
    cbn zeta in H. fold (buffered w) in H.
    destruct (callHandler (currentSchema w) r w) as [w1 p].
    cbn [fst snd] in H. destruct H as (Hh & Hm & He & Ho & Hs).
    unfold owedAfter, onCurrentAfter, smallerAfter, wellFormed. cbn [fst snd onCurrent].
    rewrite Ho, (skipn_nth_error _ _ N), Hh, Hm, He.
    assert (i < length (buffered w)) by (apply nth_error_Some; congruence).
    split; [reflexivity|]. split; [split; [assumption | reflexivity]|].
    split; [split; [lia | reflexivity]|].
    intros j ->. split; [|reflexivity].
    change (size w (Flushing c (messageBuffer w) j Settled))
      with (3 + 3 * (S (length (buffered w)) - j) + 0).
    lia.
  - pose proof (afterFlush_spec c (wellFormed_freshBuffer w)) as H.
    cbn zeta in H. destruct H as (Ho & Hc & Hs).
    rewrite (skipn_nth_error_None _ _ N).
    assert (length (buffered w) <= i) by now apply nth_error_None.
    repeat split.
    + rewrite Ho. unfold accounted. rewrite buffered_freshBuffer.
      unfold freshBuffer. cbn. reflexivity.
    + apply Hc.
    + apply Hc.
    + unfold smallerAfter in *. destruct (snd (afterFlush c (freshBuffer w))); [|exact I].
      destruct Hs as [Hs He]. split; [lia | exact He].
    + intros j _. unfold smallerAfter in *. cbn [size].
      destruct (snd (afterFlush c (freshBuffer w))); [|exact I].
      destruct Hs as [Hs He]. split; [lia | exact He].
Qed.

Lemma resume_spec : forall t w,
  wellFormed w -> onCurrent w t ->
  let res := resume t w in
  owedAfter res = owed w t /\ onCurrentAfter res /\ smallerAfter (size w t) w res.
Proof.
  intros [c b i [r| |]| | |] w W C; cbn [onCurrent] in C; subst; cbn [resume].
  - pose proof (handlerBody_spec r (set_tableInitialized true w) c (messageBuffer w) i) as H.
    cbn zeta in H.
    destruct (handlerBody r (set_tableInitialized true w)) as [w1 p].
    cbn [fst snd] in H. destruct H as (Hh & Hm & He & Ho & Hs).
    unfold owedAfter, onCurrentAfter, smallerAfter, wellFormed in *.
    cbn [fst snd onCurrent]. rewrite Ho, Hh, Hm, He.
    repeat split; try assumption.
    change (size w (Flushing c (messageBuffer w) i (AwaitCreateTable r)))
      with (3 + 3 * (S (length (arrayAt (set_tableInitialized true w)
                                   (messageBuffer w))) - i) + 2).
    lia.
  - unfold owedAfter, onCurrentAfter, smallerAfter, wellFormed in *.
    cbn -[Nat.mul Nat.sub Nat.add skipn]. unfold arrayAt.
    cbn -[Nat.mul Nat.sub Nat.add skipn]. repeat split; try assumption. lia.
  - pose proof (iterate_spec c (S i) W) as (Ho & Hc & _ & Hs).
    repeat split; try apply Hc.
    + rewrite Ho. reflexivity.
    + now apply Hs.
  - unfold owedAfter, onCurrentAfter, smallerAfter. cbn. repeat split. exact W.
  - unfold owedAfter, onCurrentAfter, smallerAfter. cbn. repeat split; try exact W. lia.
  - unfold owedAfter, onCurrentAfter, smallerAfter. cbn. repeat split. exact W.
Qed.

Lemma step_resume_alone : forall t w,
  w.(exited) = false ->
  step (Resume 0) (w, [t]) = Some (fst (resume t w), toList (snd (resume t w))).
Proof.
  intros t w E. unfold step. rewrite E. cbn [nth_error firstn skipn app].
  destruct (resume t w). now rewrite app_nil_r.
Qed.

(** A task that runs alone reaches its end, and the rows are then where
    [owed] says. *)
Lemma settles_owed : forall n t w,
  size w t < n -> w.(exited) = false -> wellFormed w -> onCurrent w t ->
  exists w', settles (w, [t]) w' /\ accounted w' = owed w t /\ wellFormed w'.
Proof.
  induction n as [|n IH]; intros t w Hn E W C; [lia|].
  pose proof (resume_spec t W C) as (Ho & [W1 C1] & Hs).
  pose proof (step_resume_alone t w E) as S.
  destruct (resume t w) as [w1 [t1|]]; cbn [fst snd toList] in *.
  - unfold owedAfter, smallerAfter in *. cbn [fst snd] in *. destruct Hs as [Hs E1].
    destruct (IH t1 w1) as (w' & St & A & W'); try assumption; try lia; [congruence|].
    exists w'. repeat split; try assumption.
    + eapply settles_resume; eauto.
    + congruence.
  - exists w1. repeat split; try assumption.
    eapply settles_resume; [exact S | constructor].
Qed.

Lemma flushBuffer_spec : forall c w,
  wellFormed w ->
  let res := flushBuffer c w in
  owedAfter res = accounted w /\ onCurrentAfter res /\
  (forall t, snd res = Some t -> (fst res).(exited) = w.(exited)).
Proof.
  intros c w W. unfold flushBuffer. destruct (_ || _).
  - pose proof (afterFlush_spec c W) as (Ho & Hc & Hs). cbn zeta.
    repeat split; try assumption; try apply Hc.
    intros t Et. unfold smallerAfter in Hs. rewrite Et in Hs. apply Hs.
  - pose proof (iterate_spec c 0 W) as (Ho & Hc & Hs & _). cbn zeta.
    repeat split; try apply Hc.
    + rewrite Ho. reflexivity.
    + intros t Et. unfold smallerAfter in Hs. rewrite Et in Hs. apply Hs.
Qed.

Lemma length_pushAt : forall h ref r, length (pushAt ref r h) = length h.
Proof.
  induction h as [|a h IH]; intros [|k] r; cbn; try reflexivity. now rewrite IH.
Qed.

Lemma push_spec : forall r w,
  wellFormed w ->
  wellFormed (push r w) /\ accounted (push r w) = accounted w ++ [r] /\
  (push r w).(exited) = w.(exited).
Proof.
  intros r w W. repeat split.
  - unfold wellFormed, push in *. cbn. now rewrite length_pushAt.
  - unfold accounted. rewrite (buffered_push r W). cbn.
    now rewrite <- !app_assoc.
Qed.

(** What a trigger starts when nothing is suspended. *)
Lemma trigger_spec : forall e w cfg,
  isTrigger e = true -> wellFormed w -> step e (w, []) = Some cfg ->
  exists res,
    cfg = (fst res, toList (snd res)) /\
    owedAfter res = accounted w ++ deliveredBy e /\
    onCurrentAfter res /\
    (forall t, snd res = Some t -> (fst res).(exited) = false).
Proof.
  intros e w cfg T W S. unfold step in S.
  destruct (exited w) eqn:E; [discriminate|].
  destruct e as [m| | |n|]; try discriminate T; unfold spawn in S; cbn [app] in S;
    cbn [deliveredBy]; rewrite ?app_nil_r.
  - destruct (_ && _); [|discriminate]. injection S as <-.
    exists (handleMessage m w). split; [reflexivity|].
    unfold handleMessage.
    set (w1 := if negb (isSome (currentSchema w)) && isSome (schema m)
               then set_currentSchema (schema m) w else w).
    assert (W1 : wellFormed w1 /\ accounted w1 = accounted w /\ exited w1 = false).
    { subst w1. now destruct (_ && _). }
    destruct W1 as (W1 & A1 & E1).
    destruct (push_spec (row m) W1) as (W2 & A2 & E2).
    destruct (_ && messageHandler _).
    + destruct (flushBuffer_spec FromHandleMessage W2) as (Ho & Hc & He).
      repeat split; try apply Hc.
      * rewrite Ho. congruence.
      * intros t Et. rewrite (He t Et). congruence.
    + unfold owedAfter, onCurrentAfter. cbn [fst snd].
      repeat split; try assumption; congruence.
  - injection S as <-. exists (kafkaTimer w). split; [reflexivity|].
    unfold kafkaTimer. destruct (_ && _).
    + destruct (flushBuffer_spec FromTimer W) as (Ho & Hc & He).
      repeat split; try apply Hc; [exact Ho|].
      intros t Et. rewrite (He t Et). exact E.
    + unfold owedAfter, onCurrentAfter. cbn [fst snd].
      repeat split; try assumption; discriminate.
  - injection S as <-. exists (controllerTimer w). split; [reflexivity|].
    unfold controllerTimer. destruct (0 <? _).
    + unfold owedAfter, onCurrentAfter, accounted. cbn.
      repeat split; try assumption; [|intros; assumption].
      rewrite concat_app. cbn [concat]. now rewrite app_nil_r, <- !app_assoc.
    + unfold owedAfter, onCurrentAfter. cbn [fst snd].
      repeat split; try assumption; discriminate.
  - injection S as <-. exists (destroy w). split; [reflexivity|].
    unfold destroy. destruct (isConnected w).
    + destruct (_ && _).
      * destruct (flushBuffer_spec FromDisconnect W) as (Ho & Hc & He).
        repeat split; try apply Hc; [exact Ho|].
        intros t Et. rewrite (He t Et). exact E.
      * unfold owedAfter, onCurrentAfter. cbn.
        repeat split; try assumption. intros; assumption.
    + unfold owedAfter, onCurrentAfter. cbn.
      repeat split; try assumption. intros; assumption.
Qed.

Lemma trigger_settles : forall e w cfg,
  isTrigger e = true -> wellFormed w -> step e (w, []) = Some cfg ->
  exists w', settles cfg w' /\ accounted w' = accounted w ++ deliveredBy e /\
             wellFormed w'.
Proof.
  intros e w cfg T W Hstep.
  destruct (trigger_spec e T W Hstep) as ([w1 [t|]] & -> & Ho & [W1 C1] & He);
    unfold owedAfter in Ho; cbn [fst snd toList] in *.
  - destruct (@settles_owed (S (size w1 t)) t w1) as (w' & St & A & W');
      try assumption; [lia | now apply (He t) |].
    exists w'. repeat split; try assumption. congruence.
  - exists w1. repeat split; try assumption. constructor.
Qed.

Lemma quiet_accounted : forall bs ds w,
  quiet bs ds w -> accounted w = ds /\ wellFormed w.
Proof.
  intros bs ds w Q. induction Q as [|ds w e cfg w' Q [IH W] T S St].
  - split; [reflexivity|]. unfold wellFormed. cbn. lia.
  - destruct (trigger_settles e T W S) as (w2 & St2 & A2 & W2).
    assert (w' = w2) as ->.
    { clear - St St2. revert w2 St2.
      induction St as [w0|w0 t cfg' w0' S1 St1 IH1]; intros w2 St2.
      - now inversion St2.
      - inversion St2 as [|? ? cfg2 ? S2 St2']; subst.
        rewrite S1 in S2. injection S2 as <-. now apply IH1. }
    split; [congruence | assumption].
Qed.

Lemma trigger_enabled : forall e w,
  isTrigger e = true -> w.(exited) = false ->
  (isDeliver e = true -> w.(isConnected) = true) ->
  exists cfg, step e (w, []) = Some cfg.
Proof.
  intros e w T E D. unfold step. rewrite E.
  destruct e as [m| | |n|]; try discriminate T; unfold spawn; try (now eexists).
  rewrite (D eq_refl). cbn. now eexists.
Qed.


Lemma handlerBody_exited : forall r w, (fst (handlerBody r w)).(exited) = w.(exited).
Proof. intros r w. unfold handlerBody. now destruct (100 <=? _). Qed.











(** *** C3: the shutdown *)

(** Running the only task to its end, as a run of the event loop. *)
Lemma settles_run : forall n cfg w',
  length (snd cfg) <= 1 ->
  run (repeat (Resume 0) n) cfg = Some (w', []) ->
  settles cfg w'.
Proof.
  induction n as [|n IH]; intros [w ts] w' L R; cbn [repeat run] in R.
  - injection R as -> ->. constructor.
  - destruct (step (Resume 0) (w, ts)) as [cfg1|] eqn:S1; [|discriminate].
    destruct ts as [|t [|t2 ts]]; cbn [snd length] in L; [| |lia].
    + unfold step in S1. destruct (exited w); discriminate.
    + eapply settles_resume; [exact S1|]. apply IH; [|exact R].
      assert (E : exited w = false).
      { unfold step in S1. destruct (exited w); [discriminate S1 | reflexivity]. }
      rewrite (step_resume_alone t w E) in S1.
      injection S1 as <-. cbn [snd]. destruct (snd (resume t w)); cbn; lia.
Qed.

Lemma fullBatchesSince_step : forall log e w ts w' ts',
  e <> ControllerTimer ->
  step e (w, ts) = Some (w', ts') ->
  fullBatchesSince log w -> fullBatchesSince log w'.
Proof.
  intros log. apply P_step_but_controllerTimer; try (intros; assumption).
  - intros r w (new & E & F). unfold handlerBody.
    destruct (100 <=? _) eqn:L; cbn; [|now exists new].
    exists (new ++ [ctl_messageBuffer w ++ [r]]). split.
    + cbn. rewrite E. now rewrite app_assoc.
    + apply Forall_app. split; [exact F|]. constructor; [|constructor].
      apply Nat.leb_le in L. exact L.
  - intros m w H. now destruct (_ && _).
Qed.

Lemma fullBatchesSince_settles : forall log cfg w',
  settles cfg w' -> fullBatchesSince log (fst cfg) -> fullBatchesSince log w'.
Proof.
  intros log cfg w' St. induction St as [w|w t [w1 ts1] w' Hstep St IH]; intros H.
  - exact H.
  - apply IH. cbn [fst] in *.
    eapply fullBatchesSince_step; [|exact Hstep|exact H]. discriminate.
Qed.

Lemma callHandler_exited : forall s r w, (fst (callHandler s r w)).(exited) = w.(exited).
Proof.
  intros s r w. unfold callHandler.
  destruct (tableInitialized w), s; try apply handlerBody_exited. reflexivity.
Qed.

Lemma exiting_iterate : forall b i w,
  w.(exited) = false ->
  exiting (fst (iterate FromDisconnect b i w), toList (snd (iterate FromDisconnect b i w))).
Proof.
  intros b i w E. unfold iterate.
  destruct (nth_error (arrayAt w b) i) as [r|].
  - pose proof (callHandler_exited (currentSchema w) r w) as He.
    destruct (callHandler (currentSchema w) r w) as [w1 p].
    unfold exiting. cbn in *. congruence.
  - unfold exiting. cbn. exact E.
Qed.

Lemma exiting_resume : forall w t cfg',
  step (Resume 0) (w, [t]) = Some cfg' -> exiting (w, [t]) -> exiting cfg'.
Proof.
  intros w t cfg' Hstep X.
  assert (E : exited w = false).
  { unfold step in Hstep. destruct (exited w); [discriminate Hstep | reflexivity]. }
  rewrite (step_resume_alone t w E) in Hstep. injection Hstep as <-.
  destruct t as [[] b i [r| |]| | |]; try contradiction; cbn [resume].
  - pose proof (handlerBody_exited r (set_tableInitialized true w)) as He.
    destruct (handlerBody r (set_tableInitialized true w)) as [w1 p].
    unfold exiting. cbn in *. congruence.
  - unfold exiting. cbn. exact E.
  - now apply exiting_iterate.
  - unfold exiting. cbn. exact E.
  - unfold exiting. cbn. reflexivity.
Qed.

Lemma exiting_settles : forall cfg w',
  settles cfg w' -> exiting cfg -> w'.(exited) = true.
Proof.
  intros cfg w' St. induction St as [w|w t cfg' w' Hstep St IH]; intros X.
  - exact X.
  - apply IH. eapply exiting_resume; eauto.
Qed.

Lemma destroy_exiting : forall w,
  w.(exited) = false -> exiting (fst (destroy w), toList (snd (destroy w))).
Proof.
  intros w E. unfold destroy.
  destruct (isConnected w); [|exact E].
  destruct (_ && _); [|exact E].
  unfold flushBuffer. destruct (_ || _); [exact E|].
  now apply exiting_iterate.
Qed.

Lemma length_concat_full : forall (new : list (list TableRow)),
  Forall (fun b : list TableRow => 100 <= length b) new ->
  new = [] \/ 100 <= length (concat new).
Proof.
  intros [|b new] F; [now left|]. right.
  inversion F; subst. cbn. rewrite length_app. lia.
Qed.

(** In a run without overlap, when the shutdown arrives with fewer rows
    buffered than the 100 that make a batch, [controller.destroy()] runs to
    the exit of the process without a single [insertBatch] call: the rows
    are still in the buffers when the process exits. *)
Lemma shutdown_writes_nothing :
  forall bs ds w,
    quiet bs ds w -> w.(exited) = false ->
    length w.(ctl_messageBuffer) + length (buffered w) < 100 ->
    exists cfg w',
      step Shutdown (w, []) = Some cfg /\ settles cfg w' /\
      w'.(exited) = true /\
      w'.(insertBatchCalls) = w.(insertBatchCalls) /\
      w'.(ctl_messageBuffer) ++ buffered w' = w.(ctl_messageBuffer) ++ buffered w.
Proof.
  intros bs ds w Q E L.
  destruct (quiet_accounted Q) as [_ W].
  destruct (trigger_enabled Shutdown w eq_refl E) as (cfg & Hstep); [discriminate|].
  destruct (trigger_settles Shutdown eq_refl W Hstep) as (w' & St & A & _).
  exists cfg, w'. split; [exact Hstep|]. split; [exact St|].
  assert (X : exiting cfg /\ fullBatchesSince (insertBatchCalls w) (fst cfg)).
  { destruct cfg as [w1 ts1]. split.
    - unfold step, spawn in Hstep. rewrite E in Hstep. injection Hstep as <- <-.
      now apply destroy_exiting.
    - eapply fullBatchesSince_step; [|exact Hstep|]; [discriminate|].
      exists []. split; [now rewrite app_nil_r | constructor]. }
  destruct X as [X F].
  split; [now apply (exiting_settles St)|].
  destruct (fullBatchesSince_settles St F) as (new & En & Fn).
  unfold accounted in A. cbn [deliveredBy] in A. rewrite app_nil_r, En in A.
  rewrite concat_app, <- app_assoc in A. apply app_inv_head in A.
  destruct (length_concat_full Fn) as [-> | Big].
  - cbn in A. split; [now rewrite En, app_nil_r | exact A].
  - apply (f_equal (@length _)) in A. rewrite !length_app in A. lia.
Qed.

Lemma quietRun_sound : forall bs l ds w w',
  quiet bs ds w -> quietRun l w = Some w' ->
  quiet bs (ds ++ flat_map deliveredBy (map fst l)) w'.
Proof.
  intros bs l. induction l as [|[e n] l IH]; intros ds w w' Q R;
    cbn [quietRun run] in R.
  - injection R as <-. cbn. now rewrite app_nil_r.
  - destruct (isTrigger e) eqn:T; [|discriminate].
    destruct (step e (w, [])) as [cfg|] eqn:Hstep; [|discriminate].
    destruct (run (repeat (Resume 0) n) cfg) as [[w1 [|t ts]]|] eqn:Rn; try discriminate.
    cbn [map fst flat_map]. rewrite app_assoc. apply (IH _ w1); [|exact R].
    eapply quiet_next; eauto.
    apply settles_run with (n := n); [|exact Rn].
    destruct (quiet_accounted Q) as [_ W].
    destruct (trigger_spec e T W Hstep) as (res & -> & _). cbn.
    destruct (snd res); cbn; lia.
Qed.

(** *** Concrete runs *)




(** C3.  With 37 rows buffered and the threshold at 100, the shutdown runs
    to the exit of the process without a single [insertBatch] call: the
    drain hands the 37 rows to the handler, which keeps them in the batch
    buffer of the controller, and the process exits with them there.  The
    same holds when the timer's flush had handed the 37 rows to the
    controller before the shutdown. *)
Theorem C3_shutdown_writes_nothing :
  (exists w0,
     run (ex_deliveries 37) (init 100, []) = Some (w0, []) /\
     buffered w0 = ex_rows 37) /\
  (exists w,
     run ex_shutdown (init 100, []) = Some (w, []) /\
     w.(exited) = true /\
     w.(insertBatchCalls) = [] /\
     w.(ctl_messageBuffer) = ex_rows 37) /\
  (exists w,
     run ex_shutdown_after_flush (init 100, []) = Some (w, []) /\
     w.(exited) = true /\
     w.(insertBatchCalls) = [] /\
     w.(ctl_messageBuffer) = ex_rows 37).
Proof.
  split; [|split].
  - eexists. split; vm_compute; reflexivity.
  - eexists. split; [vm_compute; reflexivity|].
    split; [|split]; vm_compute; reflexivity.
  - eexists. split; [vm_compute; reflexivity|].
    split; [|split]; vm_compute; reflexivity.
Qed.

Lemma C9_no_write_with_zero_rows_witness :
  reachable 1 (configAfter 1 ex_single_write) /\
  Forall (fun rs : list TableRow => rs <> [])
    (fst (configAfter 1 ex_single_write)).(insertBatchCalls).
Proof.
  assert (R : reachable 1 (configAfter 1 ex_single_write)).
  { apply (@run_reachable 1 ex_single_write (init 1, [])).
    - constructor.
    - vm_compute. reflexivity. }
  split.
  - exact R.
  - exact (proj1 C9_no_write_with_zero_rows 1 _ R).
Defined.

Lemma ex_buffered_quiet :
  quiet 100 (ex_rows 37) (fst (configAfter 100 (ex_deliveries 37))).
Proof.
  apply (@quietRun_sound 100 (map (fun e => (e, 0)) (ex_deliveries 37)) []
           (init 100) _ (quiet_init 100)).
  vm_compute. reflexivity.
Qed.

(** The general statement at the 37 rows. *)
Lemma ex_shutdown_by_lemma :
  quiet 100 (ex_rows 37) (fst (configAfter 100 (ex_deliveries 37))) /\
  buffered (fst (configAfter 100 (ex_deliveries 37))) = ex_rows 37 /\
  exists cfg w',
    step Shutdown (fst (configAfter 100 (ex_deliveries 37)), []) = Some cfg /\
    settles cfg w' /\
    w'.(exited) = true /\
    w'.(insertBatchCalls) = (fst (configAfter 100 (ex_deliveries 37))).(insertBatchCalls) /\
    w'.(ctl_messageBuffer) ++ buffered w' =
      (fst (configAfter 100 (ex_deliveries 37))).(ctl_messageBuffer)
        ++ buffered (fst (configAfter 100 (ex_deliveries 37))).
Proof.
  split; [exact ex_buffered_quiet|].
  split; [vm_compute; reflexivity|].
  apply (shutdown_writes_nothing ex_buffered_quiet).
  - vm_compute. reflexivity.
  - vm_compute. lia.
Qed.

(** ** The messages of a batch *)

Lemma split_at_separator : forall (sep : ascii) x y u v,
  ~ In sep x -> ~ In sep y ->
  x ++ sep :: u = y ++ sep :: v -> x = y /\ u = v.
Proof.
  intros sep. induction x as [|a x IH]; intros [|b y] u v Nx Ny E; cbn in E.
  - injection E as ->. now split.
  - injection E as <- _. exfalso. apply Ny. now left.
  - injection E as -> _. exfalso. apply Nx. now left.
  - injection E as -> E. destruct (IH y u v) as [-> ->]; try assumption.
    + intros I. apply Nx. now right.
    + intros I. apply Ny. now right.
    + now split.
Qed.

Lemma decimal_no_underscore : forall n, ~ In "_"%char (decimal n).
Proof.
  intros n I. pose proof (decimal_digits n) as D. rewrite forallb_forall in D.
  specialize (D _ I). discriminate D.
Qed.

(** The key of a message tells its index. *)
Lemma key_index : forall p q t1 t2 i j,
  p ++ decimal t1 ++ str "_" ++ decimal i = q ++ decimal t2 ++ str "_" ++ decimal j ->
  i = j.
Proof.
  intros p q t1 t2 i j E. apply decimal_inj.
  apply (f_equal (@rev ascii)) in E.
  rewrite !app_assoc in E. cbn [str list_ascii_of_string] in E.
  rewrite !rev_app_distr in E. cbn [rev app] in E.
  apply split_at_separator in E as [E _].
  - apply (f_equal (@rev ascii)) in E. now rewrite !rev_involutive in E.
  - rewrite <- in_rev. apply decimal_no_underscore.
  - rewrite <- in_rev. apply decimal_no_underscore.
Qed.

Lemma In_forEachIndexed : forall (A B : Type) (f : nat -> A -> B) l i0 y,
  In y (forEachIndexed f i0 l) -> exists i x, i0 <= i /\ In x l /\ y = f i x.
Proof.
  induction l as [|a l IH]; intros i0 y H; [contradiction|]. cbn in H.
  destruct H as [<- | H]; [exists i0, a; repeat split; [lia | now left]|].
  apply IH in H as (i & x & L & I & ->). exists i, x.
  repeat split; [lia | now right].
Qed.

Lemma NoDup_forEachIndexed : forall (A B : Type) (f : nat -> A -> B) l i0,
  (forall i j x y, f i x = f j y -> i = j) -> NoDup (forEachIndexed f i0 l).
Proof.
  induction l as [|a l IH]; intros i0 Inj; cbn; constructor.
  - intros I. apply In_forEachIndexed in I as (i & x & L & _ & E).
    apply Inj in E. lia.
  - now apply IH.
Qed.

(** X17.  A connected producer sends the rows of a batch in one call, one
    message per row in row order, each carrying the row, the schema and the
    source URL; the keys of the messages are pairwise different whatever
    the clock returns.  A producer that is not connected throws and sends
    nothing. *)
Theorem X17_sendBatch_messages : forall now s batch sourceUrl,
  (exists messages,
     Producer.sendBatch true now s batch sourceUrl = Returns messages /\
     map (fun m => Consumer.row (Producer.value m)) messages = batch /\
     Forall (fun m => Consumer.schema (Producer.value m) = Some s /\
                      Consumer.sourceUrl (Producer.value m) = sourceUrl) messages /\
     NoDup (map Producer.key messages)) /\
  (exists e, Producer.sendBatch false now s batch sourceUrl = Throws e).
Proof.
  intros now s batch sourceUrl. split; [|now eexists].
  eexists. split; [reflexivity|]. split; [|split].
  - rewrite map_forEachIndexed.
    rewrite (forEachIndexed_ext _ (fun _ r => r)) by reflexivity.
    rewrite forEachIndexed_const. apply map_id.
  - apply Forall_forall. intros m I.
    apply In_forEachIndexed in I as (i & x & _ & _ & ->). now split.
  - rewrite map_forEachIndexed. apply NoDup_forEachIndexed.
    intros i j x y E. cbn [Producer.messageAt Producer.key] in E.
    now apply key_index in E.
Qed.

(** ** Where the rows of the sink come from *)

Section RowInvariant.

Variable Q : TableRow -> Prop.

(** The rows of the world alone. *)
Let inWorld (w : World) : Prop := Forall Q (rowsOf (w, [])).

Lemma inWorld_parts : forall w,
  inWorld w <->
  Forall (Forall Q) w.(heap) /\ Forall Q w.(ctl_messageBuffer) /\
  Forall (Forall Q) w.(insertBatchCalls).
Proof.
  intros w. unfold inWorld, rowsOf. cbn [fst snd flat_map].
  rewrite app_nil_r, !Forall_app, !Forall_concat. tauto.
Qed.

Lemma rowsOf_tasks : forall w ts,
  Forall Q (rowsOf (w, ts)) <-> inWorld w /\ Forall (fun t => Forall Q (heldBy t)) ts.
Proof.
  intros w ts. unfold inWorld, rowsOf. cbn [fst snd flat_map].
  rewrite app_nil_r, !Forall_app, Forall_flat_map. tauto.
Qed.

Lemma Q_arrayAt : forall w b i r,
  inWorld w -> nth_error (arrayAt w b) i = Some r -> Q r.
Proof.
  intros w b i r H E. apply inWorld_parts in H as (H & _ & _).
  apply nth_error_In in E. unfold arrayAt in E.
  destruct (nth_in_or_default b (heap w) []) as [I | D].
  - rewrite Forall_forall in H. specialize (H _ I). rewrite Forall_forall in H. now apply H.
  - rewrite D in E. contradiction.
Qed.

Lemma Q_pushAt : forall h ref r,
  Forall (Forall Q) h -> Q r -> Forall (Forall Q) (pushAt ref r h).
Proof.
  induction h as [|a h IH]; intros ref r H Hr; [destruct ref; constructor|].
  inversion H; subst. destruct ref as [|k]; cbn; constructor; auto.
  apply Forall_app. split; [assumption | now constructor].
Qed.

Lemma heldBy_handlerBody : forall r w c b i,
  heldBy (Flushing c b i (snd (handlerBody r w))) = [].
Proof. intros r w c b i. unfold handlerBody. now destruct (100 <=? _). Qed.

Lemma Q_handlerBody : forall r w,
  inWorld w -> Q r -> inWorld (fst (handlerBody r w)).
Proof.
  intros r w H Hr. apply inWorld_parts in H as (Hh & Hc & Hi).
  assert (C : Forall Q (ctl_messageBuffer w ++ [r]))
    by (apply Forall_app; split; [assumption | now constructor]).
  unfold handlerBody. destruct (100 <=? _); cbn [fst];
    apply inWorld_parts; cbn; repeat split; try assumption.
  apply Forall_app. split; [assumption | now constructor].
Qed.

Lemma Q_callHandler : forall s r w c b i,
  inWorld w -> Q r ->
  inWorld (fst (callHandler s r w)) /\
  Forall Q (heldBy (Flushing c b i (snd (callHandler s r w)))).
Proof.
  intros s r w c b i H Hr. unfold callHandler.
  destruct (tableInitialized w), s as [sch|];
    try (rewrite heldBy_handlerBody; split; [now apply Q_handlerBody | constructor]).
  cbn [fst snd heldBy]. split; [|now constructor].
  apply inWorld_parts in H as (Hh & Hc & Hi). apply inWorld_parts. cbn. now repeat split.
Qed.

Lemma Q_freshBuffer : forall w, inWorld w -> inWorld (freshBuffer w).
Proof.
  intros w H. apply inWorld_parts in H as (Hh & Hc & Hi). apply inWorld_parts. cbn.
  repeat split; try assumption. apply Forall_app. split; [assumption|]. now repeat constructor.
Qed.

(** What a function that may suspend leaves behind. *)
Let kept (res : World * option Task) : Prop :=
  inWorld (fst res) /\ Forall (fun t => Forall Q (heldBy t)) (toList (snd res)).

Lemma kept_plain : forall w, inWorld w -> kept (w, None).
Proof. intros w H. split; [exact H | constructor]. Qed.

Lemma Q_afterFlush : forall c w, inWorld w -> kept (afterFlush c w).
Proof.
  intros [] w H; split; try exact H; cbn; repeat constructor.
Qed.

Lemma Q_iterate : forall c b i w, inWorld w -> kept (iterate c b i w).
Proof.
  intros c b i w H. unfold iterate.
  destruct (nth_error (arrayAt w b) i) as [r|] eqn:E.
  - destruct (Q_callHandler (currentSchema w) c b i H (Q_arrayAt b i H E)) as [H1 H2].
    destruct (callHandler (currentSchema w) r w) as [w1 p]. cbn [fst snd] in *.
    split; [exact H1 | now constructor].
  - apply Q_afterFlush. now apply Q_freshBuffer.
Qed.

Lemma Q_flushBuffer : forall c w, inWorld w -> kept (flushBuffer c w).
Proof.
  intros c w H. unfold flushBuffer.
  destruct (_ || _); [now apply Q_afterFlush | now apply Q_iterate].
Qed.

Lemma Q_handleMessage : forall m w, inWorld w -> Q m.(row) -> kept (handleMessage m w).
Proof.
  intros m w H Hr. unfold handleMessage.
  set (w1 := if negb (isSome (currentSchema w)) && isSome (schema m)
             then set_currentSchema (schema m) w else w).
  assert (H1 : inWorld (push (row m) w1)).
  { apply inWorld_parts in H as (Hh & Hc & Hi). apply inWorld_parts.
    subst w1. destruct (_ && _); cbn; repeat split; try assumption;
      now apply Q_pushAt. }
  destruct (_ && messageHandler _); [now apply Q_flushBuffer | now apply kept_plain].
Qed.

Lemma Q_kafkaTimer : forall w, inWorld w -> kept (kafkaTimer w).
Proof.
  intros w H. unfold kafkaTimer.
  destruct (_ && _); [now apply Q_flushBuffer | now apply kept_plain].
Qed.

Lemma Q_controllerTimer : forall w, inWorld w -> kept (controllerTimer w).
Proof.
  intros w H. unfold controllerTimer.
  destruct (0 <? _); [|now apply kept_plain].
  split; [|cbn; repeat constructor].
  apply inWorld_parts in H as (Hh & Hc & Hi). apply inWorld_parts. cbn.
  repeat split; try assumption. apply Forall_app. split; [assumption | now constructor].
Qed.

Lemma Q_destroy : forall w, inWorld w -> kept (destroy w).
Proof.
  intros w H. unfold destroy.
  destruct (isConnected w); [|split; [exact H | cbn; repeat constructor]].
  destruct (_ && _); [now apply Q_flushBuffer|].
  split; [exact H | cbn; repeat constructor].
Qed.

Lemma Q_resume : forall t w, inWorld w -> Forall Q (heldBy t) -> kept (resume t w).
Proof.
  intros [c b i [r| |]| | |] w H Ht; cbn [resume].
  - cbn in Ht. inversion Ht as [|? ? Hr _]; subst.
    assert (H0 : inWorld (set_tableInitialized true w)).
    { apply inWorld_parts in H as (Hh & Hc & Hi). apply inWorld_parts. cbn. now repeat split. }
    pose proof (@Q_handlerBody r (set_tableInitialized true w) H0 Hr) as H1.
    pose proof (heldBy_handlerBody r (set_tableInitialized true w) c b i) as H2.
    destruct (handlerBody r (set_tableInitialized true w)) as [w1 p]. cbn [fst snd] in *.
    split; [exact H1|]. constructor; [|constructor]. rewrite H2. constructor.
  - split; [|cbn; repeat constructor].
    apply inWorld_parts in H as (Hh & Hc & Hi). apply inWorld_parts. cbn. now repeat split.
  - now apply Q_iterate.
  - split; [|constructor].
    apply inWorld_parts in H as (Hh & Hc & Hi). apply inWorld_parts. cbn. now repeat split.
  - split; [|cbn; repeat constructor].
    apply inWorld_parts in H as (Hh & Hc & Hi). apply inWorld_parts. cbn. now repeat split.
  - split; [|constructor].
    apply inWorld_parts in H as (Hh & Hc & Hi). apply inWorld_parts. cbn. now repeat split.
Qed.

Lemma Q_step : forall e cfg cfg',
  step e cfg = Some cfg' ->
  Forall Q (deliveredBy e) -> Forall Q (rowsOf cfg) -> Forall Q (rowsOf cfg').
Proof.
  intros e [w ts] cfg' Hstep He H. apply rowsOf_tasks in H as [H Ht].
  assert (Spawn : forall res, kept res -> Forall Q (rowsOf (fst res, ts ++ toList (snd res)))).
  { intros res [K1 K2]. apply rowsOf_tasks. split; [exact K1|].
    apply Forall_app. now split. }
  unfold step in Hstep. destruct (exited w); [discriminate|].
  destruct e as [m| | |n|]; unfold spawn in Hstep.
  - destruct (_ && _); [|discriminate]. injection Hstep as <-.
    apply Spawn, Q_handleMessage; [exact H|]. cbn in He. now inversion He.
  - injection Hstep as <-. now apply Spawn, Q_kafkaTimer.
  - injection Hstep as <-. now apply Spawn, Q_controllerTimer.
  - destruct (nth_error ts n) as [t|] eqn:E; [|discriminate].
    assert (Hn : Forall Q (heldBy t)).
    { rewrite Forall_forall in Ht. apply Ht. eapply nth_error_In; eauto. }
    destruct (@Q_resume t w H Hn) as [K1 K2].
    destruct (resume t w) as [w1 t1]. injection Hstep as <-. cbn [fst snd] in *.
    apply rowsOf_tasks. split; [exact K1|].
    apply Forall_app. split; [|apply Forall_app; split; [exact K2|]].
    + rewrite <- (firstn_skipn n ts) in Ht. now apply Forall_app in Ht.
    + rewrite <- (firstn_skipn (S n) ts) in Ht. now apply Forall_app in Ht.
  - injection Hstep as <-. now apply Spawn, Q_destroy.
Qed.

Lemma Q_run : forall es cfg cfg',
  run es cfg = Some cfg' ->
  Forall Q (delivered es) -> Forall Q (rowsOf cfg) -> Forall Q (rowsOf cfg').
Proof.
  induction es as [|e es IH]; intros cfg cfg' R D H; cbn [run] in R.
  - now injection R as <-.
  - destruct (step e cfg) as [cfg1|] eqn:Hstep; [|discriminate].
    unfold delivered in D. cbn [flat_map] in D. apply Forall_app in D as [D1 D2].
    apply (IH cfg1 cfg' R D2). exact (@Q_step _ _ _ Hstep D1 H).
Qed.

End RowInvariant.

(** X18.  Whatever the interleaving of deliveries, timers, continuations and
    shutdown: every row of every batch given to [insertBatch] is the row of a
    message that was delivered before, and so is every row still held in a
    buffer or by a suspended flush.  The consumer passes rows on as they
    came; it makes up none. *)
Theorem X18_only_delivered_rows : forall bs es w ts,
  run es (init bs, []) = Some (w, ts) ->
  (forall batch r,
     In batch w.(insertBatchCalls) -> In r batch ->
     exists m, In (Deliver m) es /\ m.(row) = r) /\
  (forall r, In r (rowsOf (w, ts)) -> In r (delivered es)).
Proof.
  intros bs es w ts R.
  assert (A : Forall (fun r => In r (delivered es)) (rowsOf (w, ts))).
  { apply (@Q_run (fun r => In r (delivered es)) _ _ _ R).
    - now apply Forall_forall.
    - constructor. }
  rewrite Forall_forall in A. split; [|exact A].
  intros batch r Ib Ir.
  assert (I : In r (delivered es)).
  { apply A. unfold rowsOf. cbn [fst snd]. apply in_or_app. right.
    apply in_or_app. right. apply in_or_app. left.
    apply in_concat. now exists batch. }
  unfold delivered in I. apply in_flat_map in I as (e & Ie & I).
  destruct e as [m| | | |]; try contradiction.
  destruct I as [<- | []]. now exists m.
Qed.

Lemma X18_only_delivered_rows_witness :
  run ex_single_write (init 1, []) =
    Some (fst (configAfter 1 ex_single_write), snd (configAfter 1 ex_single_write)) /\
  forall r,
    In r (rowsOf (fst (configAfter 1 ex_single_write), snd (configAfter 1 ex_single_write))) ->
    In r (delivered ex_single_write).
Proof.
  assert (R : run ex_single_write (init 1, []) =
              Some (fst (configAfter 1 ex_single_write),
                    snd (configAfter 1 ex_single_write)))
    by (vm_compute; reflexivity).
  split; [exact R|].
  exact (proj2 (@X18_only_delivered_rows 1 ex_single_write _ _ R)).
Defined.

(** ** From the parsed table to the statements of the sink *)

Lemma sessionSchema_In : forall es s,
  sessionSchema es = Some s -> exists m, In (Deliver m) es /\ schema m = Some s.
Proof.
  induction es as [|e es IH]; intros s H; [discriminate|].
  rewrite sessionSchema_cons in H. destruct e as [m| | |n|]; cbn in H;
    try (destruct (IH s H) as (m' & I & E); exists m'; split; [now right | exact E]).
  destruct (schema m) as [s'|] eqn:Sm.
  - injection H as <-. exists m. split; [now left | exact Sm].
  - destruct (IH s H) as (m' & I & E). exists m'. split; [now right | exact E].
Qed.

Lemma nonEmptyBatches_run : forall bs es cfg,
  run es (init bs, []) = Some cfg -> nonEmptyBatches (fst cfg).
Proof.
  intros bs es cfg R.
  pose proof (@run_reachable bs es _ _ (reachable_init bs) R) as Re.
  clear R. induction Re as [|[w ts] e [w' ts'] Re IH Hstep]; [constructor|].
  cbn [fst] in *. eapply nonEmptyBatches_step; eauto.
Qed.

(** X19.  The whole pipeline, for a table whose headers sanitise to
    different names: when the consumer is given messages that the producer
    made of the parsed table with [sendBatch], as they come off the wire --
    any of them, in any order, any number of times, under any interleaving
    of timers and continuations -- then every table it creates is created
    from the schema of the parsed table, and every batch it hands to
    [insertBatch] yields an INSERT that names the columns of that schema,
    in order, all but a column named [__proto__], and binds every own value
    of every row of the batch, each null or a string. *)
Theorem X19_pipeline_statements :
  forall headers trs s tableRows now sourceUrl messages bs es w ts,
  NoDup (map sanitizeColumnName headers) ->
  parseTable headers trs = Build_ParsedTable s tableRows ->
  Producer.sendBatch true now s tableRows sourceUrl = Returns messages ->
  (forall m, In (Deliver m) es -> In m (map received messages)) ->
  run es (init bs, []) = Some (w, ts) ->
  Forall (fun created => created = s) w.(createTableCalls) /\
  Forall (fun batch =>
            exists st,
              insertBatch batch = Some st /\
              columnNames st =
                filter (fun k => negb (eqs k (str "__proto__"))) (map name (columns s)) /\
              values st =
                map Value (flat_map (fun row => map snd row.(properties)) batch) /\
              Forall (fun m => m = Value VNull \/ exists text, m = Value (VString text))
                     (values st))
         w.(insertBatchCalls).
Proof.
  intros headers trs s tableRows now sourceUrl messages bs es w ts N T Sb D R.
  rewrite (@parseTable_shape headers trs N) in T. injection T as Es Er.
  assert (K : NoDup (map name (columns s)))
    by (rewrite <- Es, names_inferSchema; exact N).
  injection Sb as <-.
  assert (M : forall m, In (Deliver m) es ->
                        schema m = Some s /\
                        exists cells, (row m).(properties) = (rowObject s cells).(properties)).
  { intros m I. apply D in I. apply in_map_iff in I as (pm & <- & I).
    apply In_forEachIndexed in I as (i & r & _ & Ir & ->). cbn. split; [reflexivity|].
    rewrite <- Er in Ir. apply in_map_iff in Ir as (cells & <- & _).
    exists cells. now rewrite Es. }
  split.
  - pose proof (@schema_after_run _ _ _ _ R) as E. cbn in E.
    pose proof (@createdFromCurrent_reachable _ _
                  (@run_reachable _ es _ _ (reachable_init bs) R)) as C.
    unfold createdFromCurrent in C. cbn [fst] in C. rewrite E in C.
    revert C. apply Forall_impl. intros created H.
    apply sessionSchema_In in H as (m & I & Sm).
    destruct (M m I) as [Sm' _]. congruence.
  - assert (A : Forall (fun r => exists cells,
                          r.(properties) = (rowObject s cells).(properties))
                       (rowsOf (w, ts))).
    { apply (@Q_run (fun r => exists cells,
                       r.(properties) = (rowObject s cells).(properties)) _ _ _ R);
        [|constructor].
      apply Forall_forall. intros r I. unfold delivered in I.
      apply in_flat_map in I as (e & Ie & I). destruct e as [m| | |n|]; try contradiction.
      destruct I as [<- | []]. now apply M. }
    pose proof (@nonEmptyBatches_run _ _ _ R) as NEb. cbn [fst] in NEb.
    unfold nonEmptyBatches in NEb. rewrite Forall_forall in *.
    intros batch Ib.
    assert (F : Forall (fun r => exists cells,
                          r.(properties) = (rowObject s cells).(properties)) batch).
    { apply Forall_forall. intros r Ir. apply A. unfold rowsOf. cbn [fst snd].
      apply in_or_app. right. apply in_or_app. right. apply in_or_app. left.
      apply in_concat. now exists batch. }
    destruct batch as [|row0 rest] eqn:Eb; [exfalso; now apply (NEb _ Ib)|].
    destruct (@insertBatch_entries s (row0 :: rest) row0 rest K eq_refl F)
      as (st & I & C & V & _).
    exists st. split; [exact I|]. split; [exact C|]. split; [exact V|].
    rewrite V. apply Forall_forall. intros m Im.
    apply in_map_iff in Im as (v & <- & Iv).
    apply in_flat_map in Iv as (r & Ir & Iv). apply in_map_iff in Iv as ([k v'] & <- & Iv).
    rewrite Forall_forall in F. destruct (F r Ir) as (cells & E). rewrite E in Iv.
    pose proof (values_rowObject s cells) as W. rewrite Forall_forall in W.
    destruct (W _ Iv) as [-> | [text ->]]; [now left | right; now exists text].
Qed.

Lemma X19_pipeline_statements_witness :
  run ex_pipeline (init 1, []) =
    Some (fst (configAfter 1 ex_pipeline), snd (configAfter 1 ex_pipeline)) /\
  (fst (configAfter 1 ex_pipeline)).(insertBatchCalls) = [map parsed ex_tableRows] /\
  Forall (fun created => created = ex_tableSchema)
         (fst (configAfter 1 ex_pipeline)).(createTableCalls) /\
  Forall (fun batch =>
            exists st,
              insertBatch batch = Some st /\
              columnNames st =
                filter (fun k => negb (eqs k (str "__proto__")))
                       (map name (columns ex_tableSchema)) /\
              values st =
                map Value (flat_map (fun row => map snd row.(properties)) batch) /\
              Forall (fun m => m = Value VNull \/ exists text, m = Value (VString text))
                     (values st))
         (fst (configAfter 1 ex_pipeline)).(insertBatchCalls).
Proof.
  assert (R : run ex_pipeline (init 1, []) =
              Some (fst (configAfter 1 ex_pipeline), snd (configAfter 1 ex_pipeline)))
    by (vm_compute; reflexivity).
  split; [exact R|]. split; [vm_compute; reflexivity|].
  apply (@X19_pipeline_statements [str "Name"; str "Age"] ex_table
           ex_tableSchema ex_tableRows (fun _ => 0) (str "https://example.org/table")
           ex_sent 1 ex_pipeline _ (snd (configAfter 1 ex_pipeline))).
  - vm_compute. repeat constructor; cbn; intuition discriminate.
  - reflexivity.
  - reflexivity.
  - intros m I. vm_compute in I. vm_compute.
    destruct I as [E | [E | [E | [E | [E | []]]]]]; try discriminate E.
    injection E as <-. left. reflexivity.
  - exact R.
Defined.

(** *** C10: the session schema, and what is written under it *)





(** ** Rows that arrive while the controller's insert is awaited *)

(** The handler below the threshold of 100 rows. *)
Lemma handlerBody_below : forall r w,
  length w.(ctl_messageBuffer) + 1 < 100 ->
  handlerBody r w =
  (set_batchCount (S w.(batchCount)) (set_ctl_messageBuffer (w.(ctl_messageBuffer) ++ [r]) w),
   Settled).
Proof.
  intros r w L. unfold handlerBody.
  assert (E : (100 <=? length (ctl_messageBuffer
                 (set_batchCount (S (batchCount (set_ctl_messageBuffer
                    (ctl_messageBuffer w ++ [r]) w)))
                    (set_ctl_messageBuffer (ctl_messageBuffer w ++ [r]) w)))) = false).
  { apply Nat.leb_gt. unfold set_batchCount, set_ctl_messageBuffer.
    cbn [ctl_messageBuffer]. rewrite length_app. cbn [length]. lia. }
  cbv zeta. now rewrite E.
Qed.

Lemma nth_error_middle : forall (A : Type) (pre post : list A) x,
  nth_error (pre ++ x :: post) (length pre) = Some x.
Proof.
  intros A pre post x. rewrite nth_error_app2 by lia. now rewrite Nat.sub_diag.
Qed.

Lemma replace_middle : forall (A : Type) (pre post : list A) x new,
  firstn (length pre) (pre ++ x :: post) ++ new ++ skipn (S (length pre)) (pre ++ x :: post)
  = pre ++ new ++ post.
Proof.
  intros A pre post x new.
  rewrite firstn_app, Nat.sub_diag, firstn_all. cbn [firstn]. rewrite app_nil_r.
  f_equal. f_equal.
  replace (S (length pre)) with (length (pre ++ [x])) by (rewrite length_app; cbn; lia).
  change (pre ++ x :: post) with (pre ++ [x] ++ post). rewrite app_assoc.
  now rewrite skipn_app, Nat.sub_diag, skipn_all.
Qed.

(** Messages that do not fill the buffer are pushed onto it, whatever is
    suspended meanwhile. *)
Lemma deliveries_buffered : forall ms w ts,
  w.(exited) = false -> w.(isConnected) = true ->
  existsb handlingMessage ts = false -> wellFormed w ->
  length (buffered w) + length ms < w.(batchSize) ->
  exists w',
    run (map Deliver ms) (w, ts) = Some (w', ts) /\
    buffered w' = buffered w ++ map row ms /\ wellFormed w' /\
    w'.(exited) = false /\ w'.(isConnected) = true /\
    w'.(messageHandler) = w.(messageHandler) /\ w'.(batchSize) = w.(batchSize) /\
    w'.(ctl_messageBuffer) = w.(ctl_messageBuffer) /\
    w'.(insertBatchCalls) = w.(insertBatchCalls) /\
    w'.(tableInitialized) = w.(tableInitialized).
Proof.
  induction ms as [|m ms IH]; intros w ts E C T W L.
  - exists w. cbn. rewrite app_nil_r. now repeat split.
  - cbn [map run]. unfold step. rewrite E, C, T. cbn [negb andb].
    unfold handleMessage.
    set (w1 := if negb (isSome (currentSchema w)) && isSome (schema m)
               then set_currentSchema (schema m) w else w).
    assert (F : buffered w1 = buffered w /\ wellFormed w1 /\ exited w1 = false /\
                isConnected w1 = true /\ messageHandler w1 = messageHandler w /\
                batchSize w1 = batchSize w /\
                ctl_messageBuffer w1 = ctl_messageBuffer w /\
                insertBatchCalls w1 = insertBatchCalls w /\
                tableInitialized w1 = tableInitialized w).
    { subst w1. destruct (_ && _); now repeat split. }
    destruct F as (F1 & F2 & F3 & F4 & F5 & F6 & F7 & F8 & F9).
    pose proof (buffered_push (row m) F2) as B.
    assert (G : (batchSize (push (row m) w1) <=? length (buffered (push (row m) w1))) = false).
    { apply Nat.leb_gt. rewrite B, length_app, F1. cbn [length] in *.
      change (batchSize (push (row m) w1)) with (batchSize w1). rewrite F6. lia. }
    rewrite G. cbn [andb]. unfold spawn. cbn [fst snd toList]. rewrite app_nil_r.
    destruct (IH (push (row m) w1) ts) as (w' & R & B' & W' & E' & C' & H' & S' & Ct & Ib & Ti);
      try assumption.
    + apply (push_spec (row m) F2).
    + rewrite B, length_app, F1. cbn [length] in *.
      change (batchSize (push (row m) w1)) with (batchSize w1). rewrite F6. lia.
    + exists w'. split; [exact R|]. rewrite B', B, F1, <- app_assoc.
      split; [reflexivity|]. split; [exact W'|]. split; [exact E'|]. split; [exact C'|].
      change (messageHandler (push (row m) w1)) with (messageHandler w1) in H'.
      change (batchSize (push (row m) w1)) with (batchSize w1) in S'.
      change (ctl_messageBuffer (push (row m) w1)) with (ctl_messageBuffer w1) in Ct.
      change (insertBatchCalls (push (row m) w1)) with (insertBatchCalls w1) in Ib.
      change (tableInitialized (push (row m) w1)) with (tableInitialized w1) in Ti.
      repeat split; congruence.
Qed.

Lemma step_resume_at : forall w pre t post,
  w.(exited) = false ->
  step (Resume (length pre)) (w, pre ++ t :: post) =
  Some (fst (resume t w), pre ++ toList (snd (resume t w)) ++ post).
Proof.
  intros w pre t post E. unfold step. rewrite E, nth_error_middle.
  destruct (resume t w) as [w' t']. now rewrite replace_middle.
Qed.

(** A flush of the timer on its way through the rows, the table being
    there and the batch buffer staying below 100 rows. *)
Lemma flush_rest : forall n w pre post b i,
  w.(exited) = false -> w.(tableInitialized) = true ->
  length (arrayAt w b) = S i + n ->
  length w.(ctl_messageBuffer) + n < 100 ->
  exists w',
    run (repeat (Resume (length pre)) (S n))
        (w, pre ++ Flushing FromTimer b i Settled :: post) = Some (w', pre ++ post) /\
    w'.(ctl_messageBuffer) = w.(ctl_messageBuffer) ++ skipn (S i) (arrayAt w b) /\
    w'.(insertBatchCalls) = w.(insertBatchCalls) /\
    buffered w' = [] /\ wellFormed w' /\
    w'.(exited) = false /\ w'.(isConnected) = w.(isConnected) /\
    w'.(messageHandler) = w.(messageHandler) /\ w'.(batchSize) = w.(batchSize) /\
    w'.(tableInitialized) = true.
Proof.
  induction n as [|n IH]; intros w pre post b i E T L C;
    cbn [repeat run]; rewrite (@step_resume_at w pre _ post E); cbn [resume]; unfold iterate.
  - assert (N : nth_error (arrayAt w b) (S i) = None) by (apply nth_error_None; lia).
    rewrite N. cbn [afterFlush fst snd toList app].
    exists (freshBuffer w). split; [reflexivity|].
    rewrite (skipn_nth_error_None _ _ N), app_nil_r.
    split; [reflexivity|]. split; [reflexivity|].
    split; [apply buffered_freshBuffer|]. split; [apply wellFormed_freshBuffer|].
    now repeat split.
  - destruct (nth_error (arrayAt w b) (S i)) as [r|] eqn:N;
      [|apply nth_error_None in N; lia].
    unfold callHandler. rewrite T.
    replace (match currentSchema w with
             | Some _ => handlerBody r w
             | None => handlerBody r w
             end) with (handlerBody r w) by now destruct (currentSchema w).
    rewrite handlerBody_below by lia. cbn [fst snd toList app].
    set (w2 := set_batchCount (S (batchCount w))
                 (set_ctl_messageBuffer (ctl_messageBuffer w ++ [r]) w)).
    destruct (IH w2 pre post b (S i)) as (w' & R & Ct & Ib & B & W & E' & C' & H' & S' & T').
    + exact E.
    + exact T.
    + change (arrayAt w2 b) with (arrayAt w b). lia.
    + subst w2. cbn [ctl_messageBuffer set_batchCount set_ctl_messageBuffer].
      rewrite length_app. cbn [length]. lia.
    + exists w'. split; [exact R|]. split.
      * rewrite Ct. subst w2. cbn [ctl_messageBuffer set_batchCount set_ctl_messageBuffer].
        change (arrayAt _ b) with (arrayAt w b).
        rewrite (skipn_nth_error _ _ N), <- app_assoc. reflexivity.
      * now repeat split.
Qed.

Lemma run_cons : forall e es cfg,
  run (e :: es) cfg =
  match step e cfg with
  | Some cfg' => run es cfg'
  | None => None
  end.
Proof. reflexivity. Qed.

(** The timer of [startConsuming] with rows in the buffer, the batch buffer
    staying below 100 rows: the flush hands every row to the controller. *)
Lemma timer_flush_all : forall w ts s r0 rest,
  w.(exited) = false -> w.(messageHandler) = true -> w.(currentSchema) = Some s ->
  buffered w = r0 :: rest ->
  length w.(ctl_messageBuffer) + S (length rest) < 100 ->
  exists w',
    run (KafkaTimer :: repeat (Resume (length ts))
                         (S (length rest) + (if w.(tableInitialized) then 0 else 1)))
        (w, ts) = Some (w', ts) /\
    w'.(ctl_messageBuffer) = w.(ctl_messageBuffer) ++ r0 :: rest /\
    w'.(insertBatchCalls) = w.(insertBatchCalls) /\
    buffered w' = [] /\ wellFormed w' /\
    w'.(exited) = false /\ w'.(isConnected) = w.(isConnected) /\
    w'.(messageHandler) = w.(messageHandler) /\ w'.(batchSize) = w.(batchSize) /\
    w'.(tableInitialized) = true.
Proof.
  intros w ts s r0 rest E H Sc B C.
  assert (K : step KafkaTimer (w, ts) =
              Some (fst (callHandler (Some s) r0 w),
                    ts ++ [Flushing FromTimer (messageBuffer w) 0
                             (snd (callHandler (Some s) r0 w))])).
  { unfold step. rewrite E. unfold kafkaTimer, flushBuffer. rewrite B, H, Sc.
    cbn [length Nat.ltb Nat.leb Nat.eqb andb orb negb isSome].
    unfold iterate. fold (buffered w). rewrite B. cbn [nth_error]. rewrite Sc.
    unfold spawn. now destruct (callHandler (Some s) r0 w). }
  rewrite run_cons, K. unfold callHandler. destruct (tableInitialized w) eqn:T.
  - rewrite handlerBody_below by lia. cbn [fst snd].
    set (w2 := set_batchCount (S (batchCount w))
                 (set_ctl_messageBuffer (ctl_messageBuffer w ++ [r0]) w)).
    rewrite Nat.add_0_r.
    destruct (@flush_rest (length rest) w2 ts [] (messageBuffer w) 0)
      as (w' & R & Ct & Ib & B' & W & E' & C' & H' & S' & T'); try assumption.
    + change (arrayAt w2 (messageBuffer w)) with (buffered w). rewrite B. reflexivity.
    + subst w2. cbn [ctl_messageBuffer set_batchCount set_ctl_messageBuffer].
      rewrite length_app. cbn [length]. lia.
    + rewrite app_nil_r in R. exists w'. split; [exact R|]. split.
      * rewrite Ct. subst w2. cbn [ctl_messageBuffer set_batchCount set_ctl_messageBuffer].
        change (arrayAt _ (messageBuffer w)) with (buffered w). rewrite B.
        cbn [skipn]. now rewrite <- app_assoc.
      * repeat split; assumption.
  - cbn [fst snd]. rewrite Nat.add_1_r.
    change (repeat (Resume (length ts)) (S (S (length rest))))
      with (Resume (length ts) :: repeat (Resume (length ts)) (S (length rest))).
    rewrite run_cons, (@step_resume_at (logCreateTable s w) ts _ [] E). cbn [resume].
    rewrite handlerBody_below by (cbn; lia). cbn [fst snd toList app].
    set (w2 := set_batchCount _ _).
    destruct (@flush_rest (length rest) w2 ts [] (messageBuffer w) 0)
      as (w' & R & Ct & Ib & B' & W & E' & C' & H' & S' & T'); try assumption;
      try reflexivity.
    + change (arrayAt w2 (messageBuffer w)) with (buffered w). rewrite B. reflexivity.
    + subst w2. cbn [ctl_messageBuffer set_batchCount set_ctl_messageBuffer
                       set_tableInitialized logCreateTable set_createTableCalls].
      rewrite length_app. cbn [length]. lia.
    + rewrite app_nil_r in R. exists w'. split; [exact R|]. split.
      * rewrite Ct. subst w2.
        cbn [ctl_messageBuffer set_batchCount set_ctl_messageBuffer
               set_tableInitialized logCreateTable set_createTableCalls].
        change (arrayAt _ (messageBuffer w)) with (buffered w). rewrite B.
        cbn [skipn]. now rewrite <- app_assoc.
      * repeat split; assumption.
Qed.

Lemma schema_kept_run : forall es w ts cfg s,
  run es (w, ts) = Some cfg -> w.(currentSchema) = Some s ->
  (fst cfg).(currentSchema) = Some s.
Proof.
  intros es w ts cfg s R E. pose proof (@schema_after_run es w ts cfg R) as A.
  now rewrite E in A.
Qed.

(** X20.  Rows handed to the controller while the [insertBatch] of the
    controller's timer is awaited are dropped when that call completes: the
    timer then empties the batch buffer, whatever it holds.  For all messages
    [first] (not none, fewer than the batch size, a schema among them) and
    [second] (fewer than the batch size), fewer than 100 together: after the
    run in which [first] is flushed and written by the timer and [second]
    arrives and is flushed before that write completes, the rows of [second]
    are in no buffer and were given to no [insertBatch] call. *)
Theorem X20_late_rows_dropped : forall bs first second s,
  first <> [] ->
  sessionSchema (map Deliver first) = Some s ->
  length first < bs -> length second < bs ->
  length first + length second < 100 ->
  exists w,
    run (lateRows first second) (init bs, []) = Some (w, []) /\
    w.(insertBatchCalls) = [map row first] /\
    w.(ctl_messageBuffer) = [] /\
    buffered w = [] /\
    w.(exited) = false.
Proof.
  intros bs first second s NE Ss L1 L2 L.
  (* the first messages *)
  destruct (@deliveries_buffered first (init bs) [])
    as (w1 & R1 & B1 & W1 & E1 & C1 & H1 & S1 & Ct1 & Ib1 & T1);
    try reflexivity; [unfold wellFormed; cbn; lia | cbn; lia |].
  assert (Sc1 : currentSchema w1 = Some s).
  { pose proof (@schema_after_run _ _ _ _ R1) as A. cbn in A. congruence. }
  cbn [app] in B1.
  cbn [init messageHandler batchSize ctl_messageBuffer insertBatchCalls tableInitialized]
    in H1, S1, Ct1, Ib1, T1.
  (* the flush of the timer *)
  destruct (map row first) as [|r0 rest] eqn:F1.
  { destruct first; [contradiction | discriminate F1]. }
  assert (Len1 : S (length rest) = length first).
  { rewrite <- (length_map row first), F1. reflexivity. }
  destruct (@timer_flush_all w1 [] s r0 rest)
    as (w2 & R2 & Ct2 & Ib2 & B2 & W2 & E2 & C2 & H2 & S2 & T2); try assumption.
  { rewrite Ct1. cbn. lia. }
  rewrite T1 in R2. cbn [tableInitialized init length] in R2.
  rewrite Nat.add_1_r, Len1 in R2.
  assert (Sc2 : currentSchema w2 = Some s) by exact (@schema_kept_run _ _ _ _ s R2 Sc1).
  (* the timer of the controller *)
  assert (R3 : step ControllerTimer (w2, []) =
               Some (logInsertBatch (r0 :: rest) w2, [TimerInsert])).
  { unfold step. rewrite E2. unfold controllerTimer, spawn. rewrite Ct2, Ct1. reflexivity. }
  set (w3 := logInsertBatch (r0 :: rest) w2) in R3.
  assert (Ib3 : insertBatchCalls w3 = [r0 :: rest]).
  { change (insertBatchCalls w3) with (insertBatchCalls w2 ++ [r0 :: rest]).
    rewrite Ib2, Ib1. reflexivity. }
  (* the second messages *)
  destruct (@deliveries_buffered second w3 [TimerInsert])
    as (w4 & R4 & B4 & W4 & E4 & C4 & H4 & S4 & Ct4 & Ib4 & T4);
    try assumption; try reflexivity.
  { change (isConnected w3) with (isConnected w2). congruence. }
  { change (buffered w3) with (buffered w2). change (batchSize w3) with (batchSize w2).
    rewrite B2, S2, S1. cbn. lia. }
  change (buffered w3) with (buffered w2) in B4. rewrite B2 in B4. cbn [app] in B4.
  assert (Sc4 : currentSchema w4 = Some s) by exact (@schema_kept_run _ _ _ _ s R4 Sc2).
  (* the second flush of the timer, and the end of the insert *)
  assert (R5 : exists w5,
             run (KafkaTimer :: repeat (Resume 1) (length second)) (w4, [TimerInsert])
               = Some (w5, [TimerInsert]) /\
             insertBatchCalls w5 = [r0 :: rest] /\ buffered w5 = [] /\ exited w5 = false).
  { destruct (map row second) as [|q0 qs] eqn:F2.
    - assert (Z : second = []) by (destruct second; [reflexivity | discriminate F2]).
      subst second. exists w4. cbn [length repeat]. rewrite run_cons.
      unfold step. rewrite E4. unfold kafkaTimer, spawn. rewrite B4. cbn.
      repeat split; try assumption. now rewrite Ib4.
    - assert (Len2 : S (length qs) = length second).
      { rewrite <- (length_map row second), F2. reflexivity. }
      destruct (@timer_flush_all w4 [TimerInsert] s q0 qs)
        as (w5 & R5 & Ct5 & Ib5 & B5 & W5 & E5 & _); try assumption.
      + rewrite H4. change (messageHandler w3) with (messageHandler w2). congruence.
      + rewrite Ct4. change (ctl_messageBuffer w3) with (ctl_messageBuffer w2).
        rewrite Ct2, Ct1. cbn [app length]. lia.
      + rewrite T4 in R5. change (tableInitialized w3) with (tableInitialized w2) in R5.
        rewrite T2, Nat.add_0_r, Len2 in R5. cbn [length] in R5.
        exists w5. repeat split; try assumption. now rewrite Ib5, Ib4. }
  destruct R5 as (w5 & R5 & Ib5 & B5 & E5).
  exists (set_ctl_messageBuffer [] w5). split.
  - unfold lateRows. rewrite run_app, R1.
    change (KafkaTimer :: repeat (Resume 0) (S (length first))
              ++ ControllerTimer :: map Deliver second
              ++ KafkaTimer :: repeat (Resume 1) (length second) ++ [Resume 0])
      with ((KafkaTimer :: repeat (Resume 0) (S (length first)))
              ++ ControllerTimer :: map Deliver second
              ++ KafkaTimer :: repeat (Resume 1) (length second) ++ [Resume 0]).
    rewrite run_app, R2, run_cons, R3, run_app, R4.
    change (KafkaTimer :: repeat (Resume 1) (length second) ++ [Resume 0])
      with ((KafkaTimer :: repeat (Resume 1) (length second)) ++ [Resume 0]).
    rewrite run_app, R5, run_cons.
    pose proof (@step_resume_at w5 [] TimerInsert [] E5) as R6.
    cbn [length app] in R6. rewrite R6. reflexivity.
  - repeat split; assumption.
Qed.

Lemma X20_late_rows_dropped_witness :
  exists w,
    run (lateRows [ex_message 0] [ex_message 1]) (init 100, []) = Some (w, []) /\
    w.(insertBatchCalls) = [map row [ex_message 0]] /\
    w.(ctl_messageBuffer) = [] /\
    buffered w = [] /\
    w.(exited) = false.
Proof.
  apply (@X20_late_rows_dropped 100 [ex_message 0] [ex_message 1] ex_schema).
  - discriminate.
  - reflexivity.
  - cbn. lia.
  - cbn. lia.
  - cbn. lia.
Defined.

(** ** The shutdown below the threshold, in general *)

(** X21.  In a run without overlap, whenever the shutdown arrives with fewer
    rows buffered -- in the message buffer of the consumer and the batch
    buffer of the controller together -- than the 100 that make a batch,
    [controller.destroy()] runs to the exit of the process without a single
    [insertBatch] call: the rows are still in the buffers when the process
    exits, none of them written. *)
Theorem X21_shutdown_below_threshold :
  forall bs ds w,
    quiet bs ds w -> w.(exited) = false ->
    length w.(ctl_messageBuffer) + length (buffered w) < 100 ->
    exists cfg w',
      step Shutdown (w, []) = Some cfg /\ settles cfg w' /\
      w'.(exited) = true /\
      w'.(insertBatchCalls) = w.(insertBatchCalls) /\
      w'.(ctl_messageBuffer) ++ buffered w' = w.(ctl_messageBuffer) ++ buffered w.
Proof. exact shutdown_writes_nothing. Qed.

Lemma X21_shutdown_below_threshold_witness :
  exists cfg w',
    step Shutdown (fst (configAfter 100 (ex_deliveries 37)), []) = Some cfg /\
    settles cfg w' /\
    w'.(exited) = true /\
    w'.(insertBatchCalls) = (fst (configAfter 100 (ex_deliveries 37))).(insertBatchCalls) /\
    w'.(ctl_messageBuffer) ++ buffered w' =
      (fst (configAfter 100 (ex_deliveries 37))).(ctl_messageBuffer)
        ++ buffered (fst (configAfter 100 (ex_deliveries 37))).
Proof.
  apply (@X21_shutdown_below_threshold 100 (ex_rows 37) _ ex_buffered_quiet).
  - vm_compute. reflexivity.
  - vm_compute. lia.
Defined.

(** ** Messages without a schema *)

Lemma sessionSchema_none_cons : forall e es,
  sessionSchema (e :: es) = None ->
  sessionSchema es = None /\ (forall m, e = Deliver m -> schema m = None).
Proof.
  intros e es H. rewrite sessionSchema_cons in H.
  destruct e as [m| | |n|]; cbn in H; try (split; [exact H | discriminate]).
  destruct (schema m) eqn:Sm; [discriminate|].
  split; [exact H|]. intros m' E. now injection E as <-.
Qed.

(** As long as no schema has arrived nothing is flushed: a step only pushes
    the delivered row or moves the shutdown on. *)
Lemma step_without_schema : forall e w ts cfg',
  step e (w, ts) = Some cfg' ->
  (forall m, e = Deliver m -> schema m = None) ->
  w.(currentSchema) = None -> wellFormed w -> Forall closing ts ->
  w.(ctl_messageBuffer) = [] ->
  (fst cfg').(currentSchema) = None /\ wellFormed (fst cfg') /\ Forall closing (snd cfg') /\
  (fst cfg').(ctl_messageBuffer) = [] /\
  (fst cfg').(insertBatchCalls) = w.(insertBatchCalls) /\
  (fst cfg').(createTableCalls) = w.(createTableCalls) /\
  buffered (fst cfg') = buffered w ++ deliveredBy e.
Proof.
  intros e w ts cfg' Hstep Hm Sc W Cl Ct. unfold step in Hstep.
  destruct (exited w); [discriminate|].
  assert (FB : forall c w0, currentSchema w0 = None -> flushBuffer c w0 = afterFlush c w0).
  { intros c w0 E. unfold flushBuffer. rewrite E. cbn [isSome negb]. now rewrite !orb_true_r. }
  destruct e as [m| | |n|]; unfold spawn in Hstep; cbn [deliveredBy].
  - destruct (_ && _); [|discriminate]. injection Hstep as <-.
    unfold handleMessage. rewrite Sc, (Hm m eq_refl). cbn [isSome negb andb].
    assert (R : (if (batchSize (push (row m) w) <=? length (buffered (push (row m) w)))
                    && messageHandler (push (row m) w)
                 then flushBuffer FromHandleMessage (push (row m) w)
                 else (push (row m) w, None)) = (push (row m) w, None)).
    { destruct (_ && _); [|reflexivity]. now rewrite FB. }
    rewrite R. cbn [fst snd toList]. rewrite app_nil_r.
    destruct (push_spec (row m) W) as (W' & _ & _).
    repeat split; try assumption. now apply buffered_push.
  - injection Hstep as <-. unfold kafkaTimer.
    assert (R : (if (0 <? length (buffered w)) && messageHandler w
                 then flushBuffer FromTimer w else (w, None)) = (w, None)).
    { destruct (_ && _); [|reflexivity]. now rewrite FB. }
    rewrite R. cbn [fst snd toList]. rewrite !app_nil_r. now repeat split.
  - injection Hstep as <-. unfold controllerTimer. rewrite Ct. cbn.
    rewrite !app_nil_r. now repeat split.
  - destruct (nth_error ts n) as [t|] eqn:N; [|discriminate].
    assert (Ht : closing t).
    { rewrite Forall_forall in Cl. apply Cl. eapply nth_error_In; eauto. }
    assert (Rest : Forall closing (firstn n ts) /\ Forall closing (skipn (S n) ts)).
    { split.
      - rewrite <- (firstn_skipn n ts) in Cl. now apply Forall_app in Cl.
      - rewrite <- (firstn_skipn (S n) ts) in Cl. now apply Forall_app in Cl. }
    destruct Rest as [Rf Rs].
    destruct Ht as [-> | ->]; cbn [resume] in Hstep; injection Hstep as <-;
      cbn [fst snd toList]; rewrite app_nil_r; repeat split; try assumption.
    + apply Forall_app. split; [exact Rf|]. constructor; [now right | exact Rs].
    + apply Forall_app. now split.
  - injection Hstep as <-. unfold destroy. rewrite Sc. cbn [isSome].
    rewrite andb_false_r.
    destruct (isConnected w); cbn [fst snd toList]; rewrite app_nil_r;
      (repeat split; try assumption);
      (apply Forall_app; split; [assumption | constructor; [|constructor]]);
      [now left | now right].
Qed.

(** X22.  As long as no delivered message carries a schema, the consumer
    writes nothing and creates no table, whatever timers fire and whatever
    the batch size: every delivered row stays in the message buffer, in
    delivery order, also through a shutdown. *)
Theorem X22_rows_without_schema_wait : forall bs es w ts,
  sessionSchema es = None ->
  run es (init bs, []) = Some (w, ts) ->
  w.(insertBatchCalls) = [] /\ w.(createTableCalls) = [] /\
  w.(ctl_messageBuffer) = [] /\ buffered w = delivered es.
Proof.
  intros bs es w ts Ss R.
  assert (G : forall es w0 ts0 cfg,
            sessionSchema es = None -> run es (w0, ts0) = Some cfg ->
            currentSchema w0 = None -> wellFormed w0 -> Forall closing ts0 ->
            ctl_messageBuffer w0 = [] ->
            insertBatchCalls (fst cfg) = insertBatchCalls w0 /\
            createTableCalls (fst cfg) = createTableCalls w0 /\
            ctl_messageBuffer (fst cfg) = [] /\
            buffered (fst cfg) = buffered w0 ++ delivered es).
  { clear. induction es as [|e es IH]; intros w0 ts0 cfg Ss R Sc W Cl Ct; cbn [run] in R.
    - injection R as <-. cbn. now rewrite app_nil_r.
    - destruct (step e (w0, ts0)) as [[w1 ts1]|] eqn:Hstep; [|discriminate].
      apply sessionSchema_none_cons in Ss as [Ss Hm].
      destruct (@step_without_schema e w0 ts0 (w1, ts1) Hstep Hm Sc W Cl Ct)
        as (Sc1 & W1 & Cl1 & Ct1 & Ib1 & Cr1 & B1).
      cbn [fst snd] in *.
      destruct (IH w1 ts1 cfg Ss R Sc1 W1 Cl1 Ct1) as (Ib & Cr & Ct' & B).
      repeat split; try congruence.
      rewrite B, B1. unfold delivered. cbn [flat_map]. now rewrite app_assoc. }
  destruct (G es (init bs) [] (w, ts) Ss R) as (Ib & Cr & Ct & B);
    try reflexivity; [unfold wellFormed; cbn; lia | constructor |].
  cbn in Ib, Cr, B. now repeat split.
Qed.

Lemma X22_rows_without_schema_wait_witness :
  (fst (configAfter 1 [Deliver (withSchema None (ex_message 0)); KafkaTimer;
                       ControllerTimer; Shutdown; Resume 0; Resume 0])).(insertBatchCalls)
    = [] /\
  buffered (fst (configAfter 1 [Deliver (withSchema None (ex_message 0)); KafkaTimer;
                                ControllerTimer; Shutdown; Resume 0; Resume 0]))
    = [ex_row 0].
Proof.
  destruct (@X22_rows_without_schema_wait 1
              [Deliver (withSchema None (ex_message 0)); KafkaTimer;
               ControllerTimer; Shutdown; Resume 0; Resume 0]
              (fst (configAfter 1 [Deliver (withSchema None (ex_message 0)); KafkaTimer;
                                   ControllerTimer; Shutdown; Resume 0; Resume 0]))
              (snd (configAfter 1 [Deliver (withSchema None (ex_message 0)); KafkaTimer;
                                   ControllerTimer; Shutdown; Resume 0; Resume 0])))
    as (Ib & _ & _ & B).
  - reflexivity.
  - vm_compute. reflexivity.
  - split; [exact Ib | exact B].
Defined.

(** ** The table before the rows *)

(** The part of [tableFirst] that is about the world. *)
Lemma tableFirst_world : forall w ts,
  tableFirst (w, ts) <-> Forall (grounded w) ts /\ tableFirst (w, []).
Proof.
  intros w ts. unfold tableFirst. cbn [fst snd]. split.
  - intros (G & A & B & C). repeat split; try assumption. constructor.
  - intros (G & _ & A & B & C). now repeat split.
Qed.

(** What keeps a task grounded. *)
Lemma grounded_kept : forall w w' t,
  (isSome w.(currentSchema) = true -> w'.(currentSchema) = w.(currentSchema)) ->
  (w.(tableInitialized) = true -> w'.(tableInitialized) = true) ->
  (w.(createTableCalls) <> [] -> w'.(createTableCalls) <> []) ->
  grounded w t -> grounded w' t.
Proof.
  intros w w' [c b i p| | |] Sc Ti Cr G; cbn [grounded] in *; try exact I.
  destruct G as [G1 G2]. split; [now rewrite (Sc G1)|]. destruct p; auto.
Qed.

Lemma tableFirst_handlerBody : forall r w c b i,
  tableFirst (w, []) -> w.(tableInitialized) = true ->
  isSome w.(currentSchema) = true ->
  tableFirst (fst (handlerBody r w), [Flushing c b i (snd (handlerBody r w))]).
Proof.
  intros r w c b i (_ & A & B & C) T Sc. cbn [fst snd] in *.
  unfold handlerBody. destruct (100 <=? _); cbn [fst snd]; unfold tableFirst; cbn;
    (split; [constructor; [now split | constructor]|]); repeat split; auto.
Qed.

Lemma tableFirst_iterate : forall c b i w,
  tableFirst (w, []) -> isSome w.(currentSchema) = true ->
  tableFirst (fst (iterate c b i w), toList (snd (iterate c b i w))).
Proof.
  intros c b i w H Sc. unfold iterate.
  destruct (nth_error (arrayAt w b) i) as [r|].
  - unfold callHandler. destruct (tableInitialized w) eqn:T.
    + replace (match currentSchema w with
               | Some _ => handlerBody r w
               | None => handlerBody r w
               end) with (handlerBody r w) by now destruct (currentSchema w).
      pose proof (@tableFirst_handlerBody r w c b i H T Sc) as K.
      now destruct (handlerBody r w).
    + destruct (currentSchema w) as [s|] eqn:E; [|discriminate Sc].
      cbn [fst snd toList]. destruct H as (_ & A & B & C). cbn [fst snd] in *.
      unfold tableFirst. cbn [fst snd]. split.
      * constructor; [|constructor]. cbn. rewrite E. split; [reflexivity|].
        now destruct (createTableCalls w).
      * cbn. repeat split; auto. intros _. now destruct (createTableCalls w).
  - destruct H as (_ & A & B & C). cbn [fst snd] in *.
    destruct c; cbn; unfold tableFirst; cbn; repeat split; auto; repeat constructor.
Qed.

Lemma tableFirst_flushBuffer : forall c w,
  tableFirst (w, []) ->
  tableFirst (fst (flushBuffer c w), toList (snd (flushBuffer c w))).
Proof.
  intros c w H. unfold flushBuffer.
  destruct (isSome (currentSchema w)) eqn:Sc.
  - destruct (_ || _).
    + destruct H as (_ & A & B & C). cbn [fst snd] in *.
      destruct c; cbn; unfold tableFirst; cbn; repeat split; auto; repeat constructor.
    + now apply tableFirst_iterate.
  - cbn [negb]. rewrite orb_true_r.
    destruct H as (_ & A & B & C). cbn [fst snd] in *.
    destruct c; cbn; unfold tableFirst; cbn; repeat split; auto; repeat constructor.
Qed.

(** What a function that may suspend adds to the tasks that wait.  The
    functions change neither the schema once it is there nor the flag once
    it is set, and they remove no [createTable] call. *)
Lemma monotone_step : forall e w ts w' ts',
  step e (w, ts) = Some (w', ts') ->
  (isSome w.(currentSchema) = true -> w'.(currentSchema) = w.(currentSchema)) /\
  (w.(tableInitialized) = true -> w'.(tableInitialized) = true) /\
  (w.(createTableCalls) <> [] -> w'.(createTableCalls) <> []).
Proof.
  intros e w ts w' ts' Hstep. split; [|split].
  - intros Sc. destruct (currentSchema w) as [s|] eqn:E; [|discriminate Sc].
    exact (@schema_kept_step s e w ts w' ts' Hstep E).
  - intros T. exact (proj1 (@created_once_step _ e w ts w' ts' Hstep (conj T eq_refl))).
  - revert Hstep. apply (@P_step (fun w => createTableCalls w <> [])); try (intros; assumption).
    + intros r w0 H. unfold handlerBody. now destruct (100 <=? _).
    + intros s w0 H _ _. cbn. now destruct (createTableCalls w0).
    + intros m w0 H. now destruct (_ && _).
    + intros w0 H. unfold controllerTimer. now destruct (0 <? _).
Qed.

Lemma tableFirst_plain : forall w (t : option Task),
  tableFirst (w, []) ->
  match t with
  | Some (Flushing _ _ _ _) => False
  | _ => True
  end ->
  tableFirst (w, toList t).
Proof.
  intros w t (_ & A & B & C) Ht. cbn [fst snd] in *. unfold tableFirst. cbn [fst snd].
  split; [|now repeat split].
  destruct t as [[c b i p| | |]|]; try contradiction; cbn; repeat constructor.
Qed.

Lemma tableFirst_handleMessage : forall m w,
  tableFirst (w, []) ->
  tableFirst (fst (handleMessage m w), toList (snd (handleMessage m w))).
Proof.
  intros m w H. unfold handleMessage.
  set (w1 := if negb (isSome (currentSchema w)) && isSome (schema m)
             then set_currentSchema (schema m) w else w).
  assert (H1 : tableFirst (push (row m) w1, [])).
  { destruct H as (_ & A & B & C). cbn [fst snd] in *. subst w1.
    destruct (_ && _); unfold tableFirst; cbn; repeat split; auto. }
  destruct (_ && messageHandler _); [now apply tableFirst_flushBuffer|].
  now apply tableFirst_plain.
Qed.

Lemma tableFirst_resume : forall t w,
  tableFirst (w, []) -> grounded w t ->
  tableFirst (fst (resume t w), toList (snd (resume t w))).
Proof.
  intros [c b i [r| |]| | |] w H G; cbn [resume grounded] in *.
  - destruct G as [Sc Cr].
    assert (H0 : tableFirst (set_tableInitialized true w, [])).
    { destruct H as (_ & A & B & C). unfold tableFirst. cbn. repeat split; auto; constructor. }
    pose proof (@tableFirst_handlerBody r (set_tableInitialized true w) c b i H0
                  eq_refl Sc) as K.
    now destruct (handlerBody r (set_tableInitialized true w)).
  - destruct G as [Sc T]. destruct H as (_ & A & B & C). cbn [fst snd] in *.
    unfold tableFirst. cbn. repeat split; auto;
      (constructor; [now split | constructor]).
  - destruct G as [Sc T]. now apply tableFirst_iterate.
  - destruct H as (_ & A & B & C). cbn [fst snd] in *.
    unfold tableFirst. cbn. repeat split; auto.
  - destruct H as (_ & A & B & C). cbn [fst snd] in *.
    unfold tableFirst. cbn. repeat split; auto; repeat constructor.
  - destruct H as (_ & A & B & C). cbn [fst snd] in *.
    unfold tableFirst. cbn. repeat split; auto.
Qed.

Lemma tableFirst_step : forall e cfg cfg',
  step e cfg = Some cfg' -> tableFirst cfg -> tableFirst cfg'.
Proof.
  intros e [w ts] [w' ts'] Hstep H.
  destruct (@monotone_step e w ts w' ts' Hstep) as (Sc & Ti & Cr).
  apply tableFirst_world in H as [G H].
  assert (G' : Forall (grounded w') ts).
  { revert G. apply Forall_impl. intros t. now apply grounded_kept. }
  assert (Join : forall old new,
            Forall (grounded w') old -> tableFirst (w', new) -> tableFirst (w', old ++ new)).
  { intros old new Go Hn. apply tableFirst_world in Hn as [Gn Hn].
    apply tableFirst_world. split; [now apply Forall_app | exact Hn]. }
  unfold step in Hstep. destruct (exited w); [discriminate|].
  destruct e as [m| | |n|]; unfold spawn in Hstep.
  - destruct (_ && _); [|discriminate]. injection Hstep as <- <-.
    apply Join; [exact G' | now apply tableFirst_handleMessage].
  - injection Hstep as <- <-. apply Join; [exact G'|]. unfold kafkaTimer.
    destruct (_ && _); [now apply tableFirst_flushBuffer | now apply tableFirst_plain].
  - injection Hstep as <- <-. apply Join; [exact G'|]. unfold controllerTimer.
    destruct (0 <? length (ctl_messageBuffer w)) eqn:L; [|now apply tableFirst_plain].
    destruct H as (_ & A & B & C). cbn [fst snd] in *. unfold tableFirst. cbn.
    assert (T : tableInitialized w = true).
    { apply A. intros Z. rewrite Z in L. discriminate L. }
    repeat split; auto; repeat constructor.
  - destruct (nth_error ts n) as [t|] eqn:N; [|discriminate].
    assert (Gt : grounded w t).
    { rewrite Forall_forall in G. apply G. eapply nth_error_In; eauto. }
    pose proof (tableFirst_resume t H Gt) as K.
    destruct (resume t w) as [w1 t1]. injection Hstep as <- <-. cbn [fst snd] in K.
    apply tableFirst_world in K as [Gn Hn]. apply tableFirst_world.
    split; [|exact Hn].
    apply Forall_app. split; [|apply Forall_app; split; [exact Gn|]].
    + rewrite <- (firstn_skipn n ts) in G'. now apply Forall_app in G'.
    + rewrite <- (firstn_skipn (S n) ts) in G'. now apply Forall_app in G'.
  - injection Hstep as <- <-. apply Join; [exact G'|]. unfold destroy.
    destruct (isConnected w); [|now apply tableFirst_plain].
    destruct (_ && _); [now apply tableFirst_flushBuffer | now apply tableFirst_plain].
Qed.

Lemma tableFirst_run : forall es cfg cfg',
  run es cfg = Some cfg' -> tableFirst cfg -> tableFirst cfg'.
Proof.
  induction es as [|e es IH]; intros cfg cfg' R H; cbn [run] in R.
  - now injection R as <-.
  - destruct (step e cfg) as [cfg1|] eqn:Hstep; [|discriminate].
    apply (IH cfg1 cfg' R). exact (@tableFirst_step e cfg cfg1 Hstep H).
Qed.

Lemma created_once_run : forall es w ts cfg,
  run es (w, ts) = Some cfg -> w.(tableInitialized) = true ->
  (fst cfg).(tableInitialized) = true /\ (fst cfg).(createTableCalls) = w.(createTableCalls).
Proof.
  induction es as [|e es IH]; intros w ts cfg R T; cbn [run] in R.
  - injection R as <-. now split.
  - destruct (step e (w, ts)) as [[w1 ts1]|] eqn:Hstep; [|discriminate].
    destruct (@created_once_step _ e w ts w1 ts1 Hstep (conj T eq_refl)) as [T1 C1].
    destruct (IH w1 ts1 cfg R T1) as [T2 C2]. split; [exact T2 | congruence].
Qed.

(** X23.  Under every interleaving the table comes before the rows: when a
    row has been handed to the controller or a batch given to [insertBatch],
    [createTable] has been called and has completed; and from then on no
    step calls [createTable] again, however the run goes on, so that no
    written row is lost to the DROP TABLE of a later call. *)
Theorem X23_table_before_rows : forall bs es w ts,
  run es (init bs, []) = Some (w, ts) ->
  (w.(ctl_messageBuffer) <> [] \/ w.(insertBatchCalls) <> [] ->
   w.(tableInitialized) = true /\ w.(createTableCalls) <> []) /\
  (forall es' w' ts',
     w.(ctl_messageBuffer) <> [] \/ w.(insertBatchCalls) <> [] ->
     run es' (w, ts) = Some (w', ts') ->
     w'.(createTableCalls) = w.(createTableCalls)).
Proof.
  intros bs es w ts R.
  assert (H : tableFirst (w, ts)).
  { apply (@tableFirst_run es (init bs, []) (w, ts) R).
    unfold tableFirst. cbn. repeat split; try discriminate; try contradiction; constructor. }
  destruct H as (_ & A & B & C). cbn [fst snd] in *.
  assert (T : ctl_messageBuffer w <> [] \/ insertBatchCalls w <> [] ->
              tableInitialized w = true) by (intros [X | X]; auto).
  split.
  - intros X. split; [now apply T | apply C; now apply T].
  - intros es' w' ts' X R'. exact (proj2 (@created_once_run es' w ts (w', ts') R' (T X))).
Qed.

Lemma X23_table_before_rows_witness :
  run ex_single_write (init 1, []) =
    Some (fst (configAfter 1 ex_single_write), snd (configAfter 1 ex_single_write)) /\
  (fst (configAfter 1 ex_single_write)).(tableInitialized) = true /\
  (fst (configAfter 1 ex_single_write)).(createTableCalls) <> [].
Proof.
  assert (R : run ex_single_write (init 1, []) =
              Some (fst (configAfter 1 ex_single_write),
                    snd (configAfter 1 ex_single_write)))
    by (vm_compute; reflexivity).
  split; [exact R|].
  apply (proj1 (@X23_table_before_rows 1 ex_single_write _ _ R)).
  right. vm_compute. discriminate.
Defined.
